(** * PyVoroTomo, [_iterator.py]: the inversion iterator

    A shallow embedding of the parts of [InversionIterator] that the
    specification makes claims about:

    - the master/worker dispatch protocol ([_dispatch], [_request_dispatch]
      and the worker loops built on them), as a transition system over
      the MPI processes and the messages in flight;
    - the array code of the ROOT rank ([_compute_model_update],
      [update_models], [save], the variance properties,
      [_update_projection_matrix], the outlier filter of
      [_sample_arrivals], the matrix assembly of
      [_compute_sensitivity_matrix], [_projected_ray_idxs],
      [_generate_voronoi_cells_random]), generic in the scalar
      arithmetic, with float64 and the rationals as instances;
    - the worker branch of [_compute_sensitivity_matrix], with Python's
      name resolution written out;
    - [station_dict], as a finite map. *)

From stdpp Require Import base option list numbers strings pretty sorting
  gmap.
From Stdlib Require Import Ascii QArith Qcanon Field.
From Stdlib Require Import Floats.PrimFloat Floats.SpecFloat Floats.FloatAxioms.

Close Scope Qc_scope.
Close Scope Q_scope.
Open Scope nat_scope.

Set Default Proof Using "Type".

(** ** The dispatch protocol *)

Module Dispatch.

Section Protocol.

(** Task identifiers are the Python values other than [None]
    ((network, station) pairs, event ids, ...).  What travels over the
    wire is an arbitrary Python object: [None] or such a value. *)
Context {A : Type}.

Definition item : Type := option A.

(** What a rank is doing.  The ROOT rank runs [_dispatch]; every other
    rank runs a loop [while True: item = self._request_dispatch(); if
    item is None: ...; break; <process item>].  [Idle] is the top of
    that loop, [Waiting] is the blocking [COMM.recv] inside
    [_request_dispatch], [Stopped] is after the [break]. *)
Inductive status : Type := NotWorker | Idle | Waiting | Stopped.

(** One rank: its control state, the TRANSMISSION messages sent to it and
    not yet received, and the values [_request_dispatch] has returned to
    it so far. *)
Record proc : Type := mkProc {
  st : status;
  inbox : list item;
  received : list item
}.

(** The whole process group.  [ids_left] and [sentinels_left] are the
    remaining iterations of the two [for] loops of [_dispatch];
    [sentinel] is its second argument; [requests] are the REQUEST
    messages (each carries the sender's rank) in flight to ROOT; [sent]
    records every [COMM.send] of ROOT as (destination, object). *)
Record state : Type := mkState {
  ids_left : list item;
  sentinels_left : nat;
  sentinel : item;
  requests : list nat;
  sent : list (nat * item);
  procs : list proc
}.

(** [def _dispatch(self, ids, sentinel=None)]: the default. *)
Definition default_sentinel : item := None.

(** The next object ROOT sends: the next id while the first loop runs,
    then the sentinel [WORLD_SIZE - 1] times, then nothing ([_dispatch]
    has returned). *)
Definition root_next (s : state) : option (item * list item * nat) :=
  match ids_left s with
  | x :: rest => Some (x, rest, sentinels_left s)
  | [] =>
      match sentinels_left s with
      | S n => Some (sentinel s, [], n)
      | O => None
      end
  end.

(** [_request_dispatch] returns the item it received, unchanged; the
    caller's test is [if item is None]. *)
Definition after_receive (x : item) : status :=
  match x with
  | None => Stopped
  | Some _ => Idle
  end.

(** The atomic steps of the group.
    - [Request r]: rank [r], at the top of its loop, sends its rank to
      ROOT with the REQUEST tag and blocks in [COMM.recv].
    - [Serve k]: ROOT's [COMM.recv(source=MPI.ANY_SOURCE)] picks the
      [k]-th request in flight and ROOT sends the next object to the
      rank it names.
    - [Receive r]: the [COMM.recv] of rank [r] returns. *)
Inductive event : Type :=
  | Request (r : nat)
  | Serve (k : nat)
  | Receive (r : nat).

Definition step (s : state) (e : event) : option state :=
  match e with
  | Request r =>
      p ← procs s !! r;
      match st p with
      | Idle =>
          Some (mkState (ids_left s) (sentinels_left s) (sentinel s)
                  (requests s ++ [r]) (sent s)
                  (<[r := mkProc Waiting (inbox p) (received p)]> (procs s)))
      | _ => None
      end
  | Serve k =>
      r ← requests s !! k;
      '(x, rest, n) ← root_next s;
      p ← procs s !! r;
      Some (mkState rest n (sentinel s)
              (delete k (requests s)) (sent s ++ [(r, x)])
              (<[r := mkProc (st p) (inbox p ++ [x]) (received p)]> (procs s)))
  | Receive r =>
      p ← procs s !! r;
      match st p, inbox p with
      | Waiting, x :: rest =>
          Some (mkState (ids_left s) (sentinels_left s) (sentinel s)
                  (requests s) (sent s)
                  (<[r := mkProc (after_receive x) rest (received p ++ [x])]>
                     (procs s)))
      | _, _ => None
      end
  end.

(** A schedule is a sequence of steps; [run] is [None] when one of them
    is not enabled. *)
Fixpoint run (s : state) (sched : list event) : option state :=
  match sched with
  | [] => Some s
  | e :: sched' => s' ← step s e; run s' sched'
  end.

(** The group at the call [self._dispatch(ids)] on ROOT, every other
    rank about to enter its loop. *)
Definition init_proc (ROOT_RANK r : nat) : proc :=
  mkProc (if decide (r = ROOT_RANK) then NotWorker else Idle) [] [].

Definition init (WORLD_SIZE ROOT_RANK : nat) (ids : list item) : state :=
  mkState ids (WORLD_SIZE - 1) default_sentinel [] []
    (init_proc ROOT_RANK <$> seq 0 WORLD_SIZE).

(** No step is enabled: every process is blocked or has returned. *)
Definition stuck (s : state) : Prop := ∀ e, step s e = None.

(** The objects ROOT has sent to rank [r], in order. *)
Definition sent_to (r : nat) (log : list (nat * item)) : list item :=
  (filter (λ m, m.1 = r) log).*2.

(** The ranks ROOT has sent [None] to. *)
Definition none_dests (log : list (nat * item)) : list nat :=
  (filter (λ m, m.2 = None) log).*1.

(** [_dispatch] has returned. *)
Definition root_done (s : state) : Prop :=
  ids_left s = [] ∧ sentinels_left s = 0.

(** The claim about one dispatch round, for task ids [tasks] (none of
    them [None], by their type).  Every schedule stops within a bound
    fixed by the number of tasks and of ranks, and when it can go no
    further [_dispatch] has returned, ROOT has sent exactly the task ids
    in order and then [WORLD_SIZE - 1] sentinels, each to a non-ROOT
    rank, and every non-ROOT rank has left its loop having received
    exactly what ROOT sent to it: some task ids and then one [None]. *)
Definition round_complete (WORLD_SIZE ROOT_RANK : nat) (tasks : list A)
    (s : state) : Prop :=
  root_done s
  ∧ (sent s).*2 = (Some <$> tasks) ++ replicate (WORLD_SIZE - 1) None
  ∧ Forall (λ m, m.1 < WORLD_SIZE ∧ m.1 ≠ ROOT_RANK) (sent s)
  ∧ ∀ r, r < WORLD_SIZE → r ≠ ROOT_RANK →
      ∃ p ts, procs s !! r = Some p ∧ st p = Stopped ∧ inbox p = []
              ∧ received p = sent_to r (sent s)
              ∧ received p = (Some <$> ts) ++ [None].

Definition round_bound (WORLD_SIZE : nat) (tasks : list A) : nat :=
  3 * (length tasks + (WORLD_SIZE - 1)) + WORLD_SIZE.

Definition dispatch_contract (WORLD_SIZE ROOT_RANK : nat)
    (tasks : list A) : Prop :=
  (∀ sched s,
     run (init WORLD_SIZE ROOT_RANK (Some <$> tasks)) sched = Some s →
     length sched ≤ round_bound WORLD_SIZE tasks
     ∧ (stuck s → round_complete WORLD_SIZE ROOT_RANK tasks s))
  ∧ ∃ sched s,
      run (init WORLD_SIZE ROOT_RANK (Some <$> tasks)) sched = Some s
      ∧ stuck s.

(** *** Invariants of a round *)

Definition proc_ok (ROOT_RANK : nat) (reqs : list nat) (r : nat) (p : proc) :
    Prop :=
  match st p with
  | NotWorker =>
      r = ROOT_RANK ∧ inbox p = [] ∧ received p = [] ∧ (r ∉ reqs)
  | Idle =>
      r ≠ ROOT_RANK ∧ inbox p = [] ∧ (r ∉ reqs)
      ∧ Forall is_Some (received p)
  | Waiting =>
      r ≠ ROOT_RANK ∧ Forall is_Some (received p)
      ∧ ((inbox p = [] ∧ r ∈ reqs)
         ∨ (∃ x, inbox p = [x] ∧ r ∉ reqs))
  | Stopped =>
      r ≠ ROOT_RANK ∧ inbox p = [] ∧ (r ∉ reqs)
      ∧ ∃ ts : list A, received p = (Some <$> ts) ++ [None]
  end.

Record inv (WORLD_SIZE ROOT_RANK : nat) (ids : list item) (s : state) : Prop :=
  mkInv {
    inv_len : length (procs s) = WORLD_SIZE;
    inv_sentinel : sentinel s = None;
    inv_procs : ∀ r p, procs s !! r = Some p →
                proc_ok ROOT_RANK (requests s) r p;
    inv_reqs_nodup : NoDup (requests s);
    inv_reqs_lt : ∀ r, r ∈ requests s → r < WORLD_SIZE;
    inv_log : ∀ r p, procs s !! r = Some p →
                received p ++ inbox p = sent_to r (sent s);
    inv_sent : (sent s).*2 ++ ids_left s ++ replicate (sentinels_left s) None
               = ids ++ replicate (WORLD_SIZE - 1) None;
    inv_order : ids_left s ≠ [] → sentinels_left s = WORLD_SIZE - 1;
    inv_dests : Forall (λ m, m.1 < WORLD_SIZE ∧ m.1 ≠ ROOT_RANK) (sent s);
    inv_nd : NoDup (none_dests (sent s))
  }.

(** The potential that every step lowers. *)
Definition proc_weight (p : proc) : nat :=
  2 * length (inbox p) + match st p with Idle => 1 | _ => 0 end.

Definition measure (s : state) : nat :=
  3 * (length (ids_left s) + sentinels_left s)
  + sum_list_with proc_weight (procs s).

(** The number of [None]s in a list of objects. *)
Definition nones (l : list item) : nat :=
  length (filter (λ x, x = None) l).

(** The non-ROOT ranks. *)
Definition workers (WORLD_SIZE ROOT_RANK : nat) : list nat :=
  filter (λ r, r ≠ ROOT_RANK) (seq 0 WORLD_SIZE).

(** The steps that can be enabled at all in [s]. *)
Definition candidates (s : state) : list event :=
  (Request <$> seq 0 (length (procs s)))
  ++ (Serve <$> seq 0 (length (requests s)))
  ++ (Receive <$> seq 0 (length (procs s))).

(** *** Termination: every step lowers [measure] *)

Lemma sum_list_with_insert {B} (f : B → nat) (l : list B) i x y :
  l !! i = Some y →
  sum_list_with f (<[i:=x]> l) + f y = sum_list_with f l + f x.
Proof.
  revert i. induction l as [|z l IH]; intros [|i] Hi; simplify_eq/=.
  - lia.
  - specialize (IH _ Hi). lia.
Qed.

Lemma insert_weight (l : list proc) r p q :
  l !! r = Some p →
  sum_list_with proc_weight (<[r:=q]> l) + proc_weight p
  = sum_list_with proc_weight l + proc_weight q.
Proof. apply sum_list_with_insert. Qed.

Lemma step_measure s e s' : step s e = Some s' → S (measure s') ≤ measure s.
Proof.
  unfold measure. destruct e as [r|k|r]; simpl; intros Hs.
  - destruct (procs s !! r) as [p|] eqn:Hp; simplify_eq/=.
    destruct (st p) eqn:Hst; simplify_eq/=.
    pose proof (insert_weight _ _ _
                  (mkProc Waiting (inbox p) (received p)) Hp) as Hsum.
    revert Hsum. unfold proc_weight at 2 4. rewrite Hst. simpl. lia.
  - destruct (requests s !! k) as [r|] eqn:Hr; simplify_eq/=.
    unfold root_next in Hs.
    destruct (ids_left s) as [|x rest] eqn:Hids;
      [destruct (sentinels_left s) as [|n] eqn:Hn|]; simplify_eq/=;
      destruct (procs s !! r) as [p|] eqn:Hp; simplify_eq/=.
    + pose proof (insert_weight _ _ _
        (mkProc (st p) (inbox p ++ [sentinel s]) (received p)) Hp) as Hsum.
      revert Hsum. unfold proc_weight at 2 4. simpl.
      rewrite length_app. simpl. lia.
    + pose proof (insert_weight _ _ _
        (mkProc (st p) (inbox p ++ [x]) (received p)) Hp) as Hsum.
      revert Hsum. unfold proc_weight at 2 4. simpl.
      rewrite length_app. simpl. lia.
  - destruct (procs s !! r) as [p|] eqn:Hp; simplify_eq/=.
    destruct (st p) eqn:Hst; simplify_eq/=.
    destruct (inbox p) as [|x rest] eqn:Hin; simplify_eq/=.
    pose proof (insert_weight _ _ _
        (mkProc (after_receive x) rest (received p ++ [x])) Hp) as Hsum.
    revert Hsum. unfold proc_weight at 2 4. rewrite Hst, Hin.
    simpl. destruct x; simpl; lia.
Qed.

Lemma run_measure sched : ∀ s s',
  run s sched = Some s' → length sched + measure s' ≤ measure s.
Proof.
  induction sched as [|e sched IH]; intros s s' Hrun; simplify_eq/=; [lia|].
  destruct (step s e) as [s1|] eqn:Hstep; simplify_eq/=.
  apply step_measure in Hstep. apply IH in Hrun. lia.
Qed.

Lemma init_weight ROOT_RANK n k :
  sum_list_with proc_weight (init_proc ROOT_RANK <$> seq k n) ≤ n.
Proof.
  revert k. induction n as [|n IH]; intros k; csimpl; [lia|].
  specialize (IH (S k)). unfold proc_weight at 1, init_proc at 1. simpl.
  destruct (decide (k = ROOT_RANK)); simpl; lia.
Qed.

Lemma init_measure WORLD_SIZE ROOT_RANK (tasks : list A) :
  measure (init WORLD_SIZE ROOT_RANK (Some <$> tasks))
  ≤ round_bound WORLD_SIZE tasks.
Proof.
  unfold measure, round_bound. simpl. rewrite length_fmap.
  pose proof (init_weight ROOT_RANK WORLD_SIZE 0). lia.
Qed.

(** *** The send log *)

Lemma sent_to_snoc r log r' x :
  sent_to r (log ++ [(r', x)])
  = sent_to r log ++ (if decide (r' = r) then [x] else []).
Proof.
  unfold sent_to. rewrite filter_app, fmap_app. f_equal.
  rewrite filter_cons, filter_nil. simpl.
  repeat case_decide; done.
Qed.

Lemma none_dests_snoc log r (x : item) :
  none_dests (log ++ [(r, x)])
  = none_dests log ++ (if decide (x = None) then [r] else []).
Proof.
  unfold none_dests. rewrite filter_app, fmap_app. f_equal.
  rewrite filter_cons, filter_nil. simpl.
  repeat case_decide; done.
Qed.

Lemma elem_of_none_dests log r : r ∈ none_dests log ↔ None ∈ sent_to r log.
Proof.
  unfold none_dests, sent_to. rewrite !list_elem_of_fmap. split.
  - intros ([r' x] & -> & [Hx Hin]%list_elem_of_filter). simpl in *.
    exists (r', x). split; [done|]. apply list_elem_of_filter. done.
  - intros ([r' x] & Hx & [Hr Hin]%list_elem_of_filter). simpl in *.
    exists (r', x). split; [done|]. apply list_elem_of_filter. done.
Qed.

Lemma nones_app l k : nones (l ++ k) = nones l + nones k.
Proof. unfold nones. by rewrite filter_app, length_app. Qed.

Lemma nones_replicate n : nones (replicate n None) = n.
Proof.
  unfold nones. induction n as [|n IH]; [done|].
  rewrite replicate_S, filter_cons_True by done. simpl. f_equal. exact IH.
Qed.

Lemma nones_fmap_Some (ts : list A) : nones (Some <$> ts) = 0.
Proof.
  unfold nones. induction ts as [|t ts IH]; [done|].
  csimpl. by rewrite filter_cons_False.
Qed.

Lemma nones_0 l : nones l = 0 → Forall is_Some l.
Proof.
  unfold nones. induction l as [|[a|] l IH]; intros Hl.
  - constructor.
  - constructor; [by eexists|]. apply IH. by rewrite filter_cons_False in Hl.
  - by rewrite filter_cons_True in Hl.
Qed.

Lemma length_none_dests log : length (none_dests log) = nones log.*2.
Proof.
  unfold none_dests, nones. induction log as [|[r x] log IH]; [done|].
  csimpl. rewrite !filter_cons. simpl.
  repeat case_decide; simplify_eq/=; try done; f_equal; exact IH.
Qed.

Lemma Forall_is_Some_fmap (l : list item) :
  Forall is_Some l → ∃ ts : list A, l = Some <$> ts.
Proof.
  induction 1 as [|x l [a ->] _ [ts ->]]; [by exists []|]. by exists (a :: ts).
Qed.

Lemma not_None_in_Some (l : list item) : Forall is_Some l → None ∉ l.
Proof.
  intros Hl Hin. rewrite Forall_forall in Hl.
  destruct (Hl _ Hin) as [? [=]].
Qed.

(** *** The non-ROOT ranks *)

Lemma elem_of_workers WORLD_SIZE ROOT_RANK r :
  r ∈ workers WORLD_SIZE ROOT_RANK ↔ r < WORLD_SIZE ∧ r ≠ ROOT_RANK.
Proof.
  unfold workers. rewrite list_elem_of_filter, elem_of_seq. lia.
Qed.

Lemma NoDup_workers WORLD_SIZE ROOT_RANK : NoDup (workers WORLD_SIZE ROOT_RANK).
Proof. apply NoDup_filter, NoDup_seq. Qed.

Lemma filter_all {B} (P : B → Prop) `{!∀ x, Decision (P x)} (l : list B) :
  Forall P l → filter P l = l.
Proof.
  induction 1 as [|x l Hx _ IH]; [done|]. by rewrite filter_cons_True, IH.
Qed.

Lemma length_workers WORLD_SIZE ROOT_RANK :
  ROOT_RANK < WORLD_SIZE → length (workers WORLD_SIZE ROOT_RANK) = WORLD_SIZE - 1.
Proof.
  intros Hlt. unfold workers.
  assert (seq 0 WORLD_SIZE
          = seq 0 ROOT_RANK ++ ROOT_RANK :: seq (S ROOT_RANK) (WORLD_SIZE - S ROOT_RANK))
    as ->.
  { replace WORLD_SIZE with (ROOT_RANK + S (WORLD_SIZE - S ROOT_RANK)) at 1 by lia.
    by rewrite seq_app. }
  rewrite filter_app, filter_cons. destruct (decide (ROOT_RANK ≠ ROOT_RANK)); [done|].
  rewrite length_app.
  rewrite !filter_all.
  - rewrite !length_seq. lia.
  - apply Forall_forall. intros x Hx%elem_of_seq. lia.
  - apply Forall_forall. intros x Hx%elem_of_seq. lia.
Qed.

(** *** The invariant holds initially and is kept by every step *)

Section Invariant.

Variables (WORLD_SIZE ROOT_RANK : nat) (ids : list item).

Local Abbreviation Inv := (inv WORLD_SIZE ROOT_RANK ids).

Lemma proc_ok_reqs reqs reqs' r p :
  (r ∈ reqs ↔ r ∈ reqs') →
  proc_ok ROOT_RANK reqs r p → proc_ok ROOT_RANK reqs' r p.
Proof. unfold proc_ok. intros Hiff. destruct (st p); naive_solver. Qed.

Lemma init_lookup r p :
  procs (init WORLD_SIZE ROOT_RANK ids) !! r = Some p →
  r < WORLD_SIZE ∧ p = init_proc ROOT_RANK r.
Proof.
  simpl. rewrite list_lookup_fmap. intros Hp.
  destruct (seq 0 WORLD_SIZE !! r) as [r'|] eqn:E; simplify_eq/=.
  apply lookup_seq in E as [-> ?]. done.
Qed.

Lemma inv_init : Inv (init WORLD_SIZE ROOT_RANK ids).
Proof.
  split.
  - simpl. by rewrite length_fmap, length_seq.
  - done.
  - intros r p [_ ->]%init_lookup. unfold proc_ok, init_proc. simpl.
    case_decide; simpl; split_and!; try done; apply not_elem_of_nil.
  - constructor.
  - intros r Hr. by apply not_elem_of_nil in Hr.
  - by intros r p [_ ->]%init_lookup.
  - done.
  - done.
  - constructor.
  - constructor.
Qed.

Lemma inv_lookup s r :
  Inv s → r < WORLD_SIZE → ∃ p, procs s !! r = Some p.
Proof.
  intros HI Hr. apply lookup_lt_is_Some. by rewrite (inv_len _ _ _ _ HI).
Qed.

Lemma inv_requesting s r :
  Inv s → r ∈ requests s →
  ∃ p, procs s !! r = Some p ∧ st p = Waiting ∧ inbox p = []
       ∧ r ≠ ROOT_RANK ∧ Forall is_Some (received p).
Proof.
  intros HI Hr.
  destruct (inv_lookup s r HI) as [p Hp]; [by eapply inv_reqs_lt|].
  exists p. split; [done|].
  pose proof (inv_procs _ _ _ _ HI r p Hp) as Hok. unfold proc_ok in Hok.
  destruct (st p); naive_solver.
Qed.

Lemma inv_step_request s r s' : Inv s → step s (Request r) = Some s' → Inv s'.
Proof.
  intros HI Hs. simpl in Hs.
  destruct (procs s !! r) as [p|] eqn:Hp; simplify_eq/=.
  destruct (st p) eqn:Hst; simplify_eq/=.
  pose proof (inv_procs _ _ _ _ HI r p Hp) as Hok.
  unfold proc_ok in Hok. rewrite Hst in Hok.
  destruct Hok as (Hroot & Hin & Hreq & Hrecv).
  assert (r < length (procs s)) as Hlt by by eapply lookup_lt_Some.
  split; simpl.
  - rewrite length_insert. by eapply inv_len.
  - by eapply inv_sentinel.
  - intros r' p' Hp'. destruct (decide (r' = r)) as [->|Hne].
    + rewrite list_lookup_insert_eq in Hp' by done. simplify_eq.
      unfold proc_ok. simpl. split_and!; try done.
      left. split; [done|]. apply elem_of_app. right. by apply list_elem_of_singleton.
    + rewrite list_lookup_insert_ne in Hp' by done.
      eapply proc_ok_reqs; [|by eapply inv_procs].
      rewrite elem_of_app, list_elem_of_singleton. naive_solver.
  - apply NoDup_app. split_and!; [by eapply inv_reqs_nodup| |apply NoDup_singleton].
    intros x Hx ->%list_elem_of_singleton. done.
  - intros x [Hx| ->%list_elem_of_singleton]%elem_of_app.
    + by eapply inv_reqs_lt.
    + by rewrite <-(inv_len _ _ _ _ HI).
  - intros r' p' Hp'. destruct (decide (r' = r)) as [->|Hne].
    + rewrite list_lookup_insert_eq in Hp' by done. simplify_eq. simpl.
      by eapply inv_log.
    + rewrite list_lookup_insert_ne in Hp' by done. by eapply inv_log.
  - by eapply inv_sent.
  - by eapply inv_order.
  - by eapply inv_dests.
  - by eapply inv_nd.
Qed.

Lemma inv_step_receive s r s' : Inv s → step s (Receive r) = Some s' → Inv s'.
Proof.
  intros HI Hs. simpl in Hs.
  destruct (procs s !! r) as [p|] eqn:Hp; simplify_eq/=.
  destruct (st p) eqn:Hst; simplify_eq/=.
  destruct (inbox p) as [|x rest] eqn:Hin; simplify_eq/=.
  pose proof (inv_procs _ _ _ _ HI r p Hp) as Hok.
  unfold proc_ok in Hok. rewrite Hst, Hin in Hok.
  destruct Hok as (Hroot & Hrecv & [[? _]|(y & Hy & Hreq)]); [done|].
  simplify_eq.
  assert (r < length (procs s)) as Hlt by by eapply lookup_lt_Some.
  split; simpl.
  - rewrite length_insert. by eapply inv_len.
  - by eapply inv_sentinel.
  - intros r' p' Hp'. destruct (decide (r' = r)) as [->|Hne].
    + rewrite list_lookup_insert_eq in Hp' by done. simplify_eq.
      unfold proc_ok. destruct y as [a|]; simpl; split_and!; try done.
      * apply Forall_app. split; [done|]. constructor; [by eexists|constructor].
      * destruct (Forall_is_Some_fmap _ Hrecv) as [ts ->]. by exists ts.
    + rewrite list_lookup_insert_ne in Hp' by done. by eapply inv_procs.
  - by eapply inv_reqs_nodup.
  - by eapply inv_reqs_lt.
  - intros r' p' Hp'. destruct (decide (r' = r)) as [->|Hne].
    + rewrite list_lookup_insert_eq in Hp' by done. simplify_eq. simpl.
      rewrite app_nil_r. rewrite <-(inv_log _ _ _ _ HI r p Hp), Hin. done.
    + rewrite list_lookup_insert_ne in Hp' by done. by eapply inv_log.
  - by eapply inv_sent.
  - by eapply inv_order.
  - by eapply inv_dests.
  - by eapply inv_nd.
Qed.

Lemma delete_nodup (l : list nat) k r :
  NoDup l → l !! k = Some r →
  NoDup (delete k l) ∧ r ∉ delete k l
  ∧ ∀ x, x ∈ l ↔ x = r ∨ x ∈ delete k l.
Proof.
  intros Hnd Hk. pose proof (delete_Permutation l k r Hk) as Hperm.
  rewrite Hperm in Hnd. apply NoDup_cons in Hnd as [Hnotin Hnd].
  split_and!; [done..|]. intros x. by rewrite Hperm at 1; rewrite elem_of_cons.
Qed.

Lemma inv_step_serve s k s' : Inv s → step s (Serve k) = Some s' → Inv s'.
Proof.
  intros HI Hs. simpl in Hs.
  destruct (requests s !! k) as [r|] eqn:Hk; simplify_eq/=.
  destruct (root_next s) as [[[x rest] n]|] eqn:Hnext; simplify_eq/=.
  destruct (procs s !! r) as [p|] eqn:Hp; simplify_eq/=.
  destruct (inv_requesting s r HI) as (p' & Hp' & Hst & Hin & Hroot & Hrecv);
    [by eapply list_elem_of_lookup_2|]. simplify_eq.
  destruct (delete_nodup _ _ _ (inv_reqs_nodup _ _ _ _ HI) Hk)
    as (Hnd & Hnotin & Hmem).
  assert (r < length (procs s)) as Hlt by by eapply lookup_lt_Some.
  assert (r ∉ none_dests (sent s)) as Hfresh.
  { rewrite elem_of_none_dests, <-(inv_log _ _ _ _ HI r p Hp), Hin, app_nil_r.
    by apply not_None_in_Some. }
  assert (root_next s = Some (x, rest, n) →
          (sent s).*2 ++ [x] ++ rest ++ replicate n None
          = (sent s).*2 ++ ids_left s ++ replicate (sentinels_left s) None
          ∧ (rest ≠ [] → n = sentinels_left s ∧ ids_left s ≠ []))
    as Hroot_next.
  { unfold root_next. rewrite (inv_sentinel _ _ _ _ HI).
    destruct (ids_left s) as [|y ids']; [destruct (sentinels_left s)|];
      intros [=]; subst.
    - by rewrite replicate_S.
    - done. }
  destruct (Hroot_next Hnext) as (Hsent & Horder).
  split; simpl.
  - rewrite length_insert. by eapply inv_len.
  - by eapply inv_sentinel.
  - intros r' q Hq. destruct (decide (r' = r)) as [->|Hne].
    + rewrite list_lookup_insert_eq in Hq by done. simplify_eq.
      unfold proc_ok. simpl. rewrite Hst, Hin. split_and!; try done.
      right. by exists x.
    + rewrite list_lookup_insert_ne in Hq by done.
      eapply proc_ok_reqs; [|by eapply inv_procs]. rewrite Hmem. naive_solver.
  - done.
  - intros y Hy. eapply inv_reqs_lt; [done|]. apply Hmem. by right.
  - intros r' q Hq. rewrite sent_to_snoc. destruct (decide (r' = r)) as [->|Hne].
    + rewrite list_lookup_insert_eq in Hq by done. simplify_eq. simpl.
      rewrite decide_True by done. rewrite app_assoc. f_equal. by eapply inv_log.
    + rewrite list_lookup_insert_ne in Hq by done.
      rewrite decide_False by done. rewrite app_nil_r. by eapply inv_log.
  - rewrite fmap_app, <-app_assoc. simpl. simpl in Hsent. rewrite Hsent.
    by eapply inv_sent.
  - intros Hrest. destruct (Horder Hrest) as [-> Hids]. by eapply inv_order.
  - apply Forall_app. split; [by eapply inv_dests|].
    constructor; [|constructor]. simpl. split; [|done].
    by rewrite <-(inv_len _ _ _ _ HI).
  - rewrite none_dests_snoc. case_decide; [|rewrite app_nil_r; by eapply inv_nd].
    apply NoDup_app. split_and!; [by eapply inv_nd| |apply NoDup_singleton].
    intros y Hy ->%list_elem_of_singleton. done.
Qed.

Lemma inv_step s e s' : Inv s → step s e = Some s' → Inv s'.
Proof.
  destruct e; eauto using inv_step_request, inv_step_serve, inv_step_receive.
Qed.

Lemma inv_run sched : ∀ s s', Inv s → run s sched = Some s' → Inv s'.
Proof.
  induction sched as [|e sched IH]; intros s s' HI Hrun; simplify_eq/=; [done|].
  destruct (step s e) as [s1|] eqn:Hstep; simplify_eq/=.
  eauto using inv_step.
Qed.

Lemma inv_reachable sched s :
  run (init WORLD_SIZE ROOT_RANK ids) sched = Some s → Inv s.
Proof. apply inv_run, inv_init. Qed.

End Invariant.

(** *** What a blocked group looks like *)

Section Blocked.

Variables (WORLD_SIZE ROOT_RANK : nat) (ids : list item).

Local Abbreviation Inv := (inv WORLD_SIZE ROOT_RANK ids).

Lemma stuck_worker s r p :
  Inv s → stuck s → procs s !! r = Some p → r ≠ ROOT_RANK →
  (st p = Waiting ∧ inbox p = [] ∧ r ∈ requests s
   ∧ Forall is_Some (received p))
  ∨ (st p = Stopped ∧ inbox p = []
     ∧ ∃ ts : list A, received p = (Some <$> ts) ++ [None]).
Proof.
  intros HI Hstuck Hp Hroot.
  pose proof (inv_procs _ _ _ _ HI r p Hp) as Hok. unfold proc_ok in Hok.
  pose proof (Hstuck (Request r)) as Hreq.
  pose proof (Hstuck (Receive r)) as Hrcv.
  simpl in Hreq, Hrcv. rewrite Hp in Hreq, Hrcv. simpl in Hreq, Hrcv.
  destruct (st p); try done.
  - by destruct Hok as [-> _].
  - destruct Hok as (_ & Hrecv & [[Hin Hr]|(x & Hin & _)]).
    + left. done.
    + by rewrite Hin in Hrcv.
  - right. naive_solver.
Qed.

Lemma stuck_root s : Inv s → stuck s → root_done s ∨ requests s = [].
Proof.
  intros HI Hstuck. destruct (requests s) as [|r reqs] eqn:Hreqs; [by right|].
  left. pose proof (Hstuck (Serve 0)) as Hserve. simpl in Hserve.
  rewrite Hreqs in Hserve. simpl in Hserve.
  destruct (inv_requesting _ _ _ s r HI) as (p & Hp & _).
  { rewrite Hreqs. apply list_elem_of_here. }
  unfold root_next in Hserve. rewrite Hp in Hserve. unfold root_done.
  destruct (ids_left s); [destruct (sentinels_left s)|]; done.
Qed.

Lemma none_dests_workers s r :
  Inv s → r ∈ none_dests (sent s) → r ∈ workers WORLD_SIZE ROOT_RANK.
Proof.
  intros HI. unfold none_dests.
  intros (m & -> & Hm)%list_elem_of_fmap.
  apply list_elem_of_filter in Hm as [_ Hm].
  apply elem_of_workers.
  pose proof (inv_dests _ _ _ _ HI) as Hd. rewrite Forall_forall in Hd. auto.
Qed.

Lemma none_dests_bound s :
  Inv s → ROOT_RANK < WORLD_SIZE → nones (sent s).*2 ≤ WORLD_SIZE - 1.
Proof.
  intros HI Hlt. rewrite <-length_none_dests, <-(length_workers _ ROOT_RANK) by done.
  apply submseteq_length, NoDup_submseteq; [by eapply inv_nd|].
  intros r. by apply none_dests_workers.
Qed.

Lemma stopped_in_none_dests s r p :
  Inv s → procs s !! r = Some p → st p = Stopped → r ∈ none_dests (sent s).
Proof.
  intros HI Hp Hst. rewrite elem_of_none_dests, <-(inv_log _ _ _ _ HI r p Hp).
  pose proof (inv_procs _ _ _ _ HI r p Hp) as Hok. unfold proc_ok in Hok.
  rewrite Hst in Hok. destruct Hok as (_ & _ & _ & ts & ->).
  rewrite !elem_of_app, list_elem_of_singleton. auto.
Qed.

(** When [_dispatch] has returned, the ids held no [None]. *)
Lemma root_done_no_None s :
  Inv s → ROOT_RANK < WORLD_SIZE → root_done s → Forall is_Some ids.
Proof.
  intros HI Hlt [Hids Hn]. apply nones_0.
  pose proof (none_dests_bound s HI Hlt) as Hb.
  pose proof (inv_sent _ _ _ _ HI) as Hsent.
  rewrite Hids, Hn in Hsent. simpl in Hsent. rewrite app_nil_r in Hsent.
  rewrite Hsent, nones_app, nones_replicate in Hb. lia.
Qed.

End Blocked.

(** *** Completion of a round of real task ids *)

Section Completion.

Variables (WORLD_SIZE ROOT_RANK : nat) (tasks : list A).

Local Abbreviation Inv := (inv WORLD_SIZE ROOT_RANK (Some <$> tasks)).

Lemma none_count s :
  Inv s →
  nones (sent s).*2 + nones (ids_left s) + sentinels_left s = WORLD_SIZE - 1.
Proof.
  intros HI. pose proof (inv_sent _ _ _ _ HI) as Hsent.
  apply (f_equal nones) in Hsent.
  rewrite !nones_app, !nones_replicate, nones_fmap_Some in Hsent. lia.
Qed.

Lemma stuck_root_done s :
  2 ≤ WORLD_SIZE → ROOT_RANK < WORLD_SIZE → Inv s → stuck s → root_done s.
Proof.
  intros Hws Hlt HI Hstuck.
  destruct (stuck_root _ _ _ s HI Hstuck) as [|Hreqs]; [done|].
  assert (WORLD_SIZE - 1 ≤ nones (sent s).*2) as Hall.
  { rewrite <-length_none_dests, <-(length_workers _ ROOT_RANK) by done.
    apply submseteq_length, NoDup_submseteq; [apply NoDup_workers|].
    intros r [Hr Hroot]%elem_of_workers.
    destruct (inv_lookup _ _ _ s r HI Hr) as [p Hp].
    destruct (stuck_worker _ _ _ s r p HI Hstuck Hp Hroot)
      as [(_ & _ & Hin & _)|(Hst & _)].
    - rewrite Hreqs in Hin. by apply not_elem_of_nil in Hin.
    - by eapply stopped_in_none_dests. }
  pose proof (none_count s HI) as Hcount.
  split; [|lia].
  destruct (ids_left s) as [|x rest] eqn:Hids; [done|].
  pose proof (inv_order _ _ _ _ HI) as Horder. rewrite Hids in Horder.
  specialize (Horder ltac:(done)). lia.
Qed.

Lemma stuck_complete s :
  2 ≤ WORLD_SIZE → ROOT_RANK < WORLD_SIZE → Inv s → stuck s →
  round_complete WORLD_SIZE ROOT_RANK tasks s.
Proof.
  intros Hws Hlt HI Hstuck.
  pose proof (stuck_root_done s Hws Hlt HI Hstuck) as Hdone.
  pose proof Hdone as [Hids Hn].
  pose proof (none_count s HI) as Hcount. rewrite Hids, Hn in Hcount.
  change (nones []) with 0 in Hcount.
  assert (∀ r, r ∈ workers WORLD_SIZE ROOT_RANK → r ∈ none_dests (sent s))
    as Hcover.
  { intros r. apply (elem_of_Permutation_proper r).
    apply submseteq_length_Permutation.
    - apply NoDup_submseteq; [by eapply inv_nd|].
      intros r'. by eapply none_dests_workers.
    - rewrite length_workers, length_none_dests by done. lia. }
  split_and!.
  - done.
  - pose proof (inv_sent _ _ _ _ HI) as Hsent.
    rewrite Hids, Hn in Hsent. simpl in Hsent. by rewrite app_nil_r in Hsent.
  - by eapply inv_dests.
  - intros r Hr Hroot.
    destruct (inv_lookup _ _ _ s r HI Hr) as [p Hp].
    pose proof (inv_log _ _ _ _ HI r p Hp) as Hlog.
    destruct (stuck_worker _ _ _ s r p HI Hstuck Hp Hroot)
      as [(_ & Hin & _ & Hrecv)|(Hst & Hin & ts & Hts)].
    + exfalso. eapply not_None_in_Some; [exact Hrecv|].
      rewrite Hin, app_nil_r in Hlog. rewrite Hlog.
      apply elem_of_none_dests, Hcover, elem_of_workers. done.
    + exists p, ts. rewrite Hin, app_nil_r in Hlog. done.
Qed.

End Completion.

(** *** Every state can be run until nothing is enabled *)

Lemma step_candidate s e s' : step s e = Some s' → e ∈ candidates s.
Proof.
  unfold candidates. rewrite !elem_of_app, !list_elem_of_fmap.
  destruct e as [r|k|r]; simpl; intros Hs.
  - left. exists r. split; [done|]. apply elem_of_seq.
    destruct (procs s !! r) eqn:Hp; simplify_eq/=.
    apply lookup_lt_Some in Hp. lia.
  - right; left. exists k. split; [done|]. apply elem_of_seq.
    destruct (requests s !! k) eqn:Hk; simplify_eq/=.
    apply lookup_lt_Some in Hk. lia.
  - right; right. exists r. split; [done|]. apply elem_of_seq.
    destruct (procs s !! r) eqn:Hp; simplify_eq/=.
    apply lookup_lt_Some in Hp. lia.
Qed.

Lemma run_to_stuck n : ∀ s,
  measure s ≤ n → ∃ sched s', run s sched = Some s' ∧ stuck s'.
Proof.
  induction n as [|n IH]; intros s Hm.
  - exists [], s. split; [done|]. intros e.
    destruct (step s e) as [s1|] eqn:Hs; [|done].
    apply step_measure in Hs. lia.
  - destruct (decide (Exists (λ e, is_Some (step s e)) (candidates s)))
      as [Hex|Hnone].
    + apply Exists_exists in Hex as (e & _ & [s1 Hs]).
      destruct (IH s1) as (sched & s' & Hrun & Hstuck).
      { apply step_measure in Hs. lia. }
      exists (e :: sched), s'. split; [|done]. simpl. by rewrite Hs.
    + exists [], s. split; [done|]. intros e.
      destruct (step s e) as [s1|] eqn:Hs; [|done].
      exfalso. apply Hnone, Exists_exists. exists e.
      split; [by eapply step_candidate|]. by rewrite Hs.
Qed.

End Protocol.

(** *** Concrete rounds *)

(** Three ranks, ROOT is rank 0, two tasks: rank 1 takes task 10 and
    rank 2 takes task 20, then both are told to stop. *)
Example round_of_two_tasks :
  run (init 3 0 [Some 10; Some 20])
      [Request 1; Request 2; Serve 1; Serve 0; Receive 1; Receive 2;
       Request 2; Serve 0; Request 1; Receive 2; Serve 0; Receive 1]
  = Some (mkState [] 0 None []
            [(2, Some 10); (1, Some 20); (2, None); (1, None)]
            [mkProc NotWorker [] [];
             mkProc Stopped [] [Some 20; None];
             mkProc Stopped [] [Some 10; None]]).
Proof. reflexivity. Qed.

(** Two ranks and the ids [None; 5]: the worker takes the first id for
    the sentinel and leaves its loop; ROOT blocks in [COMM.recv] with id 5
    still to hand out. *)
Example round_with_a_None_id :
  ∃ s, run (init 2 0 [None; Some 5]) [Request 1; Serve 0; Receive 1] = Some s
       ∧ procs s !! 1 = Some (mkProc Stopped [] [None])
       ∧ ids_left s = [Some 5]
       ∧ stuck s.
Proof.
  eexists. split; [reflexivity|]. split_and!; try reflexivity.
  intros [[|[|r]]|k|[|[|r]]]; reflexivity.
Qed.

(** C1 (as amended).  One dispatch round of [_dispatch] with task ids
    [tasks] against the [WORLD_SIZE - 1] non-ROOT ranks, each looping on
    [_request_dispatch], when there is at least one such rank: whatever
    the order in which requests arrive and are served, the round stops
    within [round_bound] steps, and when it has stopped ROOT has sent
    every task id exactly once, each to one non-ROOT rank, then one
    sentinel to each non-ROOT rank; every non-ROOT rank has received
    exactly what was sent to it, some task ids followed by a single
    [None], so it gets no task after its sentinel.  [W <= T] is not
    needed. *)
Theorem dispatch_round_delivers {A} (WORLD_SIZE ROOT_RANK : nat)
    (tasks : list A) :
  2 ≤ WORLD_SIZE → ROOT_RANK < WORLD_SIZE →
  dispatch_contract WORLD_SIZE ROOT_RANK tasks.
Proof.
  intros Hws Hlt. split.
  - intros sched s Hrun. split.
    + pose proof (run_measure _ _ _ Hrun).
      pose proof (init_measure WORLD_SIZE ROOT_RANK tasks). lia.
    + intros Hstuck. eapply stuck_complete; eauto using inv_reachable.
  - by eapply run_to_stuck.
Qed.

Lemma dispatch_round_delivers_witness :
  2 ≤ 3 ∧ 0 < 3 ∧ dispatch_contract 3 0 [10; 20].
Proof.
  split; [lia|]. split; [lia|]. apply dispatch_round_delivers; lia.
Defined.

(** C1 as stated fails without a worker: with [WORLD_SIZE = 1] (so
    [W = 0 <= T = 1]) ROOT blocks in its first [COMM.recv] and the task
    is never sent. *)
Lemma dispatch_without_workers_hangs :
  0 < 1 ∧ 1 - 1 ≤ length [7] ∧ ¬ dispatch_contract 1 0 [7].
Proof.
  split; [lia|]. split; [simpl; lia|]. intros [Hall _].
  destruct (Hall [] _ eq_refl) as [_ Hcomplete].
  destruct Hcomplete as [[Hids _] _]; [|done].
  intros [[|r]|k|[|r]]; reflexivity.
Qed.

(** C10.  The sentinel of [_dispatch] is [None] by default; a worker
    decides to leave its loop on the received item alone, and leaves
    exactly when that item is [None], so a [None] among the ids stops the
    rank that receives it like a sentinel would, whatever ROOT still has
    to hand out; and [_dispatch] can only return when no dispatched id
    was [None]. *)
Theorem none_id_blocks_dispatch {A} (WORLD_SIZE ROOT_RANK : nat)
    (ids : list (@item A)) :
  ROOT_RANK < WORLD_SIZE →
  @default_sentinel A = None
  ∧ (∀ x : @item A, after_receive x = Stopped ↔ x = None)
  ∧ (∀ (s : @state A) r p rest,
       procs s !! r = Some p → st p = Waiting → inbox p = None :: rest →
       ∃ s', step s (Receive r) = Some s'
             ∧ st <$> procs s' !! r = Some Stopped)
  ∧ (∀ sched s,
       run (init WORLD_SIZE ROOT_RANK ids) sched = Some s →
       root_done s → Forall is_Some ids).
Proof.
  intros Hlt. split_and!.
  - reflexivity.
  - intros [a|]; simpl; naive_solver.
  - intros s r p rest Hp Hst Hin. simpl. rewrite Hp. simpl.
    rewrite Hst, Hin. eexists. split; [reflexivity|]. simpl.
    rewrite list_lookup_insert_eq; [done|]. by eapply lookup_lt_Some.
  - intros sched s Hrun Hdone.
    eapply root_done_no_None; eauto using inv_reachable.
Qed.

Lemma none_id_blocks_dispatch_witness :
  0 < 2
  ∧ Forall is_Some [Some 5].
Proof.
  split; [lia|].
  destruct (none_id_blocks_dispatch 2 0 [Some 5] ltac:(lia))
    as (_ & _ & _ & Hids).
  apply (Hids [Request 1; Serve 0; Receive 1; Request 1; Serve 0; Receive 1]
              (mkState [] 0 None [] [(1, Some 5); (1, None)]
                 [mkProc NotWorker [] []; mkProc Stopped [] [Some 5; None]])).
  - reflexivity.
  - split; reflexivity.
Defined.

(** *** What holds at every moment of a round *)

(** At every moment of every round, whatever the ids (a [None] among
    them included) and whatever the order of the messages: what ROOT has
    sent so far, followed by what it has still to send, is the id
    sequence followed by [WORLD_SIZE - 1] sentinels, and no sentinel
    goes out while an id is left; nothing is sent to ROOT or outside the
    group; no rank has two requests in flight; a rank has received a
    prefix of what ROOT sent to it, at most one message is waiting for
    it, and none while its request is still in flight; and a rank has
    left its loop exactly when a [None] is among the items it has
    received. *)
Theorem dispatch_is_orderly_at_every_step {A} (WORLD_SIZE ROOT_RANK : nat)
    (ids : list (@item A)) (sched : list event) (s : state) :
  run (init WORLD_SIZE ROOT_RANK ids) sched = Some s →
  (sent s).*2 ++ ids_left s ++ replicate (sentinels_left s) None
  = ids ++ replicate (WORLD_SIZE - 1) None
  ∧ (ids_left s ≠ [] → sentinels_left s = WORLD_SIZE - 1)
  ∧ Forall (λ m, m.1 < WORLD_SIZE ∧ m.1 ≠ ROOT_RANK) (sent s)
  ∧ NoDup (requests s)
  ∧ ∀ r p, procs s !! r = Some p →
      received p ++ inbox p = sent_to r (sent s)
      ∧ length (inbox p) ≤ 1
      ∧ (r ∈ requests s → st p = Waiting ∧ inbox p = [])
      ∧ (None ∈ received p ↔ st p = Stopped).
Proof.
  intros Hrun. pose proof (inv_reachable _ _ _ _ _ Hrun) as Hinv.
  destruct Hinv as [_ _ Hprocs Hnd _ Hlog Hsent Horder Hdests _].
  split_and!; try done.
  intros r p Hp. specialize (Hprocs r p Hp). specialize (Hlog r p Hp).
  unfold proc_ok in Hprocs.
  split_and!; [done| | |].
  - destruct (st p).
    + destruct Hprocs as (_ & -> & _). simpl. lia.
    + destruct Hprocs as (_ & -> & _). simpl. lia.
    + destruct Hprocs as [_ [_ [[-> _]|[x [-> _]]]]]; simpl; lia.
    + destruct Hprocs as (_ & -> & _). simpl. lia.
  - intros Hr. destruct (st p).
    + by destruct Hprocs as (_ & _ & _ & ?).
    + by destruct Hprocs as (_ & _ & ? & _).
    + by destruct Hprocs as [_ [_ [[-> _]|[x [_ ?]]]]].
    + by destruct Hprocs as (_ & _ & ? & _).
  - destruct (st p) eqn:Hst.
    + destruct Hprocs as (_ & _ & -> & _). split; [|done].
      by intros ?%not_elem_of_nil.
    + destruct Hprocs as (_ & _ & _ & Hall). split; [|done].
      by intros ?%not_None_in_Some.
    + destruct Hprocs as (_ & Hall & _). split; [|done].
      by intros ?%not_None_in_Some.
    + destruct Hprocs as (_ & _ & _ & ts & ->). split; [done|].
      intros _. apply elem_of_app. right. apply list_elem_of_here.
Qed.

Lemma dispatch_is_orderly_at_every_step_witness :
  (sent_to 2 [(2, Some 10); (1, Some 20)] = [Some 10])
  ∧ ∀ r p,
      [mkProc NotWorker [] []; mkProc Waiting [Some 20] [];
       mkProc Idle [] [Some 10]] !! r = Some p →
      received p ++ inbox p = sent_to r [(2, Some 10); (1, Some 20)]
      ∧ length (inbox p) ≤ 1
      ∧ (r ∈ @nil nat → st p = Waiting ∧ inbox p = [])
      ∧ (None ∈ received p ↔ st p = Stopped).
Proof.
  split; [reflexivity|].
  exact (proj2 (proj2 (proj2 (proj2
    (dispatch_is_orderly_at_every_step 3 0 [Some 10; Some 20]
       [Request 1; Request 2; Serve 1; Serve 0; Receive 2]
       (mkState [] 2 None [] [(2, Some 10); (1, Some 20)]
          [mkProc NotWorker [] []; mkProc Waiting [Some 20] [];
           mkProc Idle [] [Some 10]])
       eq_refl))))).
Defined.

(** When ROOT is the only process ([WORLD_SIZE = 1]) nothing can ever
    happen in a round, and [_dispatch] returns exactly when it was given
    no ids: with an id to hand out it blocks in its first [COMM.recv]
    for ever. *)
Theorem dispatch_alone_returns_only_without_ids {A} (ids : list (@item A))
    (sched : list event) (s : state) :
  run (init 1 0 ids) sched = Some s →
  sched = [] ∧ s = init 1 0 ids ∧ (root_done s ↔ ids = []).
Proof.
  intros Hrun.
  assert (sched = []) as ->.
  { destruct sched as [|e sched]; [done|]. exfalso.
    simpl in Hrun. destruct e as [[|r]|k|[|r]]; simpl in Hrun; done. }
  simpl in Hrun. simplify_eq. split_and!; try done.
  unfold root_done. simpl. naive_solver.
Qed.

Lemma dispatch_alone_returns_only_without_ids_witness :
  ¬ root_done (init 1 0 [Some 7]) ∧ root_done (init 1 0 (@nil (@item nat))).
Proof.
  split.
  - intros Hdone.
    by apply (dispatch_alone_returns_only_without_ids [Some 7] []
                (init 1 0 [Some 7]) eq_refl) in Hdone.
  - by apply (dispatch_alone_returns_only_without_ids [] []
                (init 1 0 []) eq_refl).
Defined.

End Dispatch.

(** ** Python exceptions and results *)

Inductive exn : Type :=
  | ValueError (msg : string)
  | KeyError (key : string)
  | NameError (name : string)
  | UnboundLocalError (name : string)
  | FileNotFoundError (path : string).

(** [UnboundLocalError] is a subclass of [NameError]. *)
Definition is_NameError (e : exn) : bool :=
  match e with
  | NameError _ | UnboundLocalError _ => true
  | _ => false
  end.

(** The value of an expression, or the exception it raises. *)
Inductive result (A : Type) : Type :=
  | Ok (a : A)
  | Raise (e : exn).

Arguments Ok {A} a.
Arguments Raise {A} e.

Definition raised {A} (r : result A) : Prop :=
  match r with
  | Ok _ => False
  | Raise _ => True
  end.

Global Instance result_ret : MRet result := λ A a, Ok a.

Global Instance result_bind : MBind result := λ A B f r,
  match r with
  | Ok a => f a
  | Raise e => Raise e
  end.

(** ** Scalars

    The arrays of the program hold float64 numbers.  The array code
    below is written once, over the operations it uses, and is run both
    with IEEE 754 binary64 arithmetic and with exact rational
    arithmetic. *)

Class Scalar (F : Type) : Type := {
  s_zero : F;
  s_one : F;
  s_add : F → F → F;
  s_sub : F → F → F;
  s_mul : F → F → F;
  s_div : F → F → F;
  s_ltb : F → F → bool;
  s_of_nat : nat → F
}.

(** [np.power(x, -1)] on a float. *)
Definition s_recip `{Scalar F} (x : F) : F := s_div s_one x.

Fixpoint float_of_nat (n : nat) : float :=
  match n with
  | O => PrimFloat.zero
  | S n' => PrimFloat.add (float_of_nat n') PrimFloat.one
  end.

Definition float64 : Scalar float := {|
  s_zero := PrimFloat.zero;
  s_one := PrimFloat.one;
  s_add := PrimFloat.add;
  s_sub := PrimFloat.sub;
  s_mul := PrimFloat.mul;
  s_div := PrimFloat.div;
  s_ltb := PrimFloat.ltb;
  s_of_nat := float_of_nat
|}.

Definition exact : Scalar Qc := {|
  s_zero := Q2Qc 0;
  s_one := Q2Qc 1;
  s_add := Qcplus;
  s_sub := Qcminus;
  s_mul := Qcmult;
  s_div := Qcdiv;
  s_ltb := λ x y, bool_decide (Qclt x y);
  s_of_nat := λ n, Qc_of_Z (Z.of_nat n)
|}.

(** ** numpy and scipy.sparse, as far as the iterator uses them *)

Module Numpy.

Section Arrays.

Context `{Scalar F}.

(** An array is the list of its elements in C order; its shape is kept
    by whoever owns it (a model's [npts]).  Two arrays of different
    sizes have different shapes; numpy would still broadcast some such
    pairs, the model raises for all of them, and no statement below is
    about such a pair. *)
Definition power_m1 (a : list F) : list F := s_recip <$> a.

Definition add (a b : list F) : result (list F) :=
  if decide (length a = length b) then Ok (zip_with s_add a b)
  else Raise (ValueError "operands could not be broadcast together").

Definition prod (shape : list nat) : nat := foldr Nat.mul 1 shape.

(** [a.reshape(shape)] *)
Definition reshape (a : list F) (shape : list nat) : result (list F) :=
  if decide (length a = prod shape) then Ok a
  else Raise (ValueError "cannot reshape array").

(** [np.stack(arrays)]: a new first axis; the arrays must be there and
    agree in shape. *)
Definition stack (arrays : list (list F)) : result (list (list F)) :=
  match arrays with
  | [] => Raise (ValueError "need at least one array to stack")
  | a :: rest =>
      if forallb (λ b, length b =? length a) rest then Ok arrays
      else Raise (ValueError "all input arrays must have the same shape")
  end.

(** [np.concatenate(arrays)] of one-dimensional arrays. *)
Definition concatenate {B} (arrays : list (list B)) : result (list B) :=
  match arrays with
  | [] => Raise (ValueError "need at least one array to concatenate")
  | _ => Ok (concat arrays)
  end.

(** The sum over the first axis, [np.add.reduce(stacked, axis=0)]: the
    running sum starts as the first row, and row after row is added to
    it. *)
Definition sum0 (stacked : list (list F)) : list F :=
  match stacked with
  | [] => []
  | a :: rest => foldl (zip_with s_add) a rest
  end.

(** [np.mean(stacked, axis=0)] *)
Definition mean0 (stacked : list (list F)) : list F :=
  (λ x, s_div x (s_of_nat (length stacked))) <$> sum0 stacked.

(** [np.var(stacked, axis=0)]: the mean of the squared deviations from
    the mean. *)
Definition var0 (stacked : list (list F)) : list F :=
  let m := mean0 stacked in
  mean0 ((λ row, (λ d, s_mul d d) <$> zip_with s_sub row m) <$> stacked).

(** What [np.mean] and [np.var] compute at one node of a stack of [R]
    realizations that all hold [v] there: [(v + ... + v) / R], and the
    mean of [R] copies of the squared deviation from it. *)
Definition mean_of_copies (R : nat) (v : F) : F :=
  s_div (foldl s_add v (replicate (R - 1) v)) (s_of_nat R).

Definition variance_of_copies (R : nat) (v : F) : F :=
  let d := s_sub v (mean_of_copies R v) in
  mean_of_copies R (s_mul d d).

(** A sparse matrix in coordinate format. *)
Record coo : Type := mkCoo {
  coo_nrows : nat;
  coo_ncols : nat;
  coo_data : list F;
  coo_row : list nat;
  coo_col : list nat
}.

(** [scipy.sparse.coo_matrix((data, (row, col)), shape=(m, n))] *)
Definition coo_matrix (data : list F) (row col : list nat) (shape : nat * nat) :
    result coo :=
  if negb ((length row =? length data) && (length col =? length data)) then
    Raise (ValueError "row, column, and data array must all be the same length")
  else if negb (forallb (λ i, i <? shape.1) row) then
    Raise (ValueError "row index exceeds matrix dimensions")
  else if negb (forallb (λ j, j <? shape.2) col) then
    Raise (ValueError "column index exceeds matrix dimensions")
  else Ok (mkCoo shape.1 shape.2 data row col).

(** The stored entries, as (row, column, value). *)
Definition coo_entries (m : coo) : list (nat * nat * F) :=
  zip (zip (coo_row m) (coo_col m)) (coo_data m).

(** Entry [i] of [m * x]. *)
Definition coo_row_dot (m : coo) (x : list F) (i : nat) : F :=
  foldl (λ acc e,
           if decide (e.1.1 = i)
           then s_add acc (s_mul e.2 (default s_zero (x !! e.1.2)))
           else acc)
        s_zero (coo_entries m).

(** [m * x] for a one-dimensional [x]. *)
Definition coo_matvec (m : coo) (x : list F) : result (list F) :=
  if decide (length x = coo_ncols m)
  then Ok (coo_row_dot m x <$> seq 0 (coo_nrows m))
  else Raise (ValueError "dimension mismatch").

End Arrays.

Arguments coo : clear implicits.

(** *** Sums, means and variances of a stack of equal rows *)

Section EqualRows.

Context {B : Type}.

Lemma zip_with_fst_same (acc V : list B) :
  length acc = length V → zip_with (λ a _, a) acc V = acc.
Proof.
  revert V. induction acc as [|a acc IH]; intros [|v V] Hlen;
    simplify_eq/=; f_equal; auto.
Qed.

Lemma zip_with_zip_with_r (f g : B → B → B) (acc V : list B) :
  zip_with g (zip_with f acc V) V = zip_with (λ a v, g (f a v) v) acc V.
Proof.
  revert V. induction acc as [|a acc IH]; intros [|v V]; simpl; f_equal; auto.
Qed.

Lemma foldl_zip_with_replicate (f : B → B → B) k : ∀ acc V,
  length acc = length V →
  foldl (zip_with f) acc (replicate k V)
  = zip_with (λ a v, foldl f a (replicate k v)) acc V.
Proof.
  induction k as [|k IH]; intros acc V Hlen.
  - simpl. by rewrite zip_with_fst_same.
  - rewrite replicate_S. simpl. rewrite IH.
    + by rewrite zip_with_zip_with_r.
    + rewrite length_zip_with. lia.
Qed.

Lemma zip_with_replicate_const (f : B → B → B) (z : B) (V : list B) :
  zip_with f (replicate (length V) z) V = f z <$> V.
Proof. induction V as [|v V IH]; simpl; f_equal; auto. Qed.

End EqualRows.


Lemma zip_with_diag {B C} (f : B → B → C) (V : list B) :
  zip_with f V V = (λ v, f v v) <$> V.
Proof. induction V as [|v V IH]; simpl; f_equal; auto. Qed.

Lemma sum0_replicate `{Scalar F} k (V : list F) :
  sum0 (replicate (S k) V) = (λ v, foldl s_add v (replicate k v)) <$> V.
Proof.
  rewrite replicate_S. cbn [sum0].
  rewrite foldl_zip_with_replicate by done.
  apply (zip_with_diag (λ a v, foldl s_add a (replicate k v))).
Qed.

Lemma mean0_replicate `{Scalar F} k (V : list F) :
  mean0 (replicate (S k) V) = mean_of_copies (S k) <$> V.
Proof.
  unfold mean0. rewrite sum0_replicate, length_replicate, <-list_fmap_compose.
  apply list_fmap_ext. intros _ v _. unfold mean_of_copies. simpl.
  by rewrite Nat.sub_0_r.
Qed.


Section Exact.

Local Open Scope Qc_scope.

Lemma Qc_of_S_nonzero (k : nat) : Qc_of_Z (Z.of_nat (S k)) ≠ 0.
Proof.
  intros Heq. apply (f_equal (λ q, Qnum (this q))) in Heq.
  cbn [Qc_of_Z this inject_Z Qnum] in Heq.
  change (Qnum (Q2Qc 0)) with 0%Z in Heq. lia.
Qed.

Lemma Qc_of_S (k : nat) :
  Qc_of_Z (Z.of_nat (S k)) = Qc_of_Z (Z.of_nat k) + 1.
Proof.
  apply Qc_is_canon. cbn [Qc_of_Z this Qcplus Q2Qc].
  rewrite Qred_correct. unfold Qeq, inject_Z.
  cbn [Qnum Qden Qplus Qmult this Q2Qc Qred].
  change (Qred 1) with (1 # 1)%Q. cbn [Qnum Qden]. lia.
Qed.

Lemma exact_fold_add k : ∀ a v : Qc,
  foldl Qcplus a (replicate k v) = a + Qc_of_Z (Z.of_nat k) * v.
Proof.
  induction k as [|k IH]; intros a v.
  - assert (Qc_of_Z (Z.of_nat 0) = 0) as -> by (apply Qc_is_canon; reflexivity).
    change (replicate 0 v) with (@nil Qc). simpl. ring.
  - rewrite replicate_S. simpl foldl. rewrite IH, Qc_of_S. ring.
Qed.

Lemma exact_mean_of_copies (k : nat) (v : Qc) :
  mean_of_copies (H := exact) (S k) v = v.
Proof.
  unfold mean_of_copies. cbn [s_div s_add s_of_nat exact].
  replace (S k - 1)%nat with k by lia.
  rewrite exact_fold_add, Qc_of_S. field.
  rewrite <-Qc_of_S. apply Qc_of_S_nonzero.
Qed.

Lemma exact_variance_of_copies (k : nat) (v : Qc) :
  variance_of_copies (H := exact) (S k) v = 0.
Proof.
  unfold variance_of_copies. cbv zeta.
  rewrite !exact_mean_of_copies. cbn [s_sub s_mul exact]. ring.
Qed.

End Exact.

End Numpy.

(** ** The inversion iterator on the ROOT rank *)

Module Iterator.

Import Numpy.

Section Root.

Context `{Scalar F}.

(** A velocity model ([pykonal] scalar field): grid geometry and the
    values at the nodes, of shape [npts]. *)
Record model : Type := mkModel {
  min_coords : list F;
  node_intervals : list F;
  npts : list nat;
  values : list F
}.

(** A row of the arrivals table. *)
Record arrival : Type := mkArrival {
  network : string;
  station : string;
  phase : string;
  time : F;
  residual : F;
  event_id : Z
}.

(** The entries of [cfg["algorithm"]] and [cfg["workspace"]] that the
    code below reads. *)
Record config : Type := mkConfig {
  nvoronoi : nat;
  narrival : nat;
  outlier_removal_factor : F;
  damp : F;
  atol : F;
  btol : F;
  conlim : F;
  maxiter : nat;
  traveltime_dir : string;
  output_dir : string
}.

Definition point : Type := F * F * F.

(** The attributes of [InversionIterator] that the code below touches,
    on ROOT once the configuration, the data and the models are loaded.
    The two realization stacks start as [None] and are replaced by an
    empty list when first read. *)
Record iterator {E : Type} : Type := mkIterator {
  cfg : config;
  arrivals : list arrival;
  events : E;
  iiter : nat;
  projection_matrix : coo F;
  pwave_model : model;
  swave_model : model;
  _pwave_realization_stack : option (list (list F));
  _swave_realization_stack : option (list (list F));
  residuals : list F;
  sensitivity_matrix : coo F;
  sampled_arrivals : list arrival;
  voronoi_cells : list point
}.

Arguments iterator : clear implicits.
Arguments mkIterator {E}.

(** What a method does to the world outside the object. *)
Inductive npz_value : Type :=
  | NpzStack (a : list (list F))
  | NpzArray (a : list F)
  | NpzInts (a : list nat).

Inductive effect {E : Type} : Type :=
  | LogInfo (msg : string)
  | CallLsmr
  | Makedirs (path : string)
  | ModelSavez (path : string) (m : model)
  | NpSavez (path : string) (entries : list (string * npz_value))
  | EventsToHdf (path key : string) (tbl : E)
  | ArrivalsToHdf (path key : string) (tbl : list arrival).

Arguments effect : clear implicits.

(** A method call: the object afterwards, what was done outside, and the
    value returned or the exception raised. *)
Record outcome {E A : Type} : Type := mkOutcome {
  final : iterator E;
  effects : list (effect E);
  value : result A
}.

Arguments outcome : clear implicits.
Arguments mkOutcome {E A}.

Definition method (E A : Type) : Type := iterator E → outcome E A.

Section Methods.

Context {E : Type}.

Definition ret {A} (a : A) : method E A := λ it, mkOutcome it [] (Ok a).

Definition bind {A B} (m : method E A) (k : A → method E B) : method E B :=
  λ it,
    let o := m it in
    match value o with
    | Ok a =>
        let o' := k a (final o) in
        mkOutcome (final o') (effects o ++ effects o') (value o')
    | Raise e => mkOutcome (final o) (effects o) (Raise e)
    end.

Definition raise {A} (e : exn) : method E A := λ it, mkOutcome it [] (Raise e).

Definition lift {A} (r : result A) : method E A := λ it, mkOutcome it [] r.

Definition emit (e : effect E) : method E unit := λ it, mkOutcome it [e] (Ok ()).

Definition get {A} (f : iterator E → A) : method E A :=
  λ it, mkOutcome it [] (Ok (f it)).

Definition modify (f : iterator E → iterator E) : method E unit :=
  λ it, mkOutcome (f it) [] (Ok ()).

Global Instance method_ret : MRet (method E) := @ret.

Global Instance method_bind : MBind (method E) := λ A B k m, bind m k.

(** Running a method after some effects. *)
Definition prepend {A} (effs : list (effect E)) (o : outcome E A) :
    outcome E A :=
  mkOutcome (final o) (effs ++ effects o) (value o).

Lemma prepend_nil {A} (o : outcome E A) : prepend [] o = o.
Proof. by destruct o. Qed.

Lemma prepend_prepend {A} effs effs' (o : outcome E A) :
  prepend effs (prepend effs' o) = prepend (effs ++ effs') o.
Proof. unfold prepend. simpl. by rewrite app_assoc. Qed.

Lemma bind_known {A B} (m : method E A) (k : A → method E B) it it' effs a :
  m it = mkOutcome it' effs (Ok a) →
  (m ≫= k) it = prepend effs (k a it').
Proof. intros Hm. unfold mbind, method_bind, bind. by rewrite Hm. Qed.

Lemma bind_raises {A B} (m : method E A) (k : A → method E B) it it' effs e :
  m it = mkOutcome it' effs (Raise e) →
  (m ≫= k) it = mkOutcome it' effs (Raise e).
Proof. intros Hm. unfold mbind, method_bind, bind. by rewrite Hm. Qed.

Lemma bind_get {A B} (f : iterator E → A) (k : A → method E B) it :
  (get f ≫= k) it = k (f it) it.
Proof. rewrite (bind_known _ _ it it [] (f it)) by done. apply prepend_nil. Qed.

Lemma bind_emit {B} (e : effect E) (k : unit → method E B) it :
  (emit e ≫= k) it = prepend [e] (k () it).
Proof. by apply bind_known. Qed.

Lemma bind_modify {B} (f : iterator E → iterator E) (k : unit → method E B) it :
  (modify f ≫= k) it = k () (f it).
Proof. rewrite (bind_known _ _ it (f it) [] ()) by done. apply prepend_nil. Qed.

Lemma bind_lift_ok {A B} (a : A) (k : A → method E B) it :
  (lift (Ok a) ≫= k) it = k a it.
Proof. rewrite (bind_known _ _ it it [] a) by done. apply prepend_nil. Qed.

Lemma bind_ret {A B} (a : A) (k : A → method E B) it :
  (mret a ≫= k) it = k a it.
Proof. rewrite (bind_known _ _ it it [] a) by done. apply prepend_nil. Qed.

(** *** Attribute assignment *)

Definition set_values (v : list F) (m : model) : model :=
  mkModel (min_coords m) (node_intervals m) (npts m) v.

Definition set_events (v : E) (it : iterator E) : iterator E :=
  mkIterator (cfg it) (arrivals it) v (iiter it) (projection_matrix it)
    (pwave_model it) (swave_model it) (_pwave_realization_stack it)
    (_swave_realization_stack it) (residuals it) (sensitivity_matrix it)
    (sampled_arrivals it) (voronoi_cells it).

Definition set_arrivals (v : list arrival) (it : iterator E) : iterator E :=
  mkIterator (cfg it) v (events it) (iiter it) (projection_matrix it)
    (pwave_model it) (swave_model it) (_pwave_realization_stack it)
    (_swave_realization_stack it) (residuals it) (sensitivity_matrix it)
    (sampled_arrivals it) (voronoi_cells it).

Definition set_projection_matrix (v : coo F) (it : iterator E) : iterator E :=
  mkIterator (cfg it) (arrivals it) (events it) (iiter it) v
    (pwave_model it) (swave_model it) (_pwave_realization_stack it)
    (_swave_realization_stack it) (residuals it) (sensitivity_matrix it)
    (sampled_arrivals it) (voronoi_cells it).

Definition set_pwave_model (v : model) (it : iterator E) : iterator E :=
  mkIterator (cfg it) (arrivals it) (events it) (iiter it) (projection_matrix it)
    v (swave_model it) (_pwave_realization_stack it)
    (_swave_realization_stack it) (residuals it) (sensitivity_matrix it)
    (sampled_arrivals it) (voronoi_cells it).

Definition set_swave_model (v : model) (it : iterator E) : iterator E :=
  mkIterator (cfg it) (arrivals it) (events it) (iiter it) (projection_matrix it)
    (pwave_model it) v (_pwave_realization_stack it)
    (_swave_realization_stack it) (residuals it) (sensitivity_matrix it)
    (sampled_arrivals it) (voronoi_cells it).

Definition set_pwave_realization_stack (v : option (list (list F)))
    (it : iterator E) : iterator E :=
  mkIterator (cfg it) (arrivals it) (events it) (iiter it) (projection_matrix it)
    (pwave_model it) (swave_model it) v
    (_swave_realization_stack it) (residuals it) (sensitivity_matrix it)
    (sampled_arrivals it) (voronoi_cells it).

Definition set_swave_realization_stack (v : option (list (list F)))
    (it : iterator E) : iterator E :=
  mkIterator (cfg it) (arrivals it) (events it) (iiter it) (projection_matrix it)
    (pwave_model it) (swave_model it) (_pwave_realization_stack it)
    v (residuals it) (sensitivity_matrix it)
    (sampled_arrivals it) (voronoi_cells it).

Definition set_residuals (v : list F) (it : iterator E) : iterator E :=
  mkIterator (cfg it) (arrivals it) (events it) (iiter it) (projection_matrix it)
    (pwave_model it) (swave_model it) (_pwave_realization_stack it)
    (_swave_realization_stack it) v (sensitivity_matrix it)
    (sampled_arrivals it) (voronoi_cells it).

Definition set_sensitivity_matrix (v : coo F) (it : iterator E) : iterator E :=
  mkIterator (cfg it) (arrivals it) (events it) (iiter it) (projection_matrix it)
    (pwave_model it) (swave_model it) (_pwave_realization_stack it)
    (_swave_realization_stack it) (residuals it) v
    (sampled_arrivals it) (voronoi_cells it).

Definition set_sampled_arrivals (v : list arrival) (it : iterator E) :
    iterator E :=
  mkIterator (cfg it) (arrivals it) (events it) (iiter it) (projection_matrix it)
    (pwave_model it) (swave_model it) (_pwave_realization_stack it)
    (_swave_realization_stack it) (residuals it) (sensitivity_matrix it)
    v (voronoi_cells it).

Definition set_voronoi_cells (v : list point) (it : iterator E) : iterator E :=
  mkIterator (cfg it) (arrivals it) (events it) (iiter it) (projection_matrix it)
    (pwave_model it) (swave_model it) (_pwave_realization_stack it)
    (_swave_realization_stack it) (residuals it) (sensitivity_matrix it)
    (sampled_arrivals it) v.

(** *** The realization stacks and the variances *)

(** [@property pwave_realization_stack]: [None] becomes [[]] on first
    read. *)
Definition pwave_realization_stack : method E (list (list F)) :=
  λ it,
    match _pwave_realization_stack it with
    | None => mkOutcome (set_pwave_realization_stack (Some []) it) [] (Ok [])
    | Some l => mkOutcome it [] (Ok l)
    end.

Definition swave_realization_stack : method E (list (list F)) :=
  λ it,
    match _swave_realization_stack it with
    | None => mkOutcome (set_swave_realization_stack (Some []) it) [] (Ok [])
    | Some l => mkOutcome it [] (Ok l)
    end.

(** [@property pwave_variance] *)
Definition pwave_variance : method E (list F) :=
  l ← pwave_realization_stack;
  stacked ← lift (stack l);
  mret (var0 stacked).

Definition swave_variance : method E (list F) :=
  l ← swave_realization_stack;
  stacked ← lift (stack l);
  mret (var0 stacked).

(** *** [_compute_model_update] *)

(** [scipy.sparse.linalg.lsmr(A, b, damp, atol, btol, conlim, maxiter)],
    first component of the result. *)
Variable lsmr : coo F → list F → F → F → F → F → nat → list F.

(** The body of [_compute_model_update]; its decorator
    [root_only(RANK)] lets it run on ROOT. *)
Definition _compute_model_update (phase : string) : method E bool :=
  emit (LogInfo ("Computing " +:+ phase +:+ "-wave model update"));;
  model ← (if decide (phase = "P") then get pwave_model
           else if decide (phase = "S") then get swave_model
           else raise (ValueError
                         ("Unrecognized phase (" +:+ phase +:+ ") supplied.")));
  c ← get cfg;
  A ← get sensitivity_matrix;
  b ← get residuals;
  emit CallLsmr;;
  let x := lsmr A b (damp c) (atol c) (btol c) (conlim c) (maxiter c) in
  P ← get projection_matrix;
  delta_slowness ← lift (coo_matvec P x);
  delta_slowness ← lift (reshape delta_slowness (npts model));
  slowness ← lift (add (power_m1 (values model)) delta_slowness);
  let velocity := power_m1 slowness in
  (if decide (phase = "P") then
     l ← pwave_realization_stack;
     modify (set_pwave_realization_stack (Some (l ++ [velocity])))
   else
     l ← swave_realization_stack;
     modify (set_swave_realization_stack (Some (l ++ [velocity]))));;
  mret true.

(** *** [update_models], on ROOT *)

(** [synchronize] broadcasts ROOT's value and stores what it receives:
    on ROOT the attributes keep their values. *)
Definition update_models : method E bool :=
  l ← pwave_realization_stack;
  stacked ← lift (stack l);
  m ← get pwave_model;
  modify (set_pwave_model (set_values (mean0 stacked) m));;
  l ← swave_realization_stack;
  stacked ← lift (stack l);
  m ← get swave_model;
  modify (set_swave_model (set_values (mean0 stacked) m));;
  mret true.

(** *** Properties of [_compute_model_update] *)

(** The model the phase label selects. *)
Definition model_of (phase : string) (it : iterator E) : model :=
  if decide (phase = "P") then pwave_model it else swave_model it.

(** The LSMR solution for the current sensitivity matrix and residuals. *)
Definition lsmr_solution (it : iterator E) : list F :=
  lsmr (sensitivity_matrix it) (residuals it) (damp (cfg it)) (atol (cfg it))
    (btol (cfg it)) (conlim (cfg it)) (maxiter (cfg it)).

(** [projection_matrix * x], entry by entry. *)
Definition projected (it : iterator E) (x : list F) : list F :=
  coo_row_dot (projection_matrix it) x
  <$> seq 0 (coo_nrows (projection_matrix it)).

(** The shapes fit: the solution has one entry per column of the
    projection matrix, the projection matrix one row per grid node, and
    the model's values have the model's shape.  [_update_projection_matrix]
    and [_compute_sensitivity_matrix] build both matrices with [nvoronoi]
    columns and the projection matrix with one row per node of the
    grid. *)
Definition update_ready (phase : string) (it : iterator E) : Prop :=
  length (lsmr_solution it) = coo_ncols (projection_matrix it)
  ∧ coo_nrows (projection_matrix it) = prod (npts (model_of phase it))
  ∧ length (values (model_of phase it)) = prod (npts (model_of phase it)).

(** What the method appends. *)
Definition updated_velocity (phase : string) (it : iterator E) : list F :=
  power_m1 (zip_with s_add (power_m1 (values (model_of phase it)))
              (projected it (lsmr_solution it))).

Definition append_realization (phase : string) (v : list F)
    (it : iterator E) : iterator E :=
  if decide (phase = "P") then
    set_pwave_realization_stack
      (Some (default [] (_pwave_realization_stack it) ++ [v])) it
  else
    set_swave_realization_stack
      (Some (default [] (_swave_realization_stack it) ++ [v])) it.

Lemma updated_velocity_lookup phase it n v d :
  values (model_of phase it) !! n = Some v →
  projected it (lsmr_solution it) !! n = Some d →
  updated_velocity phase it !! n = Some (s_recip (s_add (s_recip v) d)).
Proof.
  intros Hv Hd. unfold updated_velocity, power_m1.
  rewrite list_lookup_fmap, lookup_zip_with, list_lookup_fmap, Hv. simpl.
  by rewrite Hd.
Qed.

Lemma length_projected it x :
  length (projected it x) = coo_nrows (projection_matrix it).
Proof. unfold projected. by rewrite length_fmap, length_seq. Qed.

Lemma model_update_known phase it :
  phase = "P" ∨ phase = "S" →
  update_ready phase it →
  _compute_model_update phase it
  = mkOutcome (append_realization phase (updated_velocity phase it) it)
      [LogInfo ("Computing " +:+ phase +:+ "-wave model update"); CallLsmr]
      (Ok true).
Proof.
  intros Hphase (Hx & Hrows & Hvals).
  assert (coo_matvec (projection_matrix it) (lsmr_solution it)
          = Ok (projected it (lsmr_solution it))) as Hmv.
  { unfold coo_matvec. by rewrite decide_True. }
  assert (reshape (projected it (lsmr_solution it)) (npts (model_of phase it))
          = Ok (projected it (lsmr_solution it))) as Hre.
  { unfold reshape. rewrite decide_True; [done|]. by rewrite length_projected. }
  assert (add (power_m1 (values (model_of phase it)))
              (projected it (lsmr_solution it))
          = Ok (zip_with s_add (power_m1 (values (model_of phase it)))
                  (projected it (lsmr_solution it)))) as Hadd.
  { unfold add. rewrite decide_True; [done|].
    unfold power_m1. rewrite length_fmap, length_projected. congruence. }
  unfold updated_velocity, append_realization.
  unfold _compute_model_update.
  cbv [mbind method_bind bind get emit lift modify mret method_ret ret
       final effects value].
  unfold model_of, lsmr_solution in *.
  destruct Hphase as [-> | ->].
  - destruct (decide ("P" = "P")) as [_|?]; [|done].
    cbv [final effects value]. rewrite Hmv. cbv [final effects value].
    rewrite Hre. cbv [final effects value]. rewrite Hadd.
    unfold pwave_realization_stack.
    destruct (_pwave_realization_stack it); reflexivity.
  - destruct (decide ("S" = "P")) as [?|_]; [done|].
    destruct (decide ("S" = "S")) as [_|?]; [|done].
    cbv [final effects value]. rewrite Hmv. cbv [final effects value].
    rewrite Hre. cbv [final effects value]. rewrite Hadd.
    unfold swave_realization_stack.
    destruct (_swave_realization_stack it); reflexivity.
Qed.

Lemma model_update_unrecognized phase it :
  phase ≠ "P" → phase ≠ "S" →
  _compute_model_update phase it
  = mkOutcome it
      [LogInfo ("Computing " +:+ phase +:+ "-wave model update")]
      (Raise (ValueError ("Unrecognized phase (" +:+ phase +:+ ") supplied."))).
Proof.
  intros HP HS. unfold _compute_model_update.
  cbv [mbind method_bind bind get emit lift modify mret method_ret ret raise
       final effects value].
  destruct (decide (phase = "P")) as [?|_]; [done|].
  destruct (decide (phase = "S")) as [?|_]; [done|].
  reflexivity.
Qed.

(** C2.  On ROOT, for phase "P" or "S" and shapes that fit,
    [_compute_model_update] returns [True] having appended to that
    phase's realization stack the array
    [1 / (1 / model.values + reshape(projection_matrix * x))], [x] the
    LSMR solution, reciprocals and sum taken element by element; nothing
    else of the object changes: both models, and so the values of the
    live model, and the other phase's stack are as before. *)
Theorem model_update_appends_velocity phase it :
  phase = "P" ∨ phase = "S" →
  update_ready phase it →
  let o := _compute_model_update phase it in
  let x := lsmr_solution it in
  let velocity :=
    power_m1 (zip_with s_add (power_m1 (values (model_of phase it)))
                (projected it x)) in
  value o = Ok true
  ∧ final o = append_realization phase velocity it
  ∧ (phase = "P" →
       _pwave_realization_stack (final o)
       = Some (default [] (_pwave_realization_stack it) ++ [velocity])
       ∧ _swave_realization_stack (final o) = _swave_realization_stack it)
  ∧ (phase = "S" →
       _swave_realization_stack (final o)
       = Some (default [] (_swave_realization_stack it) ++ [velocity])
       ∧ _pwave_realization_stack (final o) = _pwave_realization_stack it)
  ∧ pwave_model (final o) = pwave_model it
  ∧ swave_model (final o) = swave_model it
  ∧ length velocity = length (values (model_of phase it))
  ∧ ∀ n v d,
      values (model_of phase it) !! n = Some v →
      projected it x !! n = Some d →
      velocity !! n = Some (s_recip (s_add (s_recip v) d)).
Proof.
  intros Hphase Hready. cbv zeta.
  rewrite (model_update_known phase it Hphase Hready).
  cbv [final effects value]. fold (updated_velocity phase it).
  split_and!.
  - done.
  - done.
  - intros ->. unfold append_realization.
    destruct (decide ("P" = "P")) as [_|?]; [|done]. done.
  - intros ->. unfold append_realization.
    destruct (decide ("S" = "P")) as [?|_]; [done|]. done.
  - unfold append_realization. by destruct (decide (phase = "P")).
  - unfold append_realization. by destruct (decide (phase = "P")).
  - unfold updated_velocity, power_m1.
    rewrite length_fmap, length_zip_with, length_fmap, length_projected.
    destruct Hready as (_ & -> & ->). lia.
  - apply updated_velocity_lookup.
Qed.

(** A recognized phase whose shapes do not fit: scipy or numpy raise,
    after the solver has been called, and the object is as before. *)
Lemma model_update_misshapen phase it :
  phase = "P" ∨ phase = "S" →
  ¬ update_ready phase it →
  ∃ msg,
    _compute_model_update phase it
    = mkOutcome it
        [LogInfo ("Computing " +:+ phase +:+ "-wave model update"); CallLsmr]
        (Raise (ValueError msg))
    ∧ (length (lsmr_solution it) ≠ coo_ncols (projection_matrix it) →
       msg = "dimension mismatch")
    ∧ (length (lsmr_solution it) = coo_ncols (projection_matrix it) →
       coo_nrows (projection_matrix it) ≠ prod (npts (model_of phase it)) →
       msg = "cannot reshape array").
Proof.
  intros Hphase Hnot.
  assert (∃ msg,
    (A ← get sensitivity_matrix;
     b ← get residuals;
     emit CallLsmr;;
     P ← get projection_matrix;
     delta_slowness ← lift (coo_matvec P
                              (lsmr A b (damp (cfg it)) (atol (cfg it))
                                 (btol (cfg it)) (conlim (cfg it))
                                 (maxiter (cfg it))));
     delta_slowness ← lift (reshape delta_slowness (npts (model_of phase it)));
     lift (add (power_m1 (values (model_of phase it))) delta_slowness)) it
    = mkOutcome it [CallLsmr] (Raise (ValueError msg))
    ∧ (length (lsmr_solution it) ≠ coo_ncols (projection_matrix it) →
       msg = "dimension mismatch")
    ∧ (length (lsmr_solution it) = coo_ncols (projection_matrix it) →
       coo_nrows (projection_matrix it) ≠ prod (npts (model_of phase it)) →
       msg = "cannot reshape array")) as (msg & Hrun & Hmsg).
  { rewrite !bind_get, bind_emit, bind_get.
    fold (lsmr_solution it). unfold coo_matvec.
    destruct (decide (length (lsmr_solution it)
                      = coo_ncols (projection_matrix it))) as [Hx|Hx].
    - rewrite bind_lift_ok. fold (projected it (lsmr_solution it)).
      unfold reshape. rewrite length_projected.
      destruct (decide (coo_nrows (projection_matrix it)
                        = prod (npts (model_of phase it)))) as [Hrows|Hrows].
      + rewrite bind_lift_ok. unfold add, power_m1.
        rewrite length_fmap, length_projected.
        destruct (decide (length (values (model_of phase it))
                          = coo_nrows (projection_matrix it))) as [Hvals|Hvals].
        * destruct Hnot. split_and!; congruence.
        * eexists. split; [reflexivity|]. split; [done|]. intros _ ?. done.
      + erewrite bind_raises by reflexivity.
        eexists. split; [reflexivity|]. split; done.
    - erewrite bind_raises by reflexivity.
      eexists. split; [reflexivity|]. split; done. }
  exists msg. split; [|exact Hmsg].
  unfold _compute_model_update. rewrite bind_emit.
  generalize ("Computing " +:+ phase +:+ "-wave model update"). intros line.
  destruct Hphase as [-> | ->].
  - rewrite decide_True by done. rewrite !bind_get.
    unfold model_of in Hrun. rewrite decide_True in Hrun by done.
    rewrite !bind_get, bind_emit, bind_get in Hrun.
    rewrite bind_emit, bind_get.
    destruct (coo_matvec (projection_matrix it) _) as [d|e] eqn:Hmv.
    + rewrite bind_lift_ok in Hrun. rewrite bind_lift_ok.
      destruct (reshape d (npts (pwave_model it))) as [d'|e] eqn:Hre.
      * rewrite bind_lift_ok in Hrun. rewrite bind_lift_ok.
        injection Hrun as Hrun. rewrite Hrun.
        erewrite bind_raises by reflexivity. reflexivity.
      * erewrite bind_raises in Hrun by reflexivity.
        injection Hrun as ->.
        erewrite bind_raises by reflexivity. reflexivity.
    + erewrite bind_raises in Hrun by reflexivity.
      injection Hrun as ->.
      erewrite bind_raises by reflexivity. reflexivity.
  - rewrite decide_False by done. rewrite decide_True by done. rewrite !bind_get.
    unfold model_of in Hrun. rewrite decide_False in Hrun by done.
    rewrite !bind_get, bind_emit, bind_get in Hrun.
    rewrite bind_emit, bind_get.
    destruct (coo_matvec (projection_matrix it) _) as [d|e] eqn:Hmv.
    + rewrite bind_lift_ok in Hrun. rewrite bind_lift_ok.
      destruct (reshape d (npts (swave_model it))) as [d'|e] eqn:Hre.
      * rewrite bind_lift_ok in Hrun. rewrite bind_lift_ok.
        injection Hrun as Hrun. rewrite Hrun.
        erewrite bind_raises by reflexivity. reflexivity.
      * erewrite bind_raises in Hrun by reflexivity.
        injection Hrun as ->.
        erewrite bind_raises by reflexivity. reflexivity.
    + erewrite bind_raises in Hrun by reflexivity.
      injection Hrun as ->.
      erewrite bind_raises by reflexivity. reflexivity.
Qed.

(** C8 (as amended).  For a phase label that is neither "P" nor "S",
    [_compute_model_update] raises [ValueError] right after the log
    line: the solver is not called and the object, so both realization
    stacks and both models, is as before.  For "P" and "S" it calls the
    solver and then returns [True] when the shapes fit, and raises
    [ValueError] too when they do not: "dimension mismatch" when the
    solution does not have one entry per column of the projection
    matrix, a reshape error when the projection matrix does not have one
    row per grid node.  For a model whose values have the shape of its
    grid these are the only cases in which it raises, and whenever it
    raises the object is as before.  The entries of the configuration
    read at lines 205 to 209 are taken to be there, and the solver to
    return. *)
Theorem model_update_raises_when_unrecognized_or_misshapen phase it :
  let o := _compute_model_update phase it in
  let x := lsmr_solution it in
  let P := projection_matrix it in
  let grid := npts (model_of phase it) in
  (phase ≠ "P" ∧ phase ≠ "S" →
     value o
     = Raise (ValueError ("Unrecognized phase (" +:+ phase +:+ ") supplied."))
     ∧ effects o = [LogInfo ("Computing " +:+ phase +:+ "-wave model update")]
     ∧ CallLsmr ∉ effects o)
  ∧ (phase = "P" ∨ phase = "S" →
     CallLsmr ∈ effects o
     ∧ (update_ready phase it → value o = Ok true)
     ∧ (length x ≠ coo_ncols P →
        value o = Raise (ValueError "dimension mismatch"))
     ∧ (length x = coo_ncols P → coo_nrows P ≠ prod grid →
        value o = Raise (ValueError "cannot reshape array"))
     ∧ (length (values (model_of phase it)) = prod grid →
        (raised (value o) ↔ length x ≠ coo_ncols P ∨ coo_nrows P ≠ prod grid)))
  ∧ (raised (value o) ↔
     (phase ≠ "P" ∧ phase ≠ "S") ∨ ¬ update_ready phase it)
  ∧ (raised (value o) →
     final o = it
     ∧ _pwave_realization_stack (final o) = _pwave_realization_stack it
     ∧ _swave_realization_stack (final o) = _swave_realization_stack it
     ∧ pwave_model (final o) = pwave_model it
     ∧ swave_model (final o) = swave_model it).
Proof.
  cbv zeta.
  destruct (decide (phase = "P" ∨ phase = "S")) as [Hphase|Hphase].
  - assert (¬ (phase ≠ "P" ∧ phase ≠ "S")) as Hrec by (intros [??]; tauto).
    destruct (decide (length (lsmr_solution it)
                      = coo_ncols (projection_matrix it))) as [Hx|Hx];
      [destruct (decide (coo_nrows (projection_matrix it)
                         = prod (npts (model_of phase it)))) as [Hrows|Hrows];
       [destruct (decide (length (values (model_of phase it))
                          = prod (npts (model_of phase it)))) as [Hvals|Hvals]|]|].
    + assert (update_ready phase it) as Hready by done.
      rewrite (model_update_known phase it Hphase Hready).
      cbn [value effects final raised].
      split_and!; try tauto.
      intros _. split_and!; try tauto.
      apply list_elem_of_further, list_elem_of_here.
    + assert (¬ update_ready phase it) as Hnot by (intros (_ & _ & ?); done).
      destruct (model_update_misshapen phase it Hphase Hnot) as (msg & -> & _).
      cbn [value effects final raised].
      split_and!; try tauto.
      intros _. split_and!; try tauto.
      apply list_elem_of_further, list_elem_of_here.
    + assert (¬ update_ready phase it) as Hnot by (intros (_ & ? & _); done).
      destruct (model_update_misshapen phase it Hphase Hnot)
        as (msg & -> & _ & Hmsg).
      rewrite (Hmsg Hx Hrows). cbn [value effects final raised].
      split_and!; try tauto.
      intros _. split_and!; try tauto.
      apply list_elem_of_further, list_elem_of_here.
    + assert (¬ update_ready phase it) as Hnot by (intros (? & _); done).
      destruct (model_update_misshapen phase it Hphase Hnot)
        as (msg & -> & Hmsg & _).
      rewrite (Hmsg Hx). cbn [value effects final raised].
      split_and!; try tauto.
      intros _. split_and!; try tauto.
      apply list_elem_of_further, list_elem_of_here.
  - assert (phase ≠ "P" ∧ phase ≠ "S") as [HP HS] by tauto.
    rewrite (model_update_unrecognized phase it HP HS).
    cbn [value effects final raised].
    split_and!; try tauto.
    intros _. split_and!; [done|done|].
    intros Hin%list_elem_of_singleton. discriminate.
Qed.

(** *** [update_models] and the variances on stacks that are there *)

Lemma update_models_known it lp ls sp ss :
  _pwave_realization_stack it = Some lp →
  _swave_realization_stack it = Some ls →
  stack lp = Ok sp → stack ls = Ok ss →
  update_models it
  = mkOutcome
      (set_swave_model (set_values (mean0 ss) (swave_model it))
         (set_pwave_model (set_values (mean0 sp) (pwave_model it)) it))
      [] (Ok true).
Proof.
  intros Hp Hs Hsp Hss. unfold update_models.
  assert (pwave_realization_stack it = mkOutcome it [] (Ok lp)) as Hgp.
  { unfold pwave_realization_stack. by rewrite Hp. }
  rewrite (bind_known _ _ _ _ _ _ Hgp), prepend_nil, Hsp, bind_lift_ok.
  rewrite bind_get, bind_modify.
  set (it' := set_pwave_model _ it).
  assert (swave_realization_stack it' = mkOutcome it' [] (Ok ls)) as Hgs.
  { unfold swave_realization_stack.
    change (_swave_realization_stack it') with (_swave_realization_stack it).
    by rewrite Hs. }
  rewrite (bind_known _ _ _ _ _ _ Hgs), prepend_nil, Hss, bind_lift_ok.
  rewrite bind_get, bind_modify. reflexivity.
Qed.

Lemma pwave_variance_known it lp sp :
  _pwave_realization_stack it = Some lp → stack lp = Ok sp →
  pwave_variance it = mkOutcome it [] (Ok (var0 sp)).
Proof.
  intros Hp Hsp. unfold pwave_variance.
  cbv [mbind method_bind bind get emit lift modify mret method_ret ret
       pwave_realization_stack].
  rewrite Hp. cbv [final effects value]. rewrite Hsp. reflexivity.
Qed.

Lemma swave_variance_known it ls ss :
  _swave_realization_stack it = Some ls → stack ls = Ok ss →
  swave_variance it = mkOutcome it [] (Ok (var0 ss)).
Proof.
  intros Hs Hss. unfold swave_variance.
  cbv [mbind method_bind bind get emit lift modify mret method_ret ret
       swave_realization_stack].
  rewrite Hs. cbv [final effects value]. rewrite Hss. reflexivity.
Qed.

(** *** [save] *)

(** The casts [events[column].astype(EVENT_DTYPES[column])] and
    [arrivals[column].astype(ARRIVAL_DTYPES[column])] over the columns
    named in [_constants]. *)
Variable astype_events : E → E.
Variable astype_arrivals : list arrival → list arrival.

Fixpoint ends_with_slash (s : string) : bool :=
  match s with
  | EmptyString => false
  | String c EmptyString => bool_decide (c = "/"%char)
  | String _ s' => ends_with_slash s'
  end.

(** [os.path.join(a, b)] for a relative [b]. *)
Definition path_join (a b : string) : string :=
  if decide (a = "") then b
  else if ends_with_slash a then a +:+ b
  else a +:+ "/" +:+ b.

(** [f"{n:02d}"] *)
Definition format_02d (n : nat) : string :=
  if n <? 10 then "0" +:+ pretty n else pretty n.

(** The body of [save]; its decorator [root_only(RANK)] lets it run on
    ROOT. *)
Definition save (output_dir : string) : method E bool :=
  i ← get iiter;
  emit (LogInfo ("Saving data from iteration #" +:+ pretty i));;
  emit (Makedirs output_dir);;
  let path := path_join output_dir (format_02d i) in
  (if 0 <? i then
     pm ← get pwave_model;
     emit (ModelSavez (path +:+ ".pwave_model") pm);;
     sm ← get swave_model;
     emit (ModelSavez (path +:+ ".swave_model") sm);;
     l ← pwave_realization_stack;
     pwave_stack ← lift (stack l);
     l ← pwave_realization_stack;
     swave_stack ← lift (stack l);
     pv ← pwave_variance;
     sv ← swave_variance;
     pm ← get pwave_model;
     emit (NpSavez (path +:+ ".realizations.npz")
             [("pwave_stack", NpzStack pwave_stack);
              ("pwave_variance", NpzArray pv);
              ("swave_stack", NpzStack swave_stack);
              ("swave_variance", NpzArray sv);
              ("min_coords", NpzArray (min_coords pm));
              ("node_intervals", NpzArray (node_intervals pm));
              ("npts", NpzInts (npts pm))])
   else mret ());;
  ev ← get events;
  modify (set_events (astype_events ev));;
  ar ← get arrivals;
  modify (set_arrivals (astype_arrivals ar));;
  ev ← get events;
  emit (EventsToHdf (path +:+ ".events.h5") "events" ev);;
  ar ← get arrivals;
  emit (ArrivalsToHdf (path +:+ ".events.h5") "arrivals" ar);;
  mret true.

(** The array stored under a handle of the ensemble file a call wrote. *)
Definition npz_entries (effs : list (effect E)) :
    option (list (string * npz_value)) :=
  head (omap (λ e, match e with NpSavez _ entries => Some entries | _ => None end)
          effs).

Definition npz_handle (handle : string) (effs : list (effect E)) :
    option npz_value :=
  entries ← npz_entries effs;
  found ← list_find (λ kv, kv.1 = handle) entries;
  Some found.2.2.

(** What [save] puts in the ensemble file when there is one to write:
    the array under "swave_stack" is the stack of the P-wave
    realizations. *)
Lemma save_ensemble_entries dir it lp ls sp ss :
  0 < iiter it →
  _pwave_realization_stack it = Some lp →
  _swave_realization_stack it = Some ls →
  stack lp = Ok sp → stack ls = Ok ss →
  value (save dir it) = Ok true
  ∧ npz_entries (effects (save dir it))
    = Some [("pwave_stack", NpzStack sp);
            ("pwave_variance", NpzArray (var0 sp));
            ("swave_stack", NpzStack sp);
            ("swave_variance", NpzArray (var0 ss));
            ("min_coords", NpzArray (min_coords (pwave_model it)));
            ("node_intervals", NpzArray (node_intervals (pwave_model it)));
            ("npts", NpzInts (npts (pwave_model it)))].
Proof.
  intros Hi Hp Hs Hsp Hss. apply Nat.ltb_lt in Hi.
  assert (pwave_realization_stack it = mkOutcome it [] (Ok lp)) as Hgp.
  { unfold pwave_realization_stack. by rewrite Hp. }
  unfold save. rewrite bind_get, bind_emit, bind_emit. rewrite Hi.
  generalize (path_join dir (format_02d (iiter it))). intros path.
  generalize ("Saving data from iteration #" +:+ pretty (iiter it)).
  intros msg.
  rewrite (bind_known _ _ it it
             [ModelSavez (path +:+ ".pwave_model") (pwave_model it);
              ModelSavez (path +:+ ".swave_model") (swave_model it);
              NpSavez (path +:+ ".realizations.npz")
                [("pwave_stack", NpzStack sp);
                 ("pwave_variance", NpzArray (var0 sp));
                 ("swave_stack", NpzStack sp);
                 ("swave_variance", NpzArray (var0 ss));
                 ("min_coords", NpzArray (min_coords (pwave_model it)));
                 ("node_intervals", NpzArray (node_intervals (pwave_model it)));
                 ("npts", NpzInts (npts (pwave_model it)))]] ()).
  - rewrite bind_get, bind_modify, bind_get, bind_modify, bind_get, bind_emit,
      bind_get, bind_emit.
    split; reflexivity.
  - rewrite bind_get, bind_emit, bind_get, bind_emit.
    rewrite (bind_known _ _ _ _ _ _ Hgp), Hsp, bind_lift_ok.
    rewrite (bind_known _ _ _ _ _ _ Hgp), Hsp, bind_lift_ok.
    rewrite (bind_known _ _ _ _ _ _ (pwave_variance_known it lp sp Hp Hsp)).
    rewrite (bind_known _ _ _ _ _ _ (swave_variance_known it ls ss Hs Hss)).
    rewrite bind_get. reflexivity.
Qed.

(** *** [_sample_arrivals], on ROOT *)

(** [arrivals["residual"].quantile(q=[0.25, 0.75])] (pandas). *)
Variable quantiles : list F → F * F.

(** [arrivals.sample(n=narrival)]: the rows the random generator
    picks. *)
Variable sample : nat → list arrival → list arrival.

(** [min_residual] and [max_residual]. *)
Definition tukey_fence (tukey_k : F) (res : list F) : F * F :=
  let q1 := (quantiles res).1 in
  let q3 := (quantiles res).2 in
  let iqr := s_sub q3 q1 in
  (s_sub q1 (s_mul tukey_k iqr), s_add q3 (s_mul tukey_k iqr)).

(** [arrivals[(arrivals["residual"] > min_residual)
              & (arrivals["residual"] < max_residual)]] *)
Definition remove_outliers (tukey_k : F) (arrs : list arrival) : list arrival :=
  let fence := tukey_fence tukey_k (residual <$> arrs) in
  filter (λ a, s_ltb fence.1 (residual a) && s_ltb (residual a) fence.2) arrs.

(** The rows of one phase, [arrivals.set_index("phase").sort_index()
    .loc[phase]], as a table; the order of the rows plays no part in
    what follows. *)
Definition of_phase (ph : string) (arrs : list arrival) : list arrival :=
  filter (λ a, phase a = ph) arrs.

Definition _sample_arrivals (ph : string) : method E bool :=
  c ← get cfg;
  all ← get arrivals;
  let arrs := of_phase ph all in
  (if decide (arrs = []) then raise (KeyError ph) else mret ());;
  let arrs := remove_outliers (outlier_removal_factor c) arrs in
  (if narrival c <=? length arrs then mret ()
   else raise (ValueError
          "Cannot take a larger sample than population when 'replace=False'"));;
  modify (set_sampled_arrivals (sample (narrival c) arrs));;
  mret true.

(** *** [_update_projection_matrix], on ROOT *)

(** [sph2xyz(., origin=(0, 0, 0))] on one point, and the nodes of a
    model's grid, [model.nodes.reshape(-1, 3)] (pykonal). *)
Variable sph2xyz : point → point.
Variable nodes : model → list point.

(** The squared Euclidean distance of two Cartesian points. *)
Definition dist2 (p q : point) : F :=
  let dx := s_sub p.1.1 q.1.1 in
  let dy := s_sub p.1.2 q.1.2 in
  let dz := s_sub p.2 q.2 in
  s_add (s_add (s_mul dx dx) (s_mul dy dy)) (s_mul dz dz).

(** [scipy.spatial.cKDTree(cells).query(p)], second component: the
    index of a cell nearest to [p]; here the first of them, found by
    going through the cells.  An empty tree answers its size, 0. *)
Fixpoint nearest_from (best : nat) (dbest : F) (i : nat) (cells : list point)
    (p : point) : nat :=
  match cells with
  | [] => best
  | c :: cells' =>
      if s_ltb (dist2 c p) dbest
      then nearest_from i (dist2 c p) (S i) cells' p
      else nearest_from best dbest (S i) cells' p
  end.

Definition query (cells : list point) (p : point) : nat :=
  match cells with
  | [] => 0
  | c :: cells' => nearest_from 0 (dist2 c p) 1 cells' p
  end.

Definition _update_projection_matrix : method E bool :=
  emit (LogInfo "Updating projection matrix");;
  c ← get cfg;
  cells ← get voronoi_cells;
  pm ← get pwave_model;
  let voronoi_cells := sph2xyz <$> cells in
  let nodes_xyz := sph2xyz <$> nodes pm in
  let column_ids := query voronoi_cells <$> nodes_xyz in
  let nnodes := length (nodes pm) in
  let row_ids := seq 0 nnodes in
  let values := replicate nnodes s_one in
  m ← lift (coo_matrix values row_ids column_ids (nnodes, nvoronoi c));
  modify (set_projection_matrix m);;
  mret true.

(** *** [_compute_sensitivity_matrix], the ROOT branch after [_dispatch] *)

(** What one rank hands to the four [COMM.gather] calls. *)
Record contribution : Type := mkContribution {
  c_column_idxs : list nat;
  c_nsegments : list nat;
  c_nonzero_values : list F;
  c_residuals : list F
}.

(** [list(filter(lambda x: x is not None, gathered))] *)
Definition without_none {B} (gathered : list (option B)) : list B :=
  omap id gathered.

(** [[i for i in range(len(nsegments)) for j in range(nsegments[i])]] *)
Definition expand_rows (nsegments : list nat) : list nat :=
  i ← seq 0 (length nsegments);
  j ← seq 0 (default 0 (nsegments !! i));
  [i].

(** [gathered] has one entry per rank, in rank order: [None] for ROOT,
    which passes [None] to every gather, and the arrays of each
    worker.  The [logger.debug] line is not among the recorded
    effects. *)
Definition compile_sensitivity_matrix
    (gathered : list (option contribution)) : method E bool :=
  c ← get cfg;
  let column_idxs := without_none (fmap (M := option) c_column_idxs <$> gathered) in
  let nsegments := without_none (fmap (M := option) c_nsegments <$> gathered) in
  let nonzero_values := without_none (fmap (M := option) c_nonzero_values <$> gathered) in
  let residuals := without_none (fmap (M := option) c_residuals <$> gathered) in
  column_idxs ← lift (concatenate column_idxs);
  nonzero_values ← lift (concatenate nonzero_values);
  residuals ← lift (concatenate residuals);
  nsegments ← lift (concatenate nsegments);
  let row_idxs := expand_rows nsegments in
  matrix ← lift (coo_matrix nonzero_values row_idxs column_idxs
                   (length nsegments, nvoronoi c));
  modify (set_sensitivity_matrix matrix);;
  modify (set_residuals residuals);;
  mret true.

(** *** The outlier filter *)

Lemma sample_arrivals_known ph it :
  of_phase ph (arrivals it) ≠ [] →
  narrival (cfg it)
  ≤ length (remove_outliers (outlier_removal_factor (cfg it))
              (of_phase ph (arrivals it))) →
  _sample_arrivals ph it
  = mkOutcome
      (set_sampled_arrivals
         (sample (narrival (cfg it))
            (remove_outliers (outlier_removal_factor (cfg it))
               (of_phase ph (arrivals it)))) it)
      [] (Ok true).
Proof.
  intros Hne Hn. apply Nat.leb_le in Hn. unfold _sample_arrivals.
  rewrite !bind_get. rewrite decide_False by done. rewrite bind_ret.
  rewrite Hn, bind_ret, bind_modify. reflexivity.
Qed.

(** C3 (as amended).  The outlier filter applied by [_sample_arrivals]
    before sampling keeps, in their order, exactly the arrivals of the
    selected phase whose residual lies strictly between
    [min_residual = Q1 - k*IQR] and [max_residual = Q3 + k*IQR], where
    [Q1] and [Q3] are the 0.25 and 0.75 quantiles of the phase's
    residuals, [IQR = Q3 - Q1] and [k] is the configured
    [outlier_removal_factor]; a residual equal to a fence bound is
    removed. *)
Theorem outlier_filter_keeps_open_fence (ph : string) (it : iterator E) :
  let arrs := of_phase ph (arrivals it) in
  let tukey_k := outlier_removal_factor (cfg it) in
  let q1 := (quantiles (residual <$> arrs)).1 in
  let q3 := (quantiles (residual <$> arrs)).2 in
  let iqr := s_sub q3 q1 in
  let min_residual := s_sub q1 (s_mul tukey_k iqr) in
  let max_residual := s_add q3 (s_mul tukey_k iqr) in
  let kept := remove_outliers tukey_k arrs in
  (∀ a, a ∈ arrs ↔ a ∈ arrivals it ∧ phase a = ph)
  ∧ (∀ a, a ∈ kept ↔
          a ∈ arrs
          ∧ s_ltb min_residual (residual a) = true
          ∧ s_ltb (residual a) max_residual = true)
  ∧ kept `sublist_of` arrs
  ∧ (∀ a, s_ltb (residual a) (residual a) = false →
          residual a = min_residual ∨ residual a = max_residual →
          a ∉ kept)
  ∧ (value (_sample_arrivals ph it) = Ok true →
     sampled_arrivals (final (_sample_arrivals ph it))
     = sample (narrival (cfg it)) kept).
Proof.
  cbv zeta.
  assert (∀ a,
    a ∈ remove_outliers (outlier_removal_factor (cfg it))
          (of_phase ph (arrivals it)) ↔
    a ∈ of_phase ph (arrivals it)
    ∧ s_ltb (tukey_fence (outlier_removal_factor (cfg it))
               (residual <$> of_phase ph (arrivals it))).1 (residual a) = true
    ∧ s_ltb (residual a)
        (tukey_fence (outlier_removal_factor (cfg it))
           (residual <$> of_phase ph (arrivals it))).2 = true) as Hkept.
  { intros a. unfold remove_outliers. rewrite list_elem_of_filter.
    rewrite andb_True, !Is_true_true. tauto. }
  split_and!.
  - intros a. unfold of_phase. rewrite list_elem_of_filter. tauto.
  - exact Hkept.
  - unfold remove_outliers. apply sublist_filter.
  - intros a Hirr Hbound [_ [Hlo Hhi]]%Hkept. unfold tukey_fence in Hlo, Hhi.
    simpl in Hlo, Hhi. destruct Hbound as [Hb|Hb]; rewrite <-Hb in *; congruence.
  - intros Hok.
    destruct (decide (of_phase ph (arrivals it) = [])) as [Hnil|Hne].
    { unfold _sample_arrivals in Hok. rewrite !bind_get in Hok.
      rewrite decide_True in Hok by done.
      erewrite bind_raises in Hok by reflexivity. discriminate. }
    destruct (decide (narrival (cfg it)
                      ≤ length (remove_outliers (outlier_removal_factor (cfg it))
                                  (of_phase ph (arrivals it))))) as [Hn|Hn].
    + by rewrite sample_arrivals_known.
    + unfold _sample_arrivals in Hok. rewrite !bind_get in Hok.
      rewrite decide_False, bind_ret in Hok by done.
      apply Nat.leb_nle in Hn. rewrite Hn in Hok.
      erewrite bind_raises in Hok by reflexivity. discriminate.
Qed.

End Methods.

End Root.

Arguments model : clear implicits.
Arguments arrival : clear implicits.
Arguments config : clear implicits.
Arguments point : clear implicits.
Arguments iterator : clear implicits.
Arguments mkIterator {F E}.
Arguments npz_value : clear implicits.
Arguments effect : clear implicits.
Arguments outcome : clear implicits.
Arguments mkOutcome {F E A}.
Arguments method : clear implicits.
Arguments contribution : clear implicits.
Arguments mkContribution {F}.

(** ** Realization stacks that cannot be stacked *)

Section Stacks.

Context `{Scalar F} {E : Type}.

(** What reading a stack property returns: the list, [[]] for [None]. *)
Definition pwave_realizations (it : iterator F E) : list (list F) :=
  default [] (_pwave_realization_stack it).

Definition swave_realizations (it : iterator F E) : list (list F) :=
  default [] (_swave_realization_stack it).

(** The object after the property has been read. *)
Definition pwave_read (it : iterator F E) : iterator F E :=
  match _pwave_realization_stack it with
  | None => set_pwave_realization_stack (Some []) it
  | Some _ => it
  end.

Definition swave_read (it : iterator F E) : iterator F E :=
  match _swave_realization_stack it with
  | None => set_swave_realization_stack (Some []) it
  | Some _ => it
  end.

Lemma pwave_stack_read it :
  pwave_realization_stack it
  = mkOutcome (pwave_read it) [] (Ok (pwave_realizations it)).
Proof.
  unfold pwave_realization_stack, pwave_read, pwave_realizations.
  by destruct (_pwave_realization_stack it).
Qed.

Lemma swave_stack_read it :
  swave_realization_stack it
  = mkOutcome (swave_read it) [] (Ok (swave_realizations it)).
Proof.
  unfold swave_realization_stack, swave_read, swave_realizations.
  by destruct (_swave_realization_stack it).
Qed.

Lemma stack_ok (l s : list (list F)) : stack l = Ok s → s = l ∧ l ≠ [].
Proof.
  unfold stack. destruct l as [|a l]; [done|].
  destruct (forallb _ l); [|done]. by intros [= <-].
Qed.

Lemma stack_cases (l : list (list F)) :
  stack l = Ok l ∨ ∃ msg, stack l = Raise (ValueError msg).
Proof.
  unfold stack. destruct l as [|a l]; [eauto|].
  destruct (forallb _ l); eauto.
Qed.

Lemma pwave_read_stacked it :
  stack (pwave_realizations it) = Ok (pwave_realizations it) →
  pwave_read it = it
  ∧ _pwave_realization_stack it = Some (pwave_realizations it).
Proof.
  intros [_ Hne]%stack_ok. revert Hne.
  unfold pwave_read, pwave_realizations.
  by destruct (_pwave_realization_stack it).
Qed.

Lemma swave_read_stacked it :
  stack (swave_realizations it) = Ok (swave_realizations it) →
  swave_read it = it
  ∧ _swave_realization_stack it = Some (swave_realizations it).
Proof.
  intros [_ Hne]%stack_ok. revert Hne.
  unfold swave_read, swave_realizations.
  by destruct (_swave_realization_stack it).
Qed.

(** *** [update_models] *)

Lemma update_models_without_pwave it msg :
  stack (pwave_realizations it) = Raise (ValueError msg) →
  update_models it = mkOutcome (pwave_read it) [] (Raise (ValueError msg)).
Proof.
  intros Hp. unfold update_models.
  rewrite (bind_known _ _ _ _ _ _ (pwave_stack_read it)), prepend_nil, Hp.
  erewrite bind_raises by reflexivity. reflexivity.
Qed.

Lemma update_models_without_swave it msg :
  stack (pwave_realizations it) = Ok (pwave_realizations it) →
  stack (swave_realizations it) = Raise (ValueError msg) →
  update_models it
  = mkOutcome
      (swave_read
         (set_pwave_model
            (set_values (mean0 (pwave_realizations it)) (pwave_model it)) it))
      [] (Raise (ValueError msg)).
Proof.
  intros Hp Hs. unfold update_models.
  destruct (pwave_read_stacked it Hp) as [Hread _].
  rewrite (bind_known _ _ _ _ _ _ (pwave_stack_read it)), prepend_nil, Hp.
  rewrite Hread, bind_lift_ok, bind_get, bind_modify.
  rewrite (bind_known _ _ _ _ _ _ (swave_stack_read _)), prepend_nil.
  change (swave_realizations (set_pwave_model _ it))
    with (swave_realizations it).
  rewrite Hs. erewrite bind_raises by reflexivity. reflexivity.
Qed.

Lemma update_models_stacked it :
  stack (pwave_realizations it) = Ok (pwave_realizations it) →
  stack (swave_realizations it) = Ok (swave_realizations it) →
  update_models it
  = mkOutcome
      (set_swave_model
         (set_values (mean0 (swave_realizations it)) (swave_model it))
         (set_pwave_model
            (set_values (mean0 (pwave_realizations it)) (pwave_model it)) it))
      [] (Ok true).
Proof.
  intros Hp Hs.
  destruct (pwave_read_stacked it Hp) as [_ Hp'].
  destruct (swave_read_stacked it Hs) as [_ Hs'].
  exact (update_models_known it _ _ _ _ Hp' Hs' Hp Hs).
Qed.






(** [update_models] returns exactly when each phase has at least one
    realization and the realizations of a phase agree in shape.  It then
    replaces the values of the two models by the means and touches
    nothing else: the grids keep their geometry, and both stacks keep
    every realization, so that the realizations of one iteration are
    still in the mean of the next. *)
Theorem update_models_keeps_the_realizations (it : iterator F E) :
  let o := update_models it in
  (value o = Ok true ↔
   stack (pwave_realizations it) = Ok (pwave_realizations it)
   ∧ stack (swave_realizations it) = Ok (swave_realizations it))
  ∧ (value o = Ok true →
     final o
     = set_swave_model
         (set_values (mean0 (swave_realizations it)) (swave_model it))
         (set_pwave_model
            (set_values (mean0 (pwave_realizations it)) (pwave_model it)) it)
     ∧ _pwave_realization_stack (final o) = _pwave_realization_stack it
     ∧ _swave_realization_stack (final o) = _swave_realization_stack it
     ∧ npts (pwave_model (final o)) = npts (pwave_model it)
     ∧ npts (swave_model (final o)) = npts (swave_model it)
     ∧ min_coords (pwave_model (final o)) = min_coords (pwave_model it)
     ∧ node_intervals (pwave_model (final o))
       = node_intervals (pwave_model it)).
Proof.
  cbv zeta.
  destruct (stack_cases (pwave_realizations it)) as [Hp|[msg Hp]].
  - destruct (stack_cases (swave_realizations it)) as [Hs|[msg Hs]].
    + rewrite (update_models_stacked it Hp Hs). cbn [value final]. done.
    + rewrite (update_models_without_swave it msg Hp Hs). cbn [value final].
      split; [|done]. split; [done|]. intros [_ Hs']. congruence.
  - rewrite (update_models_without_pwave it msg Hp). cbn [value final].
    split; [|done]. split; [done|]. intros [Hp' _]. congruence.
Qed.

(** [update_models] is not all-or-nothing.  When the P-wave
    realizations can be stacked and the S-wave ones cannot (there is
    none, or they differ in shape), it raises [ValueError] after it has
    already replaced the P-wave model's values by the mean; the S-wave
    model is as before.  When the P-wave realizations cannot be stacked
    it raises with both models as before. *)
Theorem update_models_stops_between_the_phases (it : iterator F E) :
  let o := update_models it in
  (stack (pwave_realizations it) = Ok (pwave_realizations it) →
   stack (swave_realizations it) ≠ Ok (swave_realizations it) →
   raised (value o)
   ∧ values (pwave_model (final o)) = mean0 (pwave_realizations it)
   ∧ swave_model (final o) = swave_model it)
  ∧ (stack (pwave_realizations it) ≠ Ok (pwave_realizations it) →
     raised (value o)
     ∧ pwave_model (final o) = pwave_model it
     ∧ swave_model (final o) = swave_model it).
Proof.
  cbv zeta. split.
  - intros Hp Hs.
    destruct (stack_cases (swave_realizations it)) as [?|[msg Hs']]; [done|].
    rewrite (update_models_without_swave it msg Hp Hs'). cbn [value final].
    split_and!; [done| |].
    + unfold swave_read. by destruct (_swave_realization_stack _).
    + unfold swave_read. by destruct (_swave_realization_stack _).
  - intros Hp.
    destruct (stack_cases (pwave_realizations it)) as [?|[msg Hp']]; [done|].
    rewrite (update_models_without_pwave it msg Hp'). cbn [value final].
    unfold pwave_read. by destruct (_pwave_realization_stack it).
Qed.

(** *** [save] *)

Variable astype_events : E → E.
Variable astype_arrivals : list (arrival F) → list (arrival F).

Lemma variance_without_pwave it msg :
  stack (pwave_realizations it) = Raise (ValueError msg) →
  pwave_variance it = mkOutcome (pwave_read it) [] (Raise (ValueError msg)).
Proof.
  intros Hp. unfold pwave_variance.
  rewrite (bind_known _ _ _ _ _ _ (pwave_stack_read it)), prepend_nil, Hp.
  erewrite bind_raises by reflexivity. reflexivity.
Qed.

Lemma variance_without_swave it msg :
  stack (swave_realizations it) = Raise (ValueError msg) →
  swave_variance it = mkOutcome (swave_read it) [] (Raise (ValueError msg)).
Proof.
  intros Hs. unfold swave_variance.
  rewrite (bind_known _ _ _ _ _ _ (swave_stack_read it)), prepend_nil, Hs.
  erewrite bind_raises by reflexivity. reflexivity.
Qed.

(** The object after the casts of the two tables. *)
Definition tables_cast (it : iterator F E) : iterator F E :=
  set_arrivals (astype_arrivals (arrivals it))
    (set_events (astype_events (events it)) it).

(** What [save] writes before the ensemble file. *)
Definition model_files (dir : string) (it : iterator F E) : list (effect F E) :=
  let path := path_join dir (format_02d (iiter it)) in
  [LogInfo ("Saving data from iteration #" +:+ pretty (iiter it));
   Makedirs dir;
   ModelSavez (path +:+ ".pwave_model") (pwave_model it);
   ModelSavez (path +:+ ".swave_model") (swave_model it)].

(** The two tables, written last. *)
Definition table_files (dir : string) (it : iterator F E) : list (effect F E) :=
  let path := path_join dir (format_02d (iiter it)) in
  [EventsToHdf (path +:+ ".events.h5") "events" (astype_events (events it));
   ArrivalsToHdf (path +:+ ".events.h5") "arrivals"
     (astype_arrivals (arrivals it))].

Lemma save_first dir it :
  iiter it = 0 →
  save astype_events astype_arrivals dir it
  = mkOutcome (tables_cast it)
      ([LogInfo ("Saving data from iteration #" +:+ pretty (iiter it));
        Makedirs dir] ++ table_files dir it)
      (Ok true).
Proof.
  intros Hi. unfold save, table_files. rewrite bind_get, bind_emit, bind_emit.
  rewrite Hi. change (0 <? 0) with false. cbv iota.
  generalize (path_join dir (format_02d 0)). intros path.
  generalize ("Saving data from iteration #" +:+ pretty 0). intros msg.
  rewrite bind_ret.
  rewrite bind_get, bind_modify, bind_get, bind_modify, bind_get, bind_emit,
    bind_get, bind_emit.
  reflexivity.
Qed.

Lemma save_fails dir it :
  0 < iiter it →
  stack (pwave_realizations it) ≠ Ok (pwave_realizations it)
  ∨ stack (swave_realizations it) ≠ Ok (swave_realizations it) →
  ∃ it' msg,
    save astype_events astype_arrivals dir it
    = mkOutcome it' (model_files dir it) (Raise (ValueError msg))
    ∧ events it' = events it ∧ arrivals it' = arrivals it.
Proof.
  intros Hi%Nat.ltb_lt Hbad. unfold save, model_files.
  rewrite bind_get, bind_emit, bind_emit. rewrite Hi.
  generalize (path_join dir (format_02d (iiter it))). intros path.
  generalize ("Saving data from iteration #" +:+ pretty (iiter it)).
  intros msg.
  destruct (stack_cases (pwave_realizations it)) as [Hp|[m Hp]].
  - destruct (stack_cases (swave_realizations it)) as [Hs|[m Hs]];
      [by destruct Hbad|].
    destruct (pwave_read_stacked it Hp) as [Hread Hp'].
    exists (swave_read it), m. split.
    + rewrite (bind_raises _ _ it (swave_read it)
                 [ModelSavez (path +:+ ".pwave_model") (pwave_model it);
                  ModelSavez (path +:+ ".swave_model") (swave_model it)]
                 (ValueError m)); [reflexivity|].
      rewrite bind_get, bind_emit, bind_get, bind_emit.
      rewrite (bind_known _ _ _ _ _ _ (pwave_stack_read it)), prepend_nil.
      rewrite Hread, Hp, bind_lift_ok.
      rewrite (bind_known _ _ _ _ _ _ (pwave_stack_read it)), prepend_nil.
      rewrite Hread, Hp, bind_lift_ok.
      rewrite (bind_known _ _ _ _ _ _
                 (pwave_variance_known it _ _ Hp' Hp)), prepend_nil.
      rewrite (bind_raises _ _ _ _ _ _ (variance_without_swave it m Hs)).
      reflexivity.
    + unfold swave_read. by destruct (_swave_realization_stack it).
  - exists (pwave_read it), m. split.
    + rewrite (bind_raises _ _ it (pwave_read it)
                 [ModelSavez (path +:+ ".pwave_model") (pwave_model it);
                  ModelSavez (path +:+ ".swave_model") (swave_model it)]
                 (ValueError m)); [reflexivity|].
      rewrite bind_get, bind_emit, bind_get, bind_emit.
      rewrite (bind_known _ _ _ _ _ _ (pwave_stack_read it)), prepend_nil.
      rewrite Hp. erewrite bind_raises by reflexivity. reflexivity.
    + unfold pwave_read. by destruct (_pwave_realization_stack it).
Qed.

Lemma save_later dir it :
  0 < iiter it →
  stack (pwave_realizations it) = Ok (pwave_realizations it) →
  stack (swave_realizations it) = Ok (swave_realizations it) →
  save astype_events astype_arrivals dir it
  = mkOutcome (tables_cast it)
      (model_files dir it
       ++ [NpSavez
             (path_join dir (format_02d (iiter it)) +:+ ".realizations.npz")
             [("pwave_stack", NpzStack (pwave_realizations it));
              ("pwave_variance", NpzArray (var0 (pwave_realizations it)));
              ("swave_stack", NpzStack (pwave_realizations it));
              ("swave_variance", NpzArray (var0 (swave_realizations it)));
              ("min_coords", NpzArray (min_coords (pwave_model it)));
              ("node_intervals", NpzArray (node_intervals (pwave_model it)));
              ("npts", NpzInts (npts (pwave_model it)))]]
       ++ table_files dir it)
      (Ok true).
Proof.
  intros Hi%Nat.ltb_lt Hp Hs.
  destruct (pwave_read_stacked it Hp) as [Hread Hp'].
  destruct (swave_read_stacked it Hs) as [_ Hs'].
  unfold save, model_files, table_files.
  rewrite bind_get, bind_emit, bind_emit. rewrite Hi.
  generalize (path_join dir (format_02d (iiter it))). intros path.
  generalize ("Saving data from iteration #" +:+ pretty (iiter it)).
  intros msg.
  rewrite (bind_known _ _ it it
             [ModelSavez (path +:+ ".pwave_model") (pwave_model it);
              ModelSavez (path +:+ ".swave_model") (swave_model it);
              NpSavez (path +:+ ".realizations.npz")
                [("pwave_stack", NpzStack (pwave_realizations it));
                 ("pwave_variance", NpzArray (var0 (pwave_realizations it)));
                 ("swave_stack", NpzStack (pwave_realizations it));
                 ("swave_variance", NpzArray (var0 (swave_realizations it)));
                 ("min_coords", NpzArray (min_coords (pwave_model it)));
                 ("node_intervals", NpzArray (node_intervals (pwave_model it)));
                 ("npts", NpzInts (npts (pwave_model it)))]] ()).
  - rewrite bind_get, bind_modify, bind_get, bind_modify, bind_get, bind_emit,
      bind_get, bind_emit.
    reflexivity.
  - rewrite bind_get, bind_emit, bind_get, bind_emit.
    rewrite (bind_known _ _ _ _ _ _ (pwave_stack_read it)), prepend_nil.
    rewrite Hread, Hp, bind_lift_ok.
    rewrite (bind_known _ _ _ _ _ _ (pwave_stack_read it)), prepend_nil.
    rewrite Hread, Hp, bind_lift_ok.
    rewrite (bind_known _ _ _ _ _ _ (pwave_variance_known it _ _ Hp' Hp)).
    rewrite (bind_known _ _ _ _ _ _ (swave_variance_known it _ _ Hs' Hs)).
    rewrite bind_get. reflexivity.
Qed.

(** [save] returns exactly when the iteration counter is still 0 or each
    phase has realizations that can be stacked.  Before the first
    iteration it writes the two tables and nothing else, whatever the
    stacks hold.  When it raises, it has already created the directory
    and written both model files, but neither the ensemble file nor the
    tables, and the tables of the object have not been cast.  When it
    returns, the two tables are the last things written, both into
    [<path>.events.h5], and the object differs from before only in the
    casts of the two tables. *)
Theorem save_writes_models_before_it_fails (dir : string) (it : iterator F E) :
  let o := save astype_events astype_arrivals dir it in
  (value o = Ok true ↔
   iiter it = 0
   ∨ (stack (pwave_realizations it) = Ok (pwave_realizations it)
      ∧ stack (swave_realizations it) = Ok (swave_realizations it)))
  ∧ (iiter it = 0 →
     effects o
     = [LogInfo ("Saving data from iteration #" +:+ pretty (iiter it));
        Makedirs dir] ++ table_files dir it)
  ∧ (value o ≠ Ok true →
     raised (value o)
     ∧ effects o = model_files dir it
     ∧ events (final o) = events it
     ∧ arrivals (final o) = arrivals it)
  ∧ (value o = Ok true →
     final o = tables_cast it
     ∧ ∃ before, effects o = before ++ table_files dir it).
Proof.
  cbv zeta. destruct (decide (iiter it = 0)) as [Hi|Hi].
  { rewrite (save_first dir it Hi). cbn [value final effects].
    split_and!; [naive_solver|done|done|]. intros _. eauto. }
  assert (0 < iiter it) as Hpos by lia.
  destruct (stack_cases (pwave_realizations it)) as [Hp|[m Hp]].
  - destruct (stack_cases (swave_realizations it)) as [Hs|[m Hs]].
    + rewrite (save_later dir it Hpos Hp Hs). cbn [value final effects].
      split_and!; [naive_solver|done|done|]. intros _. split; [done|].
      eexists. rewrite app_assoc. reflexivity.
    + destruct (save_fails dir it Hpos) as (it' & msg & -> & Hev & Har).
      { right. congruence. }
      cbn [value final effects].
      split_and!; [|done|done|done].
      split; [done|]. intros [?|[_ ?]]; [done|congruence].
  - destruct (save_fails dir it Hpos) as (it' & msg & -> & Hev & Har).
    { left. congruence. }
    cbn [value final effects].
    split_and!; [|done|done|done].
    split; [done|]. intros [?|[? _]]; [done|congruence].
Qed.

End Stacks.

(** *** Concrete iterators *)

Definition example_cfg {F} `{Scalar F} : config F :=
  mkConfig 2 1 s_one s_zero s_zero s_zero s_zero 10 "traveltimes" "output".

(** Two grid nodes, two Voronoi cells; node 0 lies in cell 1 and node 1 in
    cell 0. *)
Definition example_projection {F} `{Scalar F} : coo F :=
  mkCoo 2 2 [s_one; s_one] [0; 1] [1; 0].

Definition example_sensitivity {F} `{Scalar F} : coo F :=
  mkCoo 1 2 [s_one; s_one] [0; 0] [0; 1].

Definition example_iterator {F} `{Scalar F} (i : nat) (vp vs : list F)
    (pstack sstack : option (list (list F))) : iterator F unit :=
  mkIterator example_cfg [] () i example_projection
    (mkModel [s_zero; s_zero; s_zero] [s_one; s_one; s_one] [1; 1; 2] vp)
    (mkModel [s_zero; s_zero; s_zero] [s_one; s_one; s_one] [1; 1; 2] vs)
    pstack sstack [s_one] example_sensitivity [] [].


(** Velocities 2 and 4, a solver that answers (1/4, 1/2):
    [1/(1/2 + 1/2) = 1] and [1/(1/4 + 1/4) = 2]. *)
Definition example_lsmr :
    coo float → list float → float → float → float → float → nat → list float :=
  λ _ _ _ _ _ _ _, [0x1p-2%float; 0x1p-1%float].

Definition example_update_iterator : iterator float unit :=
  example_iterator (H := float64) 0 [2%float; 4%float] [1%float; 2%float]
    None None.

Lemma model_update_appends_velocity_witness :
  update_ready example_lsmr "P" example_update_iterator
  ∧ value (_compute_model_update (H := float64) example_lsmr "P"
             example_update_iterator) = Ok true
  ∧ _pwave_realization_stack
      (final (_compute_model_update (H := float64) example_lsmr "P"
                example_update_iterator))
    = Some [[1%float; 2%float]]
  ∧ values (pwave_model
              (final (_compute_model_update (H := float64) example_lsmr "P"
                        example_update_iterator)))
    = [2%float; 4%float].
Proof.
  assert (update_ready example_lsmr "P" example_update_iterator)
    as Hready by (vm_compute; repeat split).
  destruct (model_update_appends_velocity (H := float64) example_lsmr "P"
              example_update_iterator (or_introl eq_refl) Hready)
    as (Hvalue & _ & HP & _ & Hpm & _).
  split_and!; [exact Hready|exact Hvalue| |].
  - rewrite (proj1 (HP eq_refl)). vm_compute. reflexivity.
  - rewrite Hpm. reflexivity.
Defined.

(** A projection matrix with three columns, and the solver's answer
    with two entries. *)
Definition example_misfit_iterator : iterator float unit :=
  set_projection_matrix
    (mkCoo 2 3 [1%float; 1%float] [0; 1] [1; 0]) example_update_iterator.

(** C8 as stated fails: for the recognized phase "P",
    [_compute_model_update] raises too, here from the product of the
    projection matrix with a solution of the wrong length, after the
    solver has been called. *)
Lemma model_update_raises_for_recognized_phase :
  ("P" = "P" ∨ "P" = "S")
  ∧ length (lsmr_solution example_lsmr example_misfit_iterator) = 2
  ∧ coo_ncols (projection_matrix example_misfit_iterator) = 3
  ∧ value (_compute_model_update (H := float64) example_lsmr "P"
             example_misfit_iterator)
    = Raise (ValueError "dimension mismatch")
  ∧ effects (_compute_model_update (H := float64) example_lsmr "P"
               example_misfit_iterator)
    = [LogInfo "Computing P-wave model update"; CallLsmr].
Proof.
  split; [by left|]. split; [reflexivity|]. split; [reflexivity|].
  split; vm_compute; reflexivity.
Qed.






(** C6 fails on the code.  At iteration 1, with one P-wave realization
    (velocity 1) and one S-wave realization (velocity 2), the ensemble
    file holds the P-wave stack under both "pwave_stack" and
    "swave_stack"; the S-wave stack is not written. *)
Theorem save_writes_pwave_stack_twice :
  _pwave_realization_stack
    (example_iterator (H := float64) 1 [1%float] [2%float]
       (Some [[1%float]]) (Some [[2%float]]))
  = Some [[1%float]]
  ∧ _swave_realization_stack
      (example_iterator (H := float64) 1 [1%float] [2%float]
         (Some [[1%float]]) (Some [[2%float]]))
    = Some [[2%float]]
  ∧ npz_handle "pwave_stack"
      (effects (save (H := float64) id id "output"
                  (example_iterator (H := float64) 1 [1%float] [2%float]
                     (Some [[1%float]]) (Some [[2%float]]))))
    = Some (NpzStack [[1%float]])
  ∧ npz_handle "swave_stack"
      (effects (save (H := float64) id id "output"
                  (example_iterator (H := float64) 1 [1%float] [2%float]
                     (Some [[1%float]]) (Some [[2%float]]))))
    = Some (NpzStack [[1%float]]).
Proof. split_and!; vm_compute; reflexivity. Qed.

(** *** The outlier filter on concrete residuals *)

(** pandas' default quantile: linear interpolation between the two
    order statistics around position [(n - 1) * num / den]. *)
Definition s_le {F} `{Scalar F} (x y : F) : Prop := s_ltb y x = false.

Global Instance s_le_dec {F} `{Scalar F} (x y : F) : Decision (s_le x y).
Proof. unfold s_le. apply _. Defined.

Definition quantile_linear {F} `{Scalar F} (num den : nat) (res : list F) : F :=
  let sorted := merge_sort s_le res in
  let pos := (length sorted - 1) * num in
  let a := default s_zero (sorted !! (pos / den)) in
  let b := default a (sorted !! S (pos / den)) in
  s_add a (s_mul (s_sub b a) (s_div (s_of_nat (pos mod den)) (s_of_nat den))).

Definition quartiles_linear {F} `{Scalar F} (res : list F) : F * F :=
  (quantile_linear 1 4 res, quantile_linear 3 4 res).

(** Five P arrivals at one station with residuals 0, 1, 2, 3, 4 and one S
    arrival; [outlier_removal_factor = 1/2].  Then [Q1 = 1], [Q3 = 3],
    [IQR = 2], and the fence bounds are 0 and 4. *)
Definition example_arrival (ph : string) (r : Z) : arrival Qc :=
  mkArrival "NW" "STA" ph (Qc_of_Z 100) (Qc_of_Z r) r.

Definition example_arrivals : list (arrival Qc) :=
  [example_arrival "P" 3; example_arrival "P" 0; example_arrival "S" 9;
   example_arrival "P" 4; example_arrival "P" 1; example_arrival "P" 2].

Definition example_filter_iterator : iterator Qc unit :=
  mkIterator
    (mkConfig 2 3 (Q2Qc (1 # 2)) (Q2Qc 0) (Q2Qc 0) (Q2Qc 0) (Q2Qc 0) 10
       "traveltimes" "output")
    example_arrivals () 1 (example_projection (H := exact))
    (mkModel [] [] [1; 1; 2] []) (mkModel [] [] [1; 1; 2] [])
    None None [] (example_sensitivity (H := exact)) [] [].

(** C3 as stated fails: the arrivals with residuals 0 and 4 lie on the
    fence bounds, inside the closed interval [[Q1 - k*IQR, Q3 + k*IQR]],
    and the filter removes them. *)
Lemma fence_bound_residual_is_removed :
  tukey_fence (H := exact) (quartiles_linear (H := exact)) (Q2Qc (1 # 2))
    (residual <$> of_phase "P" example_arrivals)
  = (Q2Qc 0, Q2Qc 4)
  ∧ example_arrival "P" 0 ∈ of_phase "P" example_arrivals
  ∧ Qcle (Q2Qc 0) (residual (example_arrival "P" 0))
  ∧ Qcle (residual (example_arrival "P" 0)) (Q2Qc 4)
  ∧ example_arrival "P" 0
    ∉ remove_outliers (H := exact) (quartiles_linear (H := exact))
        (Q2Qc (1 # 2)) (of_phase "P" example_arrivals)
  ∧ example_arrival "P" 4 ∈ of_phase "P" example_arrivals
  ∧ Qcle (Q2Qc 0) (residual (example_arrival "P" 4))
  ∧ Qcle (residual (example_arrival "P" 4)) (Q2Qc 4)
  ∧ example_arrival "P" 4
    ∉ remove_outliers (H := exact) (quartiles_linear (H := exact))
        (Q2Qc (1 # 2)) (of_phase "P" example_arrivals)
  ∧ event_id <$> remove_outliers (H := exact) (quartiles_linear (H := exact))
                   (Q2Qc (1 # 2)) (of_phase "P" example_arrivals)
    = [3; 1; 2]%Z.
Proof.
  assert (tukey_fence (H := exact) (quartiles_linear (H := exact))
            (Q2Qc (1 # 2)) (residual <$> of_phase "P" example_arrivals)
          = (Q2Qc 0, Q2Qc 4)) as Hfence.
  { apply (bool_decide_unpack _). vm_compute. exact I. }
  assert (event_id <$> remove_outliers (H := exact)
                         (quartiles_linear (H := exact))
                         (Q2Qc (1 # 2)) (of_phase "P" example_arrivals)
          = [3; 1; 2]%Z) as Hkept by (vm_compute; reflexivity).
  assert (∀ r, r ∈ [3; 1; 2]%Z → r ≠ 0%Z ∧ r ≠ 4%Z) as Hnot.
  { clear. intros r Hr. repeat (apply elem_of_cons in Hr as [->|Hr]; [lia|]).
    destruct (not_elem_of_nil _ Hr). }
  assert (of_phase "P" example_arrivals
          = [example_arrival "P" 3; example_arrival "P" 0;
             example_arrival "P" 4; example_arrival "P" 1;
             example_arrival "P" 2]) as Hphase by reflexivity.
  split; [exact Hfence|].
  split; [rewrite Hphase; apply list_elem_of_further, list_elem_of_here|].
  split; [apply (bool_decide_unpack _); vm_compute; exact I|].
  split; [apply (bool_decide_unpack _); vm_compute; exact I|].
  split.
  { intros Hin. apply (list_elem_of_fmap_2 event_id) in Hin.
    rewrite Hkept in Hin. apply Hnot in Hin as [Hin _]. by apply Hin. }
  split; [rewrite Hphase; do 2 apply list_elem_of_further; apply list_elem_of_here|].
  split; [apply (bool_decide_unpack _); vm_compute; exact I|].
  split; [apply (bool_decide_unpack _); vm_compute; exact I|].
  split; [|exact Hkept].
  intros Hin. apply (list_elem_of_fmap_2 event_id) in Hin.
  rewrite Hkept in Hin. apply Hnot in Hin as [_ Hin]. by apply Hin.
Qed.

(** ** [<] on float64 and on the rationals is a strict order *)

(** The comparison of IEEE 754 numbers: irreflexive and transitive,
    every comparison with a NaN being false. *)
Lemma SFltb_irrefl (x : spec_float) : SFltb x x = false.
Proof.
  unfold SFltb, SFcompare. destruct x as [[]|[]| |[] m e]; try done.
  all: by rewrite Z.compare_refl, Pos.compare_cont_refl.
Qed.

Lemma SFltb_trans (x y z : spec_float) :
  SFltb x y = true → SFltb y z = true → SFltb x z = true.
Proof.
  unfold SFltb, SFcompare.
  destruct x as [[]|[]| |[] mx ex], y as [[]|[]| |[] my ey],
    z as [[]|[]| |[] mz ez]; try done.
  - change (Pos.compare_cont Eq ?a ?b) with (Pos.compare a b).
    destruct (Z.compare_spec ex ey), (Z.compare_spec ey ez),
      (Z.compare_spec ex ez); try done; try lia.
    subst.
    destruct (Pos.compare_spec mx my), (Pos.compare_spec my mz),
      (Pos.compare_spec mx mz); try done; lia.
  - change (Pos.compare_cont Eq ?a ?b) with (Pos.compare a b).
    destruct (Z.compare_spec ex ey), (Z.compare_spec ey ez),
      (Z.compare_spec ex ez); try done; try lia.
    subst.
    destruct (Pos.compare_spec mx my), (Pos.compare_spec my mz),
      (Pos.compare_spec mx mz); try done; lia.
Qed.

Lemma float64_ltb_irrefl (x : float) : @s_ltb float float64 x x = false.
Proof. cbn [s_ltb float64]. rewrite ltb_spec. apply SFltb_irrefl. Qed.

Lemma float64_ltb_trans (x y z : float) :
  @s_ltb float float64 x y = true → @s_ltb float float64 y z = true →
  @s_ltb float float64 x z = true.
Proof. cbn [s_ltb float64]. rewrite !ltb_spec. apply SFltb_trans. Qed.

Lemma exact_ltb_irrefl (x : Qc) : @s_ltb Qc exact x x = false.
Proof.
  apply bool_decide_eq_false. intros Hlt. by apply Qclt_not_eq in Hlt.
Qed.

Lemma exact_ltb_trans (x y z : Qc) :
  @s_ltb Qc exact x y = true → @s_ltb Qc exact y z = true →
  @s_ltb Qc exact x z = true.
Proof.
  intros Hxy%bool_decide_eq_true Hyz%bool_decide_eq_true.
  apply bool_decide_eq_true. by eapply Qclt_trans.
Qed.

(** A list helper: a filter that nothing passes. *)
Lemma filter_none {B} (P : B → Prop) `{!∀ x, Decision (P x)} (l : list B) :
  Forall (λ x, ¬ P x) l → filter P l = [].
Proof.
  induction 1 as [|x l Hx _ IH]; [done|]. by rewrite filter_cons_False.
Qed.

(** ** The projection matrix *)

(** *** Entries of a matrix with one entry per row *)

Section Entries.

Context {F : Type}.

Lemma filter_row_below (m k : nat) : ∀ (rows cols : list nat) (data : list F),
  Forall (λ r, m < r) rows →
  filter (λ e : nat * nat * F, e.1.1 = m) (zip (zip rows cols) data) = [].
Proof.
  induction rows as [|r rows IH]; intros [|c cols] [|d data] Hall; try done.
  apply Forall_cons in Hall as [Hr Hall]. cbn [zip zip_with].
  rewrite filter_cons_False by (simpl; lia). by apply IH.
Qed.

Lemma filter_row_entry : ∀ (cols : list nat) (data : list F) k i c d,
  cols !! i = Some c → data !! i = Some d →
  filter (λ e : nat * nat * F, e.1.1 = k + i)
    (zip (zip (seq k (length cols)) cols) data)
  = [(k + i, c, d)].
Proof.
  induction cols as [|c' cols IH]; intros [|d' data] k [|i] c d Hc Hd;
    simplify_eq/=.
  - rewrite filter_cons_True by (simpl; lia).
    rewrite Nat.add_0_r. f_equal.
    apply (filter_row_below k k). apply Forall_forall.
    intros r Hr%elem_of_seq. lia.
  - rewrite filter_cons_False by (simpl; lia).
    replace (k + S i) with (S k + i) by lia. by apply IH.
Qed.

Lemma foldl_filter {B} (P : B → Prop) `{!∀ x, Decision (P x)}
    (g : F → B → F) (l : list B) : ∀ a,
  foldl (λ acc e, if decide (P e) then g acc e else acc) a l
  = foldl g a (filter P l).
Proof.
  induction l as [|x l IH]; intros a; [done|]. simpl.
  destruct (decide (P x)).
  - rewrite filter_cons_True by done. simpl. apply IH.
  - rewrite filter_cons_False by done. apply IH.
Qed.

End Entries.

Section Projection.

Context `{Scalar F} {E : Type}.

Variable sph2xyz : point F → point F.
Variable nodes : model F → list (point F).

(** The node-to-cell assignment and the matrix built from it. *)
Definition cell_of (it : iterator F E) (node : point F) : nat :=
  query (sph2xyz <$> voronoi_cells it) (sph2xyz node).

Definition incidence (it : iterator F E) : coo F :=
  let grid := nodes (pwave_model it) in
  mkCoo (length grid) (nvoronoi (cfg it)) (replicate (length grid) s_one)
    (seq 0 (length grid)) (cell_of it <$> grid).

Lemma update_projection_known it :
  Forall (λ node, cell_of it node < nvoronoi (cfg it)) (nodes (pwave_model it)) →
  _update_projection_matrix sph2xyz nodes it
  = mkOutcome (set_projection_matrix (incidence it) it)
      [LogInfo "Updating projection matrix"] (Ok true).
Proof.
  intros Hall. unfold _update_projection_matrix.
  rewrite bind_emit, !bind_get.
  assert (coo_matrix (replicate (length (nodes (pwave_model it))) s_one)
            (seq 0 (length (nodes (pwave_model it))))
            (query (sph2xyz <$> voronoi_cells it)
               <$> (sph2xyz <$> nodes (pwave_model it)))
            (length (nodes (pwave_model it)), nvoronoi (cfg it))
          = Ok (incidence it)) as ->.
  { unfold coo_matrix.
    rewrite !length_fmap, length_seq, length_replicate, !Nat.eqb_refl.
    cbn [andb negb fst snd].
    assert (forallb (λ i, i <? length (nodes (pwave_model it)))
              (seq 0 (length (nodes (pwave_model it)))) = true) as ->.
    { apply forallb_forall. intros i Hi%in_seq. apply Nat.ltb_lt. lia. }
    cbn [negb].
    assert (forallb (λ j, j <? nvoronoi (cfg it))
              (query (sph2xyz <$> voronoi_cells it)
                 <$> (sph2xyz <$> nodes (pwave_model it))) = true) as ->.
    { apply forallb_forall. intros j Hj%list_elem_of_In.
      apply list_elem_of_fmap in Hj as (q & -> & Hq).
      apply list_elem_of_fmap in Hq as (node & -> & Hnode).
      apply Nat.ltb_lt. rewrite Forall_forall in Hall. by apply Hall. }
    cbn [negb]. unfold incidence, cell_of. cbv zeta.
    by rewrite <-list_fmap_compose. }
  rewrite bind_lift_ok, bind_modify. reflexivity.
Qed.

Lemma update_projection_out_of_range it :
  ¬ Forall (λ node, cell_of it node < nvoronoi (cfg it))
      (nodes (pwave_model it)) →
  _update_projection_matrix sph2xyz nodes it
  = mkOutcome it [LogInfo "Updating projection matrix"]
      (Raise (ValueError "column index exceeds matrix dimensions")).
Proof.
  intros Hall. unfold _update_projection_matrix.
  rewrite bind_emit, !bind_get.
  assert (coo_matrix (replicate (length (nodes (pwave_model it))) s_one)
            (seq 0 (length (nodes (pwave_model it))))
            (query (sph2xyz <$> voronoi_cells it)
               <$> (sph2xyz <$> nodes (pwave_model it)))
            (length (nodes (pwave_model it)), nvoronoi (cfg it))
          = Raise (ValueError "column index exceeds matrix dimensions")) as Hm.
  { unfold coo_matrix.
    rewrite !length_fmap, length_seq, length_replicate, !Nat.eqb_refl.
    cbn [andb negb fst snd].
    assert (forallb (λ i, i <? length (nodes (pwave_model it)))
              (seq 0 (length (nodes (pwave_model it)))) = true) as ->.
    { apply forallb_forall. intros i Hi%in_seq. apply Nat.ltb_lt. lia. }
    cbn [negb].
    destruct (forallb (λ j, j <? nvoronoi (cfg it))
                (query (sph2xyz <$> voronoi_cells it)
                   <$> (sph2xyz <$> nodes (pwave_model it)))) eqn:Hcols;
      [|done].
    exfalso. apply Hall. apply Forall_forall. intros node Hnode.
    rewrite forallb_forall in Hcols. apply Nat.ltb_lt, Hcols.
    apply list_elem_of_In. unfold cell_of.
    apply list_elem_of_fmap. eexists. split; [reflexivity|].
    by apply list_elem_of_fmap_2. }
  erewrite bind_raises; [|by rewrite Hm]. reflexivity.
Qed.


(** *** The nearest cell *)

Section Nearest.

(** [<] on the scalars is a strict order (so it is on float64, where
    every comparison with a NaN is false). *)
Hypothesis ltb_irrefl : ∀ x : F, s_ltb x x = false.
Hypothesis ltb_trans : ∀ x y z : F,
  s_ltb x y = true → s_ltb y z = true → s_ltb x z = true.

Lemma nearest_from_spec (p : point F) : ∀ cells seen best cbest,
  seen !! best = Some cbest →
  (∀ j c, seen !! j = Some c → s_ltb (dist2 c p) (dist2 cbest p) = false) →
  ∃ c, (seen ++ cells) !! nearest_from best (dist2 cbest p) (length seen) cells p
       = Some c
       ∧ ∀ j c', (seen ++ cells) !! j = Some c' →
                 s_ltb (dist2 c' p) (dist2 c p) = false.
Proof using ltb_irrefl ltb_trans.
  induction cells as [|c cells IH]; intros seen best cbest Hbest Hseen.
  - simpl. rewrite app_nil_r. eauto.
  - cbn [nearest_from].
    replace (seen ++ c :: cells) with ((seen ++ [c]) ++ cells)
      by by rewrite <-app_assoc.
    replace (S (length seen)) with (length (seen ++ [c]))
      by (rewrite length_app; simpl; lia).
    destruct (s_ltb (dist2 c p) (dist2 cbest p)) eqn:Hlt.
    + apply (IH (seen ++ [c]) (length seen) c).
      * by rewrite lookup_app_r, Nat.sub_diag by lia.
      * intros j c' Hj.
        apply lookup_app_Some in Hj as [Hj|[_ Hj]].
        -- destruct (s_ltb (dist2 c' p) (dist2 c p)) eqn:Hlt'; [|done].
           rewrite <-(Hseen j c' Hj). symmetry. by eapply ltb_trans.
        -- apply list_lookup_singleton_Some in Hj as [_ <-].
           apply ltb_irrefl.
    + apply (IH (seen ++ [c]) best cbest).
      * by apply lookup_app_l_Some.
      * intros j c' Hj.
        apply lookup_app_Some in Hj as [Hj|[_ Hj]]; [by eapply Hseen|].
        by apply list_lookup_singleton_Some in Hj as [_ <-].
Qed.

Lemma query_spec (cells : list (point F)) (p : point F) :
  cells ≠ [] →
  ∃ c, cells !! query cells p = Some c
       ∧ ∀ j c', cells !! j = Some c' →
                 s_ltb (dist2 c' p) (dist2 c p) = false.
Proof using ltb_irrefl ltb_trans.
  destruct cells as [|c cells]; [done|]. intros _. unfold query.
  apply (nearest_from_spec p cells [c] 0 c); [done|].
  intros j c' Hj. apply list_lookup_singleton_Some in Hj as [_ <-].
  apply ltb_irrefl.
Qed.

Lemma cell_of_spec it node :
  voronoi_cells it ≠ [] →
  ∃ cell, voronoi_cells it !! cell_of it node = Some cell
          ∧ ∀ j cell', voronoi_cells it !! j = Some cell' →
              s_ltb (dist2 (sph2xyz cell') (sph2xyz node))
                    (dist2 (sph2xyz cell) (sph2xyz node)) = false.
Proof using ltb_irrefl ltb_trans.
  intros Hne.
  destruct (query_spec (sph2xyz <$> voronoi_cells it) (sph2xyz node))
    as (c & Hc & Hmin).
  { by destruct (voronoi_cells it). }
  fold (cell_of it node) in Hc.
  rewrite list_lookup_fmap in Hc.
  destruct (voronoi_cells it !! cell_of it node) as [cell|] eqn:Hcell;
    simplify_eq/=.
  exists cell. split; [done|]. intros j cell' Hj. apply (Hmin j).
  by rewrite list_lookup_fmap, Hj.
Qed.

Lemma built_in_range it :
  value (_update_projection_matrix sph2xyz nodes it) = Ok true →
  Forall (λ node, cell_of it node < nvoronoi (cfg it)) (nodes (pwave_model it)).
Proof.
  intros Hbuilt.
  destruct (decide (Forall (λ node, cell_of it node < nvoronoi (cfg it))
                      (nodes (pwave_model it)))) as [Hall|Hall]; [done|].
  by rewrite (update_projection_out_of_range it Hall) in Hbuilt.
Qed.

Lemma nearest_cell_entries (it : iterator F E) :
  value (_update_projection_matrix sph2xyz nodes it) = Ok true →
  voronoi_cells it ≠ [] →
  let o := _update_projection_matrix sph2xyz nodes it in
  let P := projection_matrix (final o) in
  let grid := nodes (pwave_model it) in
  coo_nrows P = length grid
  ∧ coo_ncols P = nvoronoi (cfg it)
  ∧ length (coo_entries P) = length grid
  ∧ ∀ n node, grid !! n = Some node →
      ∃ col cell,
        filter (λ e, e.1.1 = n) (coo_entries P) = [(n, col, s_one)]
        ∧ voronoi_cells it !! col = Some cell
        ∧ ∀ j cell', voronoi_cells it !! j = Some cell' →
            s_ltb (dist2 (sph2xyz cell') (sph2xyz node))
                  (dist2 (sph2xyz cell) (sph2xyz node)) = false.
Proof using ltb_irrefl ltb_trans.
  intros Hbuilt%built_in_range Hne. cbv zeta.
  rewrite (update_projection_known it Hbuilt).
  cbn [final value projection_matrix set_projection_matrix].
  split_and!; try done.
  - unfold coo_entries, incidence. cbn [coo_row coo_col coo_data].
    rewrite !length_zip, length_seq, length_fmap, length_replicate. lia.
  - intros n node Hnode.
    destruct (cell_of_spec it node Hne) as (cell & Hcell & Hmin).
    exists (cell_of it node), cell. split_and!; [|done|done].
    unfold coo_entries, incidence. cbn [coo_row coo_col coo_data].
    rewrite <-(length_fmap (cell_of it) (nodes (pwave_model it))) at 1.
    apply (filter_row_entry _ _ 0 n).
    + by rewrite list_lookup_fmap, Hnode.
    + apply lookup_replicate. split; [done|]. by eapply lookup_lt_Some.
Qed.

(** With as many Voronoi cells as the configuration says (or fewer) and
    at least one, the matrix is built. *)
Lemma projection_built_with_enough_columns (it : iterator F E) :
  voronoi_cells it ≠ [] →
  length (voronoi_cells it) ≤ nvoronoi (cfg it) →
  value (_update_projection_matrix sph2xyz nodes it) = Ok true.
Proof using ltb_irrefl ltb_trans.
  intros Hne Hlen. rewrite update_projection_known; [done|].
  apply Forall_forall. intros node _.
  destruct (cell_of_spec it node Hne) as (cell & Hcell%lookup_lt_Some & _).
  lia.
Qed.

End Nearest.

(** Entry [n] of [incidence * x]. *)
Lemma incidence_row_dot it (x : list F) n node :
  nodes (pwave_model it) !! n = Some node →
  coo_row_dot (incidence it) x n
  = s_add s_zero (s_mul s_one (default s_zero (x !! cell_of it node))).
Proof.
  intros Hnode. unfold coo_row_dot.
  rewrite (foldl_filter (λ e : nat * nat * F, e.1.1 = n)
             (λ acc e, s_add acc (s_mul e.2 (default s_zero (x !! e.1.2))))).
  unfold coo_entries, incidence. cbn [coo_row coo_col coo_data].
  rewrite <-(length_fmap (cell_of it) (nodes (pwave_model it))) at 1.
  rewrite (filter_row_entry _ _ 0 n (cell_of it node) s_one).
  - reflexivity.
  - by rewrite list_lookup_fmap, Hnode.
  - apply lookup_replicate. split; [done|]. by eapply lookup_lt_Some.
Qed.

(** What the projection matrix is for: when it has been built, its
    product with a vector [x] of [nvoronoi] entries spreads [x] over the
    grid; entry [n] of the product is [0 + 1 * x[c]], with [c] the cell
    of node [n], and [x] has an entry at [c]. *)
Theorem projection_spreads_cell_values (it : iterator F E) (x : list F) :
  value (_update_projection_matrix sph2xyz nodes it) = Ok true →
  length x = nvoronoi (cfg it) →
  let o := _update_projection_matrix sph2xyz nodes it in
  coo_matvec (projection_matrix (final o)) x
  = Ok ((λ node, s_add s_zero
                   (s_mul s_one (default s_zero (x !! cell_of it node))))
        <$> nodes (pwave_model it))
  ∧ Forall (λ node, is_Some (x !! cell_of it node)) (nodes (pwave_model it)).
Proof.
  intros Hall%built_in_range Hx. cbv zeta.
  rewrite (update_projection_known it Hall).
  cbn [final projection_matrix set_projection_matrix].
  split.
  - unfold coo_matvec. rewrite decide_True by done. f_equal.
    change (coo_nrows (incidence it)) with (length (nodes (pwave_model it))).
    apply list_eq. intros n. rewrite !list_lookup_fmap.
    destruct (nodes (pwave_model it) !! n) as [node|] eqn:Hnode.
    + rewrite lookup_seq_lt by by eapply lookup_lt_Some.
      cbn [fmap option_fmap option_map plus]. f_equal.
      by apply incidence_row_dot.
    + rewrite lookup_seq_ge; [done|]. by apply lookup_ge_None.
  - eapply Forall_impl; [exact Hall|]. intros node Hlt. cbv beta in Hlt.
    apply lookup_lt_is_Some. lia.
Qed.

End Projection.

(** C4.  When [_update_projection_matrix] builds the projection matrix
    from a non-empty set of Voronoi cells, in float64 arithmetic, the
    matrix has one row per grid node and [nvoronoi] columns, and it has
    as many entries as there are grid nodes; row [n] holds exactly one
    entry, its value is 1, and its column is the index of a Voronoi
    cell than which no cell is nearer to node [n], by the Euclidean
    distance between the Cartesian images ([sph2xyz]) of node and
    cells. *)
Theorem projection_matrix_marks_nearest_cell {E : Type}
    (sph2xyz : point float → point float)
    (nodes : model float → list (point float)) (it : iterator float E) :
  value (_update_projection_matrix (H := float64) sph2xyz nodes it) = Ok true →
  voronoi_cells it ≠ [] →
  let o := _update_projection_matrix (H := float64) sph2xyz nodes it in
  let P := projection_matrix (final o) in
  let grid := nodes (pwave_model it) in
  coo_nrows P = length grid
  ∧ coo_ncols P = nvoronoi (cfg it)
  ∧ length (coo_entries P) = length grid
  ∧ ∀ n node, grid !! n = Some node →
      ∃ col cell,
        filter (λ e, e.1.1 = n) (coo_entries P) = [(n, col, 1%float)]
        ∧ voronoi_cells it !! col = Some cell
        ∧ ∀ j cell', voronoi_cells it !! j = Some cell' →
            PrimFloat.ltb
              (dist2 (H := float64) (sph2xyz cell') (sph2xyz node))
              (dist2 (H := float64) (sph2xyz cell) (sph2xyz node)) = false.
Proof.
  intros Hbuilt Hne.
  exact (nearest_cell_entries (H := float64) sph2xyz nodes
           float64_ltb_irrefl float64_ltb_trans it Hbuilt Hne).
Qed.

(** Two cells on the x axis, at 0 and at 4, and three nodes at 1, 3 and
    2: the first node is nearest to cell 0, the second to cell 1, and
    the third, as far from the one as from the other, goes to cell 0. *)
Definition example_cells : list (point float) :=
  [(0, 0, 0); (4, 0, 0)]%float.

Definition example_nodes : model float → list (point float) :=
  λ _, [(1, 0, 0); (3, 0, 0); (2, 0, 0)]%float.

Definition example_grid_iterator : iterator float unit :=
  set_voronoi_cells example_cells
    (example_iterator (H := float64) 1 [] [] None None).

Lemma projection_matrix_marks_nearest_cell_witness :
  value (_update_projection_matrix (H := float64) id example_nodes
           example_grid_iterator) = Ok true
  ∧ voronoi_cells example_grid_iterator ≠ []
  ∧ coo_nrows (projection_matrix
                 (final (_update_projection_matrix (H := float64) id
                           example_nodes example_grid_iterator))) = 3
  ∧ coo_ncols (projection_matrix
                 (final (_update_projection_matrix (H := float64) id
                           example_nodes example_grid_iterator))) = 2
  ∧ coo_entries (projection_matrix
                   (final (_update_projection_matrix (H := float64) id
                             example_nodes example_grid_iterator)))
    = [(0, 0, 1%float); (1, 1, 1%float); (2, 0, 1%float)].
Proof.
  assert (value (_update_projection_matrix (H := float64) id example_nodes
                   example_grid_iterator) = Ok true) as Hbuilt
    by (vm_compute; reflexivity).
  assert (voronoi_cells example_grid_iterator ≠ []) as Hne by discriminate.
  destruct (projection_matrix_marks_nearest_cell id example_nodes
              example_grid_iterator Hbuilt Hne) as (Hrows & Hcols & _).
  split; [exact Hbuilt|]. split; [exact Hne|]. split; [exact Hrows|].
  split; [exact Hcols|]. vm_compute. reflexivity.
Defined.


Lemma projection_spreads_cell_values_witness :
  value (_update_projection_matrix (H := float64) id example_nodes
           example_grid_iterator) = Ok true
  ∧ length [10; 20]%float = nvoronoi (cfg example_grid_iterator)
  ∧ coo_matvec (H := float64)
      (projection_matrix
         (final (_update_projection_matrix (H := float64) id example_nodes
                   example_grid_iterator)))
      [10; 20]%float
    = Ok [10; 20; 10]%float.
Proof.
  assert (value (_update_projection_matrix (H := float64) id example_nodes
                   example_grid_iterator) = Ok true) as Hbuilt
    by (vm_compute; reflexivity).
  split; [exact Hbuilt|]. split; [reflexivity|].
  rewrite (proj1 (projection_spreads_cell_values (H := float64) id
                    example_nodes example_grid_iterator [10; 20]%float
                    Hbuilt eq_refl)).
  vm_compute. reflexivity.
Defined.

(** ** The assembly of the sensitivity matrix *)

(** *** The row indices *)

(** Row [k] repeated [n] times for the first count [n], row [k + 1] for
    the second, and so on. *)
Fixpoint rows_from (k : nat) (nsegments : list nat) : list nat :=
  match nsegments with
  | [] => []
  | n :: rest => replicate n k ++ rows_from (S k) rest
  end.

Lemma bind_seq_const (i m : nat) : ∀ k, (seq k m ≫= λ _, [i]) = replicate m i.
Proof. induction m as [|m IH]; intros k; [done|]. simpl. f_equal. apply IH. Qed.

Lemma expand_rows_from (nsegments : list nat) :
  expand_rows nsegments = rows_from 0 nsegments.
Proof.
  unfold expand_rows.
  enough (∀ rest seen : list nat,
            (seq (length seen) (length rest) ≫= λ i,
               seq 0 (default 0 ((seen ++ rest) !! i)) ≫= λ _, [i])
            = rows_from (length seen) rest) as Hgen by apply (Hgen nsegments []).
  induction rest as [|n rest IH]; intros seen; [done|].
  cbn [length seq rows_from]. rewrite bind_cons.
  rewrite list_lookup_middle by done. cbn [default].
  rewrite bind_seq_const. f_equal.
  specialize (IH (seen ++ [n])).
  rewrite length_app, <-app_assoc in IH. cbn [length app] in IH.
  by rewrite Nat.add_1_r in IH.
Qed.

Lemma length_rows_from nsegments : ∀ k,
  length (rows_from k nsegments) = sum_list nsegments.
Proof.
  induction nsegments as [|n rest IH]; intros k; [done|].
  simpl. by rewrite length_app, length_replicate, IH.
Qed.

Lemma rows_from_bounds nsegments : ∀ k,
  Forall (λ r, k ≤ r < k + length nsegments) (rows_from k nsegments).
Proof.
  induction nsegments as [|n rest IH]; intros k; [by constructor|].
  simpl. apply Forall_app. split.
  - apply Forall_replicate. lia.
  - eapply Forall_impl; [apply IH|]. simpl. intros r ?. lia.
Qed.

Lemma filter_replicate_eq (n k i : nat) :
  filter (λ r, r = i) (replicate n k) = if decide (k = i) then replicate n k else [].
Proof.
  induction n as [|n IH]; [by destruct (decide (k = i))|].
  rewrite replicate_S. destruct (decide (k = i)) as [Hk|Hk].
  - rewrite filter_cons_True by done. by rewrite IH.
  - rewrite filter_cons_False by done. by rewrite IH.
Qed.

Lemma count_rows_from nsegments : ∀ k i,
  length (filter (λ r, r = k + i) (rows_from k nsegments))
  = default 0 (nsegments !! i).
Proof.
  induction nsegments as [|n rest IH]; intros k i; [done|].
  cbn [rows_from]. rewrite filter_app, length_app, filter_replicate_eq.
  destruct i as [|i].
  - rewrite decide_True by lia. rewrite length_replicate.
    rewrite filter_none; [simpl; lia|].
    eapply Forall_impl; [apply (rows_from_bounds rest (S k))|].
    simpl. intros r ?. lia.
  - rewrite decide_False by lia.
    replace (k + S i) with (S k + i) by lia. rewrite IH. done.
Qed.

Lemma sorted_rows_from nsegments : ∀ k,
  StronglySorted le (rows_from k nsegments).
Proof.
  induction nsegments as [|n rest IH]; intros k; [constructor|].
  cbn [rows_from]. induction n as [|n IHn]; [apply IH|].
  rewrite replicate_S. cbn [app]. constructor; [done|].
  apply Forall_app. split.
  - apply Forall_replicate. lia.
  - eapply Forall_impl; [apply (rows_from_bounds rest (S k))|].
    simpl. intros r ?. lia.
Qed.

(** The row-index array built from the segment counts holds row [i]
    exactly [nsegments[i]] times, the rows in increasing order, and no
    other index: its length is the sum of the counts and every index is
    below the number of counts. *)
Lemma expand_rows_spec (nsegments : list nat) :
  length (expand_rows nsegments) = sum_list nsegments
  ∧ (∀ i, length (filter (λ r, r = i) (expand_rows nsegments))
          = default 0 (nsegments !! i))
  ∧ StronglySorted le (expand_rows nsegments)
  ∧ Forall (λ r, r < length nsegments) (expand_rows nsegments).
Proof.
  rewrite expand_rows_from. split_and!.
  - apply length_rows_from.
  - intros i. apply (count_rows_from nsegments 0 i).
  - apply sorted_rows_from.
  - eapply Forall_impl; [apply (rows_from_bounds nsegments 0)|].
    simpl. intros r ?. lia.
Qed.

(** *** The matrix *)

Section Assembly.

Context `{Scalar F} {E : Type}.

Lemma without_none_fmap {B C} (f : B → C) (gathered : list (option B)) :
  without_none (fmap (M := option) f <$> gathered) = f <$> without_none gathered.
Proof.
  unfold without_none.
  induction gathered as [|[b|] gathered IH]; csimpl; [done| |done].
  by rewrite IH.
Qed.

Lemma count_entries_in_row {B} (i : nat) : ∀ (rows cols : list nat) (data : list B),
  length cols = length rows → length data = length rows →
  length (filter (λ e : nat * nat * B, e.1.1 = i) (zip (zip rows cols) data))
  = length (filter (λ r, r = i) rows).
Proof.
  induction rows as [|r rows IH]; intros [|c cols] [|d data] Hc Hd;
    simplify_eq/=; [done|].
  destruct (decide (r = i)) as [Hr|Hr].
  - rewrite !filter_cons_True by done. simpl. f_equal. by apply IH.
  - rewrite !filter_cons_False by done. by apply IH.
Qed.

(** What the loop of a worker hands in: per arrival one segment count,
    one residual, and as many column indices and values as the count
    says; the columns are Voronoi cells. *)
Definition consistent (nvoronoi : nat) (c : contribution F) : Prop :=
  length (c_column_idxs c) = sum_list (c_nsegments c)
  ∧ length (c_nonzero_values c) = sum_list (c_nsegments c)
  ∧ length (c_residuals c) = length (c_nsegments c)
  ∧ Forall (λ j, j < nvoronoi) (c_column_idxs c).

(** The matrix and the residual vector ROOT puts together. *)
Definition assembled (it : iterator F E) (cs : list (contribution F)) : coo F :=
  mkCoo (length (concat (c_nsegments <$> cs))) (nvoronoi (cfg it))
    (concat (c_nonzero_values <$> cs))
    (expand_rows (concat (c_nsegments <$> cs)))
    (concat (c_column_idxs <$> cs)).

Lemma sum_list_concat (ls : list (list nat)) :
  sum_list (concat ls) = sum_list (sum_list <$> ls).
Proof.
  induction ls as [|l ls IH]; [done|]. simpl. by rewrite sum_list_with_app, IH.
Qed.

Lemma length_concat_fmap {B C} (f : B → list C) (g : B → nat) (l : list B) :
  Forall (λ b, length (f b) = g b) l →
  length (concat (f <$> l)) = sum_list (g <$> l).
Proof.
  induction 1 as [|b l Hb _ IH]; [done|].
  csimpl. by rewrite length_app, Hb, IH.
Qed.

Lemma concatenate_cons {B} (a : list B) (rest : list (list B)) :
  concatenate (a :: rest) = Ok (concat (a :: rest)).
Proof. done. Qed.

Lemma compile_known gathered it :
  without_none gathered ≠ [] →
  Forall (consistent (nvoronoi (cfg it))) (without_none gathered) →
  compile_sensitivity_matrix gathered it
  = mkOutcome
      (set_residuals (concat (c_residuals <$> without_none gathered))
         (set_sensitivity_matrix (assembled it (without_none gathered)) it))
      [] (Ok true).
Proof.
  intros Hne Hall. unfold compile_sensitivity_matrix.
  rewrite bind_get, !without_none_fmap.
  assert (∀ {B} (f : contribution F → list B),
            concatenate (f <$> without_none gathered)
            = Ok (concat (f <$> without_none gathered))) as Hcat.
  { intros B f. by destruct (without_none gathered). }
  rewrite !Hcat, !bind_lift_ok.
  assert (coo_matrix (concat (c_nonzero_values <$> without_none gathered))
            (expand_rows (concat (c_nsegments <$> without_none gathered)))
            (concat (c_column_idxs <$> without_none gathered))
            (length (concat (c_nsegments <$> without_none gathered)),
             nvoronoi (cfg it))
          = Ok (assembled it (without_none gathered))) as ->.
  { destruct (expand_rows_spec
                (concat (c_nsegments <$> without_none gathered)))
      as (Hlen & _ & _ & Hrows).
    unfold coo_matrix. rewrite Hlen, sum_list_concat, <-list_fmap_compose.
    rewrite (length_concat_fmap c_nonzero_values (sum_list ∘ c_nsegments)).
    2:{ eapply Forall_impl; [exact Hall|]. by intros c (_ & ? & _). }
    rewrite (length_concat_fmap c_column_idxs (sum_list ∘ c_nsegments)).
    2:{ eapply Forall_impl; [exact Hall|]. by intros c (? & _). }
    rewrite !Nat.eqb_refl. cbn [andb negb fst snd].
    assert (forallb
              (λ i, i <? length (concat (c_nsegments <$> without_none gathered)))
              (expand_rows (concat (c_nsegments <$> without_none gathered)))
            = true) as ->.
    { apply forallb_forall. intros i Hi%list_elem_of_In. apply Nat.ltb_lt.
      rewrite Forall_forall in Hrows. by apply Hrows. }
    cbn [negb].
    assert (forallb (λ j, j <? nvoronoi (cfg it))
              (concat (c_column_idxs <$> without_none gathered)) = true) as ->.
    { apply forallb_forall. intros j Hj. apply Nat.ltb_lt.
      apply in_concat in Hj as (l & Hl%list_elem_of_In & Hj%list_elem_of_In).
      apply list_elem_of_fmap in Hl as (c & -> & Hc).
      rewrite Forall_forall in Hall. destruct (Hall c Hc) as (_ & _ & _ & Hcols).
      rewrite Forall_forall in Hcols. by apply Hcols. }
    done. }
  rewrite bind_lift_ok, !bind_modify. reflexivity.
Qed.

(** When at least one rank hands in arrays and every rank's arrays are
    consistent, the ROOT branch of [_compute_sensitivity_matrix] stores
    a matrix with one row per gathered segment count and [nvoronoi]
    columns, whose row [i] holds [nsegments[i]] entries, together with a
    residual vector with one entry per row; the values, columns and
    residuals are the concatenations, in rank order, of what the ranks
    handed in, and nothing else of the object changes. *)
Theorem sensitivity_matrix_pairs_rows_with_residuals
    (gathered : list (option (contribution F))) (it : iterator F E) :
  without_none gathered ≠ [] →
  Forall (consistent (nvoronoi (cfg it))) (without_none gathered) →
  let cs := without_none gathered in
  let nsegments := concat (c_nsegments <$> cs) in
  let o := compile_sensitivity_matrix gathered it in
  let A := sensitivity_matrix (final o) in
  value o = Ok true
  ∧ final o = set_residuals (concat (c_residuals <$> cs))
                (set_sensitivity_matrix A it)
  ∧ coo_nrows A = length nsegments
  ∧ coo_ncols A = nvoronoi (cfg it)
  ∧ coo_data A = concat (c_nonzero_values <$> cs)
  ∧ coo_col A = concat (c_column_idxs <$> cs)
  ∧ length (residuals (final o)) = coo_nrows A
  ∧ ∀ i, length (filter (λ e, e.1.1 = i) (coo_entries A))
         = default 0 (nsegments !! i).
Proof.
  intros Hne Hall. cbv zeta. rewrite (compile_known gathered it Hne Hall).
  cbn [final value sensitivity_matrix residuals set_residuals
       set_sensitivity_matrix]. unfold assembled.
  cbn [coo_nrows coo_ncols coo_data coo_col].
  split_and!; try done.
  - rewrite (length_concat_fmap c_residuals (length ∘ c_nsegments)).
    2:{ eapply Forall_impl; [exact Hall|]. by intros c (_ & _ & ? & _). }
    rewrite (length_concat_fmap c_nsegments (length ∘ c_nsegments)); [done|].
    by apply Forall_forall.
  - intros i. unfold coo_entries. cbn [coo_row coo_col coo_data].
    destruct (expand_rows_spec
                (concat (c_nsegments <$> without_none gathered)))
      as (Hlen & Hcount & _).
    rewrite count_entries_in_row; [apply Hcount| |].
    + rewrite Hlen, sum_list_concat, <-list_fmap_compose.
      apply (length_concat_fmap c_column_idxs (sum_list ∘ c_nsegments)).
      eapply Forall_impl; [exact Hall|]. by intros c (? & _).
    + rewrite Hlen, sum_list_concat, <-list_fmap_compose.
      apply (length_concat_fmap c_nonzero_values (sum_list ∘ c_nsegments)).
      eapply Forall_impl; [exact Hall|]. by intros c (_ & ? & _).
Qed.

(** When no rank hands in anything, as in a run of ROOT alone where the
    gather returns ROOT's own [None] and nothing else, the first
    [np.concatenate] gets an empty list and raises [ValueError]; the
    object keeps its sensitivity matrix and residuals. *)
Theorem sensitivity_matrix_needs_a_contribution
    (gathered : list (option (contribution F))) (it : iterator F E) :
  Forall (λ g, g = None) gathered →
  compile_sensitivity_matrix gathered it
  = mkOutcome it []
      (Raise (ValueError "need at least one array to concatenate")).
Proof.
  intros Hall. unfold compile_sensitivity_matrix.
  rewrite bind_get, !without_none_fmap.
  assert (without_none gathered = []) as ->.
  { unfold without_none. induction Hall as [|g gathered -> _ IH]; [done|].
    exact IH. }
  erewrite bind_raises; reflexivity.
Qed.

Lemma compile_cases (gathered : list (option (contribution F)))
    (it : iterator F E) :
  (raised (value (compile_sensitivity_matrix gathered it))
   ∧ final (compile_sensitivity_matrix gathered it) = it)
  ∨ compile_sensitivity_matrix gathered it
    = mkOutcome
        (set_residuals (concat (c_residuals <$> without_none gathered))
           (set_sensitivity_matrix (assembled it (without_none gathered)) it))
        [] (Ok true).
Proof.
  unfold compile_sensitivity_matrix.
  rewrite bind_get, !without_none_fmap.
  destruct (without_none gathered) as [|c cs] eqn:Hcs.
  { left. erewrite bind_raises by reflexivity. done. }
  rewrite <-Hcs.
  assert (∀ {B} (f : contribution F → list B),
            concatenate (f <$> without_none gathered)
            = Ok (concat (f <$> without_none gathered))) as Hcat.
  { intros B f. by rewrite Hcs. }
  rewrite !Hcat, !bind_lift_ok.
  destruct (coo_matrix (concat (c_nonzero_values <$> without_none gathered))
              (expand_rows (concat (c_nsegments <$> without_none gathered)))
              (concat (c_column_idxs <$> without_none gathered))
              (length (concat (c_nsegments <$> without_none gathered)),
               nvoronoi (cfg it))) as [m|e] eqn:Hm.
  - right. rewrite bind_lift_ok, !bind_modify.
    assert (m = assembled it (without_none gathered)) as ->; [|done].
    unfold coo_matrix in Hm.
    repeat match type of Hm with
           | (if ?b then _ else _) = _ => destruct b; [discriminate|]
           end.
    by injection Hm as <-.
  - left. erewrite bind_raises by reflexivity. done.
Qed.

(** C5.  When the ROOT branch of [_compute_sensitivity_matrix] returns,
    the row-index array of the matrix it stores is the one built from the
    concatenated segment counts of the ranks: row index [i] occurs
    exactly [nsegments[i]] times, the indices are in increasing order,
    there are as many as the counts add up to and all are below
    [len(nsegments)].  The matrix has shape [(len(nsegments), nvoronoi)],
    its values and columns are the concatenated values and columns, and
    with it the concatenated residuals are stored; there are as many
    residuals as rows when every rank hands in as many residuals as
    segment counts, as the loop of a worker is written to do.  Nothing
    else of the object changes. *)
Theorem sensitivity_matrix_rows_follow_segment_counts
    (gathered : list (option (contribution F))) (it : iterator F E) :
  value (compile_sensitivity_matrix gathered it) = Ok true →
  let cs := without_none gathered in
  let nsegments := concat (c_nsegments <$> cs) in
  let o := compile_sensitivity_matrix gathered it in
  let A := sensitivity_matrix (final o) in
  coo_row A = expand_rows nsegments
  ∧ length (coo_row A) = sum_list nsegments
  ∧ (∀ i, length (filter (λ r, r = i) (coo_row A))
          = default 0 (nsegments !! i))
  ∧ StronglySorted le (coo_row A)
  ∧ Forall (λ r, r < length nsegments) (coo_row A)
  ∧ coo_nrows A = length nsegments
  ∧ coo_ncols A = nvoronoi (cfg it)
  ∧ coo_data A = concat (c_nonzero_values <$> cs)
  ∧ coo_col A = concat (c_column_idxs <$> cs)
  ∧ residuals (final o) = concat (c_residuals <$> cs)
  ∧ (Forall (λ c, length (c_residuals c) = length (c_nsegments c)) cs →
     length (residuals (final o)) = coo_nrows A)
  ∧ final o = set_residuals (residuals (final o)) (set_sensitivity_matrix A it).
Proof.
  intros Hok. cbv zeta.
  destruct (compile_cases gathered it) as [[Hraised _]|Hbuilt].
  { by rewrite Hok in Hraised. }
  rewrite Hbuilt.
  cbn [final value sensitivity_matrix residuals set_residuals
       set_sensitivity_matrix]. unfold assembled.
  cbn [coo_nrows coo_ncols coo_data coo_col coo_row].
  destruct (expand_rows_spec (concat (c_nsegments <$> without_none gathered)))
    as (Hlen & Hcount & Hsorted & Hbound).
  split_and!; try done.
  intros Hres.
  rewrite (length_concat_fmap c_residuals (length ∘ c_nsegments)) by done.
  rewrite (length_concat_fmap c_nsegments (length ∘ c_nsegments)); [done|].
  by apply Forall_forall.
Qed.

End Assembly.

(** Rank 0 is ROOT and hands in nothing; rank 1 got the sentinel first
    and hands in four empty arrays; rank 2 hands in two arrivals, the
    first through cells 1 and 0, the second through cell 1. *)
Definition example_gathered : list (option (contribution float)) :=
  [None;
   Some (mkContribution [] [] [] []);
   Some (mkContribution [1; 0; 1] [2; 1] [3; 5; 7]%float [1; -1]%float)].

Lemma sensitivity_matrix_rows_follow_segment_counts_witness :
  value (compile_sensitivity_matrix example_gathered
           example_grid_iterator) = Ok true
  ∧ coo_row (sensitivity_matrix
               (final (compile_sensitivity_matrix example_gathered example_grid_iterator)))
    = [0; 0; 1]
  ∧ coo_nrows (sensitivity_matrix
                 (final (compile_sensitivity_matrix example_gathered example_grid_iterator))) = 2
  ∧ coo_ncols (sensitivity_matrix
                 (final (compile_sensitivity_matrix example_gathered example_grid_iterator))) = 2
  ∧ residuals (final (compile_sensitivity_matrix example_gathered example_grid_iterator))
    = [1; -1]%float.
Proof.
  assert (value (compile_sensitivity_matrix example_gathered
                   example_grid_iterator) = Ok true) as Hok
    by (vm_compute; reflexivity).
  destruct (sensitivity_matrix_rows_follow_segment_counts example_gathered
              example_grid_iterator Hok)
    as (Hrow & _ & _ & _ & _ & Hnrows & Hncols & _ & _ & Hres & _).
  split; [exact Hok|]. split; [exact Hrow|]. split; [exact Hnrows|].
  split; [exact Hncols|]. exact Hres.
Defined.

Lemma sensitivity_matrix_pairs_rows_with_residuals_witness :
  without_none example_gathered ≠ []
  ∧ Forall (consistent (nvoronoi (cfg example_grid_iterator)))
      (without_none example_gathered)
  ∧ value (compile_sensitivity_matrix example_gathered
             example_grid_iterator) = Ok true
  ∧ length (residuals (final (compile_sensitivity_matrix example_gathered example_grid_iterator)))
    = 2.
Proof.
  assert (without_none example_gathered ≠ []) as Hne by discriminate.
  assert (Forall (consistent (nvoronoi (cfg example_grid_iterator)))
            (without_none example_gathered)) as Hall.
  { repeat constructor; simpl; lia. }
  destruct (sensitivity_matrix_pairs_rows_with_residuals example_gathered
              example_grid_iterator Hne Hall)
    as (Hvalue & _ & Hrows & _ & _ & _ & Hres & _).
  split; [exact Hne|]. split; [exact Hall|]. split; [exact Hvalue|].
  rewrite Hres, Hrows. reflexivity.
Defined.

Lemma sensitivity_matrix_needs_a_contribution_witness :
  Forall (λ g, g = None) [None (A := contribution float)]
  ∧ compile_sensitivity_matrix [None] example_grid_iterator
    = mkOutcome example_grid_iterator []
        (Raise (ValueError "need at least one array to concatenate")).
Proof.
  assert (Forall (λ g, g = None) [None (A := contribution float)]) as Hall
    by (repeat constructor).
  split; [exact Hall|].
  exact (sensitivity_matrix_needs_a_contribution [None] example_grid_iterator
           Hall).
Defined.

(** ** The worker branch of [_compute_sensitivity_matrix] *)

Section Worker.

Context {F : Type}.

(** A pykonal field (a traveltime or velocity grid) and the rows of the
    arrivals table that belong to one station. *)
Context {Field Rows : Type}.

(** [arrivals.loc[(network, station)].set_index("event_id")] and
    [pykonal.fields.load] on a path and on a field; each returns or
    raises. *)
Variable loc : list (arrival F) → string * string → result Rows.
Variable fields_load : string → result Field.
Variable fields_load_value : Field → result Field.

(** Lines 323 to 340: the loop over the station's arrivals, from the
    traveltime field, the velocity field, the rows and the four arrays
    to the four arrays. *)
Variable trace_arrivals :
  Field → Field → Rows → contribution F → result (contribution F).

(** Reading a local name of the function: [vel] is local to
    [_compute_sensitivity_matrix] because line 321 assigns to it, and it
    holds no value until that assignment has been carried out. *)
Definition read_local {A} (name : string) (v : option A) : result A :=
  match v with
  | Some a => Ok a
  | None => Raise (UnboundLocalError name)
  end.

(** One pass through the body of the [while] loop for a task, lines 310
    to 340, from the binding of [vel] and the four arrays to their new
    values. *)
Definition process_task (traveltime_dir phase : string)
    (arrivals : list (arrival F)) (vel : option Field) (acc : contribution F)
    (task : string * string) : result (option Field * contribution F) :=
  let network := task.1 in
  let station := task.2 in
  _arrivals ← loc arrivals (network, station);
  let path :=
    path_join traveltime_dir
      (network +:+ "." +:+ station +:+ "." +:+ phase +:+ ".npz") in
  traveltime ← fields_load path;
  v ← read_local "vel" vel;
  vel ← fields_load_value v;
  acc ← trace_arrivals traveltime vel _arrivals acc;
  Ok (Some vel, acc).

(** How the branch ends when it does not raise: with the four gathers
    and the [break], or waiting in [COMM.recv] for an item that has not
    come. *)
Inductive worker_end : Type :=
  | Gathered (handed_in : contribution F)
  | Receiving.

(** The [while True] loop over the items [_request_dispatch] returns. *)
Fixpoint worker_loop (traveltime_dir phase : string)
    (arrivals : list (arrival F)) (vel : option Field) (acc : contribution F)
    (items : list (option (string * string))) : result worker_end :=
  match items with
  | [] => Ok Receiving
  | None :: _ => Ok (Gathered acc)
  | Some task :: rest =>
      '(vel, acc) ← process_task traveltime_dir phase arrivals vel acc task;
      worker_loop traveltime_dir phase arrivals vel acc rest
  end.

(** The branch from its start: four empty arrays and [vel] unbound. *)
Definition worker_branch (traveltime_dir phase : string)
    (arrivals : list (arrival F)) (items : list (option (string * string))) :
    result worker_end :=
  worker_loop traveltime_dir phase arrivals None (mkContribution [] [] [] [])
    items.

End Worker.

Arguments worker_end : clear implicits.
Arguments Receiving {F}.
Arguments Gathered {F}.

(** C9 (as amended).  On a worker, the first task
    [_compute_sensitivity_matrix] is handed makes it raise, before
    anything is added to the four arrays.  When the station's arrivals
    and its traveltime file are there, the exception is the
    [UnboundLocalError] (a [NameError]) for [vel] at line 321; when
    reading the arrivals or loading the traveltime file raises, it is
    that earlier exception.  The lines after 321, with [vel_invert] and
    the accumulation into the four arrays, are never reached, so the
    outcome is the same whatever they do.  The branch gets to its
    gathers exactly when the first item it receives is the sentinel, and
    then hands in four empty arrays. *)
Theorem worker_branch_raises_on_first_task {F Field Rows : Type}
    (loc : list (arrival F) → string * string → result Rows)
    (fields_load : string → result Field)
    (fields_load_value : Field → result Field)
    (trace_arrivals :
       Field → Field → Rows → contribution F → result (contribution F))
    (traveltime_dir phase : string) (arrivals : list (arrival F)) :
  let branch :=
    worker_branch loc fields_load fields_load_value trace_arrivals
      traveltime_dir phase arrivals in
  let path network station :=
    path_join traveltime_dir
      (network +:+ "." +:+ station +:+ "." +:+ phase +:+ ".npz") in
  (∀ task rest, raised (branch (Some task :: rest)))
  ∧ (∀ network station rest rows traveltime,
       loc arrivals (network, station) = Ok rows →
       fields_load (path network station) = Ok traveltime →
       branch (Some (network, station) :: rest)
       = Raise (UnboundLocalError "vel")
       ∧ is_NameError (UnboundLocalError "vel") = true)
  ∧ (∀ network station rest e,
       loc arrivals (network, station) = Raise e →
       branch (Some (network, station) :: rest) = Raise e)
  ∧ (∀ network station rest rows e,
       loc arrivals (network, station) = Ok rows →
       fields_load (path network station) = Raise e →
       branch (Some (network, station) :: rest) = Raise e)
  ∧ (∀ items handed_in,
       branch items = Ok (Gathered handed_in) ↔
       head items = Some None ∧ handed_in = mkContribution [] [] [] [])
  ∧ (∀ items
       (other : Field → Field → Rows → contribution F → result (contribution F)),
       branch items
       = worker_branch loc fields_load fields_load_value other
           traveltime_dir phase arrivals items).
Proof.
  cbv zeta. unfold worker_branch. split_and!.
  - intros [network station] rest. cbn [worker_loop].
    unfold process_task. cbn [fst snd].
    destruct (loc arrivals (network, station)) as [rows|e]; [|done].
    cbn [mbind result_bind].
    by destruct (fields_load _) as [traveltime|e].
  - intros network station rest rows traveltime Hrows Hload.
    cbn [worker_loop]. unfold process_task. cbn [fst snd].
    rewrite Hrows. cbn [mbind result_bind]. rewrite Hload. done.
  - intros network station rest e Hrows.
    cbn [worker_loop]. unfold process_task. cbn [fst snd].
    rewrite Hrows. done.
  - intros network station rest rows e Hrows Hload.
    cbn [worker_loop]. unfold process_task. cbn [fst snd].
    rewrite Hrows. cbn [mbind result_bind]. rewrite Hload. done.
  - intros [|[[network station]|] rest] handed_in.
    + split; [done|]. by intros [? _].
    + cbn [worker_loop]. unfold process_task. cbn [fst snd].
      destruct (loc arrivals (network, station)) as [rows|e];
        cbn [mbind result_bind]; [|split; [done|by intros [? _]]].
      destruct (fields_load _) as [traveltime|e];
        cbn [mbind result_bind read_local]; split; try done; by intros [? _].
    + cbn [worker_loop head]. split; [by intros [= <-]|by intros [_ ->]].
  - intros [|[[network station]|] rest] other; [done| |done].
    cbn [worker_loop]. unfold process_task. cbn [fst snd].
    destruct (loc arrivals (network, station)) as [rows|e]; [|done].
    cbn [mbind result_bind].
    by destruct (fields_load _) as [traveltime|e].
Qed.

(** C9 as stated fails: a task whose traveltime file is missing makes
    the worker raise the [FileNotFoundError] of [pykonal.fields.load] at
    line 318, which is no [NameError]; [vel] is not read. *)
Lemma worker_task_without_traveltime_file :
  worker_branch (F := float) (Field := unit) (Rows := unit)
    (λ _ _, Ok ()) (λ path, Raise (FileNotFoundError path))
    (λ _, Ok ()) (λ _ _ _ acc, Ok acc)
    "traveltimes" "P" [] [Some ("XX", "STA")]
  = Raise (FileNotFoundError "traveltimes/XX.STA.P.npz")
  ∧ is_NameError (FileNotFoundError "traveltimes/XX.STA.P.npz") = false.
Proof. split; reflexivity. Qed.

(** ** The file names of [save] *)

Lemma pretty_N_go_length (x : N) : ∀ s,
  String.length s ≤ String.length (pretty_N_go x s).
Proof.
  induction (N.lt_wf_0 x) as [x _ IH]; intros s.
  assert (x = 0 ∨ 0 < x)%N as [->|Hpos] by lia; [by rewrite pretty_N_go_0|].
  rewrite pretty_N_go_step by done.
  etrans; [|by eapply IH, N.div_lt]. simpl. lia.
Qed.

Lemma pretty_digit (x : N) :
  (x < 10)%N → pretty x = String (pretty_N_char x) "".
Proof.
  intros Hx. unfold pretty, pretty_N. case_decide as H0; [by subst|].
  rewrite pretty_N_go_step by lia.
  rewrite N.div_small, N.mod_small by done. apply pretty_N_go_0.
Qed.

Lemma pretty_two_digits (x : N) :
  (10 ≤ x < 100)%N →
  pretty x
  = String (pretty_N_char (x `div` 10))
      (String (pretty_N_char (x `mod` 10)) "")
  ∧ (1 ≤ x `div` 10 < 10)%N.
Proof.
  intros Hx.
  assert (1 ≤ x `div` 10 < 10)%N as Hd.
  { split.
    - apply N.div_le_lower_bound; lia.
    - apply N.Div0.div_lt_upper_bound; lia. }
  split; [|done].
  unfold pretty, pretty_N. rewrite decide_False by lia.
  rewrite pretty_N_go_step by lia.
  rewrite pretty_N_go_step by lia.
  rewrite (N.div_small (x `div` 10)), (N.mod_small (x `div` 10)) by lia.
  apply pretty_N_go_0.
Qed.

Lemma pretty_three_digits (x : N) :
  (100 ≤ x)%N → 3 ≤ String.length (pretty x).
Proof.
  intros Hx. unfold pretty, pretty_N. rewrite decide_False by lia.
  assert (10 ≤ x `div` 10)%N by (apply N.div_le_lower_bound; lia).
  assert (1 ≤ x `div` 10 `div` 10)%N by (apply N.div_le_lower_bound; lia).
  rewrite pretty_N_go_step by lia.
  rewrite pretty_N_go_step by lia.
  rewrite pretty_N_go_step by lia.
  etrans; [|apply pretty_N_go_length]. simpl. lia.
Qed.

Lemma pretty_N_char_0 (x : N) :
  (1 ≤ x < 10)%N → pretty_N_char x ≠ "0"%char.
Proof.
  intros Hx.
  assert (x = 1 ∨ x = 2 ∨ x = 3 ∨ x = 4 ∨ x = 5 ∨ x = 6
          ∨ x = 7 ∨ x = 8 ∨ x = 9)%N by lia.
  naive_solver.
Qed.

Lemma format_02d_inj (i j : nat) : format_02d i = format_02d j → i = j.
Proof.
  unfold format_02d.
  assert (∀ a b : nat, a < 10 → 10 ≤ b → "0" +:+ pretty a ≠ pretty b) as Hmixed.
  { intros a b Ha Hb Heq. unfold pretty, pretty_nat in Heq.
    rewrite (pretty_digit (N.of_nat a)) in Heq by lia.
    destruct (decide (b < 100)) as [Hb'|Hb'].
    - destruct (pretty_two_digits (N.of_nat b)) as [Hpretty Hd]; [lia|].
      rewrite Hpretty in Heq. cbn in Heq. injection Heq as Hc _.
      by apply (pretty_N_char_0 _ Hd).
    - assert (3 ≤ String.length (pretty (N.of_nat b))) as Hlen
        by (apply pretty_three_digits; lia).
      rewrite <-Heq in Hlen. change (3 ≤ 2) in Hlen. lia. }
  destruct (i <? 10) eqn:Hi; destruct (j <? 10) eqn:Hj.
  - intros Heq. apply (inj (String.append "0")) in Heq. by apply (inj pretty).
  - apply Nat.ltb_lt in Hi. apply Nat.ltb_ge in Hj.
    intros Heq. by destruct (Hmixed i j).
  - apply Nat.ltb_ge in Hi. apply Nat.ltb_lt in Hj.
    intros Heq. by destruct (Hmixed j i).
  - apply (inj pretty).
Qed.

Lemma path_join_inj (dir a b : string) : path_join dir a = path_join dir b → a = b.
Proof.
  unfold path_join. destruct (decide (dir = "")); [done|].
  destruct (ends_with_slash dir).
  - apply (inj (String.append dir)).
  - intros Heq. apply (inj (String.append dir)) in Heq.
    by apply (inj (String.append "/")) in Heq.
Qed.

(** The files [save] writes for different iterations have different
    names: two iteration counters never give the same path prefix
    [os.path.join(output_dir, f"{iiter:02d}")], so the files of an
    earlier iteration are not overwritten by a later one. *)
Theorem save_paths_differ_between_iterations (output_dir : string) (i j : nat) :
  i ≠ j →
  path_join output_dir (format_02d i) ≠ path_join output_dir (format_02d j).
Proof.
  intros Hne Heq. apply Hne. by apply format_02d_inj, (path_join_inj output_dir).
Qed.

Lemma save_paths_differ_between_iterations_witness :
  9 ≠ 10 ∧ path_join "output" (format_02d 9) = "output/09"
  ∧ path_join "output" (format_02d 10) = "output/10"
  ∧ path_join "output" (format_02d 9) ≠ path_join "output" (format_02d 10).
Proof.
  split; [lia|]. split; [reflexivity|]. split; [reflexivity|].
  apply save_paths_differ_between_iterations. lia.
Defined.

(** ** Failures of [_sample_arrivals] *)

Section Sampling.

Context `{Scalar F} {E : Type}.

Variable quantiles : list F → F * F.
Variable sample : nat → list (arrival F) → list (arrival F).


End Sampling.

(** An empty fence: when the lower bound is not below the upper one (as
    when the quartiles coincide, the interquartile range being 0), the
    strict comparisons remove every arrival of the phase, in float64
    arithmetic, and [_sample_arrivals] raises [ValueError] for every
    [narrival >= 1], leaving the object as it was. *)
Theorem empty_fence_leaves_nothing_to_sample {E}
    (quantiles : list float → float * float)
    (sample : nat → list (arrival float) → list (arrival float))
    (ph : string) (it : iterator float E) :
  let arrs := of_phase ph (arrivals it) in
  let fence :=
    tukey_fence (H := float64) quantiles (outlier_removal_factor (cfg it))
      (residual <$> arrs) in
  PrimFloat.ltb fence.1 fence.2 = false →
  2 ≤ length arrs →
  1 ≤ narrival (cfg it) →
  remove_outliers (H := float64) quantiles (outlier_removal_factor (cfg it)) arrs
  = []
  ∧ _sample_arrivals (H := float64) quantiles sample ph it
    = mkOutcome it []
        (Raise (ValueError
                  "Cannot take a larger sample than population when 'replace=False'")).
Proof.
  cbv zeta. intros Hfence Hlen Hn.
  assert (remove_outliers (H := float64) quantiles
            (outlier_removal_factor (cfg it)) (of_phase ph (arrivals it)) = [])
    as Hkept.
  { unfold remove_outliers. cbv zeta.
    apply filter_none. apply Forall_forall. intros a _ Hboth.
    apply andb_True in Hboth as [Hlo Hhi].
    apply Is_true_true in Hlo, Hhi.
    pose proof (float64_ltb_trans _ _ _ Hlo Hhi) as Hlt.
    cbn [s_ltb float64] in Hlt. by rewrite Hfence in Hlt. }
  split; [exact Hkept|].
  unfold _sample_arrivals. rewrite !bind_get.
  rewrite decide_False.
  2:{ intros Hnil. rewrite Hnil in Hlen. simpl in Hlen. lia. }
  rewrite bind_ret, Hkept.
  assert (narrival (cfg it) <=? length (@nil (arrival float)) = false) as ->.
  { apply Nat.leb_gt. simpl. lia. }
  erewrite bind_raises by reflexivity. reflexivity.
Qed.

(** Three P arrivals with the same residual: both quartiles are 1, the
    fence is [(1, 1)]. *)
Definition example_flat_iterator : iterator float unit :=
  mkIterator (example_cfg (H := float64))
    [mkArrival "NW" "STA" "P" 100%float 1%float 1%Z;
     mkArrival "NW" "STB" "P" 100%float 1%float 2%Z;
     mkArrival "NW" "STC" "P" 100%float 1%float 3%Z]
    () 1 (example_projection (H := float64))
    (mkModel [] [] [1; 1; 2] []) (mkModel [] [] [1; 1; 2] [])
    None None [] (example_sensitivity (H := float64)) [] [].

Lemma empty_fence_leaves_nothing_to_sample_witness :
  tukey_fence (H := float64) (quartiles_linear (H := float64))
    (outlier_removal_factor (cfg example_flat_iterator))
    (residual <$> of_phase "P" (arrivals example_flat_iterator))
  = (1%float, 1%float)
  ∧ PrimFloat.ltb 1 1 = false
  ∧ 2 ≤ length (of_phase "P" (arrivals example_flat_iterator))
  ∧ 1 ≤ narrival (cfg example_flat_iterator)
  ∧ _sample_arrivals (H := float64) (quartiles_linear (H := float64))
      (λ n arrs, take n arrs) "P" example_flat_iterator
    = mkOutcome example_flat_iterator []
        (Raise (ValueError
                  "Cannot take a larger sample than population when 'replace=False'")).
Proof.
  assert (2 ≤ length (of_phase "P" (arrivals example_flat_iterator))) as Hlen
    by (vm_compute; lia).
  assert (1 ≤ narrival (cfg example_flat_iterator)) as Hn by (vm_compute; lia).
  split; [vm_compute; reflexivity|]. split; [reflexivity|].
  split; [exact Hlen|]. split; [exact Hn|].
  exact (proj2 (empty_fence_leaves_nothing_to_sample
                  (quartiles_linear (H := float64)) (λ n arrs, take n arrs)
                  "P" example_flat_iterator
                  ltac:(vm_compute; reflexivity) Hlen Hn)).
Defined.

(** ** The first iteration *)

Section FirstIteration.

Context `{Scalar F} {E : Type}.

Variable lsmr : coo F → list F → F → F → F → F → nat → list F.

(** On a fresh object (no realization yet), one [_compute_model_update]
    per phase followed by [update_models] returns [True] and puts into
    each model the velocity its update computed from the model, divided
    by 1 (the mean of a single realization); each stack holds that one
    realization. *)
Theorem single_realizations_become_the_models (it : iterator F E) :
  _pwave_realization_stack it = None →
  _swave_realization_stack it = None →
  update_ready lsmr "P" it →
  update_ready lsmr "S" it →
  let it1 := final (_compute_model_update lsmr "P" it) in
  let it2 := final (_compute_model_update lsmr "S" it1) in
  let o := update_models it2 in
  value o = Ok true
  ∧ values (pwave_model (final o))
    = (λ v, s_div v (s_of_nat 1)) <$> updated_velocity lsmr "P" it
  ∧ values (swave_model (final o))
    = (λ v, s_div v (s_of_nat 1)) <$> updated_velocity lsmr "S" it
  ∧ _pwave_realization_stack (final o) = Some [updated_velocity lsmr "P" it]
  ∧ _swave_realization_stack (final o) = Some [updated_velocity lsmr "S" it].
Proof.
  intros Hp Hs HrP HrS. cbv zeta.
  rewrite (model_update_known lsmr "P" it (or_introl eq_refl) HrP).
  cbn [final].
  assert (append_realization "P" (updated_velocity lsmr "P" it) it
          = set_pwave_realization_stack
              (Some [updated_velocity lsmr "P" it]) it) as ->.
  { unfold append_realization. rewrite decide_True by done. by rewrite Hp. }
  set (it1 := set_pwave_realization_stack _ it).
  assert (update_ready lsmr "S" it1) as HrS1 by exact HrS.
  rewrite (model_update_known lsmr "S" it1 (or_intror eq_refl) HrS1).
  cbn [final].
  assert (append_realization "S" (updated_velocity lsmr "S" it1) it1
          = set_swave_realization_stack
              (Some [updated_velocity lsmr "S" it]) it1) as ->.
  { unfold append_realization. rewrite decide_False by done.
    change (_swave_realization_stack it1) with (_swave_realization_stack it).
    by rewrite Hs. }
  set (it2 := set_swave_realization_stack _ it1).
  rewrite (update_models_known it2
             [updated_velocity lsmr "P" it] [updated_velocity lsmr "S" it]
             [updated_velocity lsmr "P" it] [updated_velocity lsmr "S" it]
             eq_refl eq_refl eq_refl eq_refl).
  cbn [value final].
  pose proof (mean0_replicate 0 (updated_velocity lsmr "P" it)) as HmP.
  pose proof (mean0_replicate 0 (updated_velocity lsmr "S" it)) as HmS.
  change (replicate 1 ?v) with [v] in HmP, HmS.
  cbn [swave_model pwave_model set_swave_model set_pwave_model values
       set_values].
  rewrite HmP, HmS. done.
Qed.

End FirstIteration.

Lemma single_realizations_become_the_models_witness :
  _pwave_realization_stack example_update_iterator = None
  ∧ _swave_realization_stack example_update_iterator = None
  ∧ update_ready example_lsmr "P" example_update_iterator
  ∧ update_ready example_lsmr "S" example_update_iterator
  ∧ value (update_models (H := float64)
             (final (_compute_model_update (H := float64) example_lsmr "S"
                       (final (_compute_model_update (H := float64)
                                 example_lsmr "P" example_update_iterator)))))
    = Ok true
  ∧ values (pwave_model
              (final (update_models (H := float64)
                        (final (_compute_model_update (H := float64)
                                  example_lsmr "S"
                                  (final (_compute_model_update (H := float64)
                                            example_lsmr "P"
                                            example_update_iterator)))))))
    = [1; 2]%float.
Proof.
  assert (update_ready example_lsmr "P" example_update_iterator)
    as HrP by (vm_compute; repeat split).
  assert (update_ready example_lsmr "S" example_update_iterator)
    as HrS by (vm_compute; repeat split).
  destruct (single_realizations_become_the_models (H := float64) example_lsmr
              example_update_iterator eq_refl eq_refl HrP HrS)
    as (Hvalue & Hpm & _).
  split; [reflexivity|]. split; [reflexivity|].
  split; [exact HrP|]. split; [exact HrS|]. split; [exact Hvalue|].
  rewrite Hpm. vm_compute. reflexivity.
Defined.

(** ** [_projected_ray_idxs] *)

(** [np.unique(a, return_counts=True)] on an array of indices: the
    distinct values in increasing order and how often each occurs,
    kept as a table from value to count while the array is gone
    through. *)
Fixpoint count_in (x : nat) (table : list (nat * nat)) : list (nat * nat) :=
  match table with
  | [] => [(x, 1)]
  | (y, n) :: rest =>
      if decide (x = y) then (y, S n) :: rest
      else if decide (x < y) then (x, 1) :: (y, n) :: rest
      else (y, n) :: count_in x rest
  end.

Definition unique_counts (a : list nat) : list nat * list nat :=
  let table := foldr count_in [] a in
  (table.*1, table.*2).

(** The count a table holds for a value. *)
Definition tally (c : nat) (table : list (nat * nat)) : nat :=
  sum_list_with (λ p, if decide (p.1 = c) then p.2 else 0) table.

Lemma count_in_keys (P : nat → Prop) x table :
  P x → Forall P table.*1 → Forall P (count_in x table).*1.
Proof.
  intros Hx. induction table as [|[y n] rest IH]; intros Hall.
  - by repeat constructor.
  - apply Forall_cons in Hall as [Hy Hrest]. cbn [count_in].
    repeat case_decide; csimpl; repeat constructor; auto.
Qed.

Lemma count_in_sorted x table :
  StronglySorted lt table.*1 → StronglySorted lt (count_in x table).*1.
Proof.
  induction table as [|[y n] rest IH]; intros Hsorted.
  - repeat constructor.
  - csimpl in Hsorted. apply StronglySorted_inv in Hsorted as [Hrest Hall].
    cbn [count_in]. repeat case_decide; csimpl.
    + by constructor.
    + constructor; [by constructor|].
      constructor; [done|]. eapply Forall_impl; [exact Hall|].
      simpl. intros k ?. lia.
    + constructor; [by apply IH|].
      apply count_in_keys; [|done]. simpl in *. lia.
Qed.

Lemma count_in_sum x table :
  sum_list (count_in x table).*2 = S (sum_list table.*2).
Proof.
  induction table as [|[y n] rest IH]; [done|].
  cbn [count_in]. repeat case_decide; csimpl; [done|done|].
  rewrite IH. lia.
Qed.

Lemma count_in_positive x table :
  Forall (λ p, 1 ≤ p.2) table → Forall (λ p, 1 ≤ p.2) (count_in x table).
Proof.
  induction 1 as [|[y n] rest Hy Hrest IH]; [repeat constructor|].
  cbn [count_in]. repeat case_decide; repeat constructor; simpl in *; auto; lia.
Qed.

Lemma count_in_tally c x table :
  tally c (count_in x table)
  = tally c table + (if decide (x = c) then 1 else 0).
Proof.
  unfold tally. induction table as [|[y n] rest IH].
  - simpl. repeat case_decide; lia.
  - cbn [count_in]. destruct (decide (x = y)) as [->|Hxy].
    + simpl. repeat case_decide; lia.
    + destruct (decide (x < y)).
      * simpl. repeat case_decide; lia.
      * simpl. rewrite IH. repeat case_decide; lia.
Qed.

Lemma tally_absent c table : c ∉ table.*1 → tally c table = 0.
Proof.
  unfold tally. induction table as [|[y n] rest IH]; [done|].
  csimpl. intros Hc. apply not_elem_of_cons in Hc as [Hne Hc].
  rewrite decide_False by done. by rewrite IH.
Qed.

Lemma tally_entry c n table :
  StronglySorted lt table.*1 → Forall (λ p, 1 ≤ p.2) table →
  (c, n) ∈ table ↔ 1 ≤ n ∧ tally c table = n.
Proof.
  induction table as [|[y m] rest IH]; intros Hsorted Hpos.
  - split; [by intros ?%not_elem_of_nil|]. unfold tally. simpl. lia.
  - csimpl in Hsorted. apply StronglySorted_inv in Hsorted as [Hrest Hall].
    apply Forall_cons in Hpos as [Hm Hpos]. simpl in Hm.
    assert (y ∉ rest.*1) as Hy.
    { intros Hin. rewrite Forall_forall in Hall. apply Hall in Hin. lia. }
    rewrite elem_of_cons.
    change (tally c ((y, m) :: rest))
      with ((if decide (y = c) then m else 0) + tally c rest).
    destruct (decide (y = c)) as [->|Hne].
    + rewrite (tally_absent c rest Hy). split.
      * intros [Heq|Hin]; [simplify_eq; lia|].
        destruct Hy. apply list_elem_of_fmap. by exists (c, n).
      * intros [_ <-]. left. f_equal. lia.
    + rewrite <-(IH Hrest Hpos). split; [|by right].
      intros [Heq|Hin]; [simplify_eq|done].
Qed.

Lemma tally_counts c (a : list nat) :
  tally c (foldr count_in [] a) = length (filter (λ x, x = c) a).
Proof.
  induction a as [|x a IH]; [done|].
  cbn [foldr]. rewrite count_in_tally, IH.
  destruct (decide (x = c)).
  - rewrite filter_cons_True by done. simpl. lia.
  - rewrite filter_cons_False by done. lia.
Qed.

Lemma length_filter_fmap {B} (f : B → nat) (c : nat) (l : list B) :
  length (filter (λ x, x = c) (f <$> l)) = length (filter (λ b, f b = c) l).
Proof.
  induction l as [|b l IH]; [done|]. csimpl.
  destruct (decide (f b = c)).
  - rewrite !filter_cons_True by done. simpl. by rewrite IH.
  - by rewrite !filter_cons_False.
Qed.

Lemma table_sorted (a : list nat) : StronglySorted lt (foldr count_in [] a).*1.
Proof. induction a as [|x a IH]; [constructor|]. by apply count_in_sorted. Qed.

Lemma table_positive (a : list nat) :
  Forall (λ p, 1 ≤ p.2) (foldr count_in [] a).
Proof. induction a as [|x a IH]; [constructor|]. by apply count_in_positive. Qed.

(** [np.unique] with counts: the values come out strictly increasing,
    each with the number of its occurrences. *)
Lemma unique_counts_spec (a : list nat) :
  length (unique_counts a).2 = length (unique_counts a).1
  ∧ sum_list (unique_counts a).2 = length a
  ∧ StronglySorted lt (unique_counts a).1
  ∧ ∀ c n, (c, n) ∈ zip (unique_counts a).1 (unique_counts a).2 ↔
           1 ≤ n ∧ n = length (filter (λ x, x = c) a).
Proof.
  unfold unique_counts. cbn [fst snd].
  pose proof (table_sorted a) as Hsorted.
  pose proof (table_positive a) as Hpos.
  split_and!.
  - by rewrite !length_fmap.
  - clear. induction a as [|x a IH]; [done|]. cbn [foldr].
    by rewrite count_in_sum, IH.
  - done.
  - intros c n. rewrite zip_fst_snd, (tally_entry c n _ Hsorted Hpos).
    rewrite tally_counts. naive_solver.
Qed.

Section Ray.

Context `{Scalar F} {E : Type}.

Variable sph2xyz : point F → point F.

Definition _projected_ray_idxs (raypath : list (point F)) :
    method F E (list nat * list nat) :=
  cells ← get voronoi_cells;
  let voronoi_cells := sph2xyz <$> cells in
  let raypath := sph2xyz <$> raypath in
  let column_idxs := query voronoi_cells <$> raypath in
  mret (unique_counts column_idxs).

(** [_projected_ray_idxs] returns, without touching the object, the
    Voronoi cells the ray passes through in strictly increasing order,
    each once, and beside each cell the number of points of the ray that
    are nearest to it; no cell has the count 0, and the counts add up to
    the number of points of the ray, so that every point of the ray is
    counted in exactly one cell. *)
Theorem ray_points_are_counted_once (raypath : list (point F))
    (it : iterator F E) :
  let o := _projected_ray_idxs raypath it in
  ∃ column_idxs counts,
    o = mkOutcome it [] (Ok (column_idxs, counts))
    ∧ length counts = length column_idxs
    ∧ sum_list counts = length raypath
    ∧ StronglySorted lt column_idxs
    ∧ ∀ c n, (c, n) ∈ zip column_idxs counts ↔
             1 ≤ n
             ∧ n = length (filter (λ p, cell_of sph2xyz it p = c) raypath).
Proof.
  cbv zeta. unfold _projected_ray_idxs. rewrite bind_get.
  set (column_idxs := query (sph2xyz <$> voronoi_cells it)
                        <$> (sph2xyz <$> raypath)).
  destruct (unique_counts_spec column_idxs) as (Hlen & Hsum & Hsorted & Hin).
  exists (unique_counts column_idxs).1, (unique_counts column_idxs).2.
  split_and!; [by destruct (unique_counts column_idxs)|done| |done|].
  - rewrite Hsum. unfold column_idxs. by rewrite !length_fmap.
  - intros c n. rewrite Hin. unfold column_idxs.
    rewrite <-list_fmap_compose, length_filter_fmap. done.
Qed.

End Ray.

(** ** [_generate_voronoi_cells_random], on ROOT *)

Section Cells.

Context `{Scalar F} {E : Type}.

(** [model.max_coords] (pykonal), and the rows of
    [np.random.rand(n, 3)] in the order they are drawn. *)
Variable max_coords : model F → list F.
Variable draw : nat → point F.

Definition rand (n : nat) : list (point F) := draw <$> seq 0 n.

(** The coordinate arrays of a model have three entries; they are
    combined with the three columns of the draws. *)
Definition as_point (a : list F) : result (point F) :=
  match a with
  | [x; y; z] => Ok (x, y, z)
  | _ => Raise (ValueError "operands could not be broadcast together")
  end.

(** [u * delta + min_coords] on one row. *)
Definition scale (lo hi u : point F) : point F :=
  (s_add (s_mul u.1.1 (s_sub hi.1.1 lo.1.1)) lo.1.1,
   s_add (s_mul u.1.2 (s_sub hi.1.2 lo.1.2)) lo.1.2,
   s_add (s_mul u.2 (s_sub hi.2 lo.2)) lo.2).

Definition _generate_voronoi_cells_random : method F E bool :=
  pm ← get pwave_model;
  min_coords ← lift (as_point (min_coords pm));
  max_coords ← lift (as_point (max_coords pm));
  c ← get cfg;
  let cells := scale min_coords max_coords <$> rand (nvoronoi c) in
  modify (set_voronoi_cells cells);;
  mret true.

Lemma random_cells_known it lo hi :
  as_point (min_coords (pwave_model it)) = Ok lo →
  as_point (max_coords (pwave_model it)) = Ok hi →
  _generate_voronoi_cells_random it
  = mkOutcome
      (set_voronoi_cells (scale lo hi <$> rand (nvoronoi (cfg it))) it)
      [] (Ok true).
Proof.
  intros Hlo Hhi. unfold _generate_voronoi_cells_random.
  rewrite bind_get, Hlo, bind_lift_ok, Hhi, bind_lift_ok, bind_get, bind_modify.
  reflexivity.
Qed.

Lemma nearest_from_lt (p : point F) : ∀ cells best dbest i,
  best < i → nearest_from best dbest i cells p < i + length cells.
Proof.
  induction cells as [|c cells IH]; intros best dbest i Hlt; simpl; [lia|].
  destruct (s_ltb (dist2 c p) dbest).
  - specialize (IH i (dist2 c p) (S i)). lia.
  - specialize (IH best dbest (S i)). lia.
Qed.

Lemma query_lt (cells : list (point F)) (p : point F) :
  cells ≠ [] → query cells p < length cells.
Proof.
  destruct cells as [|c cells]; [done|]. intros _. unfold query.
  pose proof (nearest_from_lt p cells 0 (dist2 c p) 1). simpl. lia.
Qed.

Variable sph2xyz : point F → point F.
Variable nodes : model F → list (point F).

(** When the coordinate arrays of the P-wave model have three entries
    each, [_generate_voronoi_cells_random] returns [True] having stored
    exactly [nvoronoi] cells and changed nothing else; and for
    [nvoronoi >= 1] the [_update_projection_matrix] that follows finds
    every column index in range and returns [True] too. *)
Theorem random_cells_fit_the_projection_matrix (it : iterator F E)
    (lo hi : point F) :
  as_point (min_coords (pwave_model it)) = Ok lo →
  as_point (max_coords (pwave_model it)) = Ok hi →
  let o := _generate_voronoi_cells_random it in
  value o = Ok true
  ∧ final o = set_voronoi_cells (voronoi_cells (final o)) it
  ∧ length (voronoi_cells (final o)) = nvoronoi (cfg it)
  ∧ (1 ≤ nvoronoi (cfg it) →
     value (_update_projection_matrix sph2xyz nodes (final o)) = Ok true).
Proof.
  intros Hlo Hhi. cbv zeta. rewrite (random_cells_known it lo hi Hlo Hhi).
  cbn [value final voronoi_cells set_voronoi_cells].
  assert (length (scale lo hi <$> rand (nvoronoi (cfg it))) = nvoronoi (cfg it))
    as Hlen.
  { unfold rand. by rewrite !length_fmap, length_seq. }
  split_and!; [done|done|done|]. intros Hn.
  rewrite update_projection_known; [done|].
  apply Forall_forall. intros node _. unfold cell_of.
  cbn [voronoi_cells set_voronoi_cells cfg].
  pose proof (query_lt (sph2xyz <$> (scale lo hi <$> rand (nvoronoi (cfg it))))
                (sph2xyz node)) as Hq.
  rewrite length_fmap, Hlen in Hq. apply Hq.
  intros Hnil. apply (f_equal length) in Hnil.
  rewrite length_fmap, Hlen in Hnil. simpl in Hnil. lia.
Qed.

End Cells.

(** A model box from 0 to 4 in every coordinate, every draw at the
    centre of the unit cube. *)
Definition example_max_coords : model float → list float :=
  λ _, [4; 4; 4]%float.

Definition example_draw : nat → point float := λ _, (0.5, 0.5, 0.5)%float.

Lemma random_cells_fit_the_projection_matrix_witness :
  as_point (min_coords (pwave_model example_update_iterator))
  = Ok (0, 0, 0)%float
  ∧ as_point (example_max_coords (pwave_model example_update_iterator))
    = Ok (4, 4, 4)%float
  ∧ voronoi_cells
      (final (_generate_voronoi_cells_random (H := float64)
                example_max_coords example_draw example_update_iterator))
    = [(2, 2, 2); (2, 2, 2)]%float
  ∧ value (_update_projection_matrix (H := float64) id example_nodes
             (final (_generate_voronoi_cells_random (H := float64)
                       example_max_coords example_draw
                       example_update_iterator)))
    = Ok true.
Proof.
  destruct (random_cells_fit_the_projection_matrix (H := float64)
              example_max_coords example_draw id example_nodes
              example_update_iterator
              (0, 0, 0)%float (4, 4, 4)%float eq_refl eq_refl)
    as (_ & _ & _ & Hnext).
  split; [reflexivity|]. split; [reflexivity|].
  split; [vm_compute; reflexivity|].
  exact (Hnext (le_S 1 1 (le_n 1))).
Defined.

End Iterator.

(** ** The station dictionary of the locator *)

Module Stations.

Lemma filter_no_match {B} (P : B → Prop) `{!∀ x, Decision (P x)} (l : list B) :
  Forall (λ x, ¬ P x) l → filter P l = [].
Proof.
  induction 1 as [|x l Hx _ IH]; [done|]. by rewrite filter_cons_False.
Qed.

Section StationDict.

(** Coordinates are triples; [geo2sph] (pykonal) turns geographic into
    spherical ones. *)
Context {P : Type}.

Variable geo2sph : P → P.

(** A row of the stations table. *)
Record station_row : Type := mkStation {
  row_network : string;
  row_station : string;
  row_coords : P
}.

Inductive io_error : Type := IOError (msg : string).

(** [f"{network}.{station}"] *)
Definition station_id (r : station_row) : string :=
  row_network r +:+ "." +:+ row_station r.

(** [station_dict(dataframe)]: [IOError] when a (network, station) pair
    occurs twice; otherwise the dict comprehension over the rows, in
    which a later row replaces an earlier one with the same key. *)
Definition dict_of (dataframe : list station_row) : gmap string P :=
  foldl (λ d r, <[station_id r := geo2sph (row_coords r)]> d) ∅ dataframe.

Definition station_dict (dataframe : list station_row) :
    io_error + gmap string P :=
  if decide (NoDup ((λ r, (row_network r, row_station r)) <$> dataframe)) then
    inr (dict_of dataframe)
  else inl (IOError "Multiple coordinates supplied for single station(s)").

Fixpoint has_dot (s : string) : bool :=
  match s with
  | EmptyString => false
  | String c s' => bool_decide (c = "."%char) || has_dot s'
  end.

Lemma dict_lookup (dataframe : list station_row) (k : string) :
  dict_of dataframe !! k
  = (geo2sph ∘ row_coords) <$> last (filter (λ r, station_id r = k) dataframe).
Proof.
  unfold dict_of.
  induction dataframe as [|r dataframe IH] using rev_ind; [done|].
  rewrite foldl_app, filter_app. cbn [foldl].
  destruct (decide (station_id r = k)) as [<-|Hne].
  - rewrite lookup_insert_eq, filter_cons_True by done.
    by rewrite filter_nil, last_snoc.
  - rewrite lookup_insert_ne, filter_cons_False by done.
    by rewrite filter_nil, app_nil_r.
Qed.

Lemma dict_size (dataframe : list station_row) :
  NoDup (station_id <$> dataframe) →
  size (dict_of dataframe) = length dataframe.
Proof.
  induction dataframe as [|r dataframe IH] using rev_ind; intros Hnd; [done|].
  rewrite fmap_app in Hnd. apply NoDup_app in Hnd as (Hnd & Hnew & _).
  unfold dict_of. rewrite foldl_app, length_app. cbn [foldl length].
  fold (dict_of dataframe).
  rewrite map_size_insert_None.
  - rewrite IH by done. lia.
  - rewrite dict_lookup.
    rewrite filter_no_match; [done|].
    apply Forall_forall. intros r' Hr' Heq. apply (Hnew (station_id r)).
    + apply list_elem_of_fmap. by exists r'.
    + csimpl. apply list_elem_of_here.
Qed.

Lemma station_id_inj_aux : ∀ n1 n2 s1 s2 : string,
  has_dot n1 = false → has_dot n2 = false →
  n1 +:+ "." +:+ s1 = n2 +:+ "." +:+ s2 → n1 = n2 ∧ s1 = s2.
Proof.
  induction n1 as [|c1 n1 IH]; intros [|c2 n2] s1 s2 H1 H2 Heq.
  - by simplify_eq/=.
  - cbn in Heq. injection Heq as <- _. cbn in H2.
    by rewrite bool_decide_eq_true_2 in H2.
  - cbn in Heq. injection Heq as -> _. cbn in H1.
    by rewrite bool_decide_eq_true_2 in H1.
  - cbn in Heq. injection Heq as -> Heq.
    cbn in H1, H2. apply orb_false_iff in H1 as [_ H1], H2 as [_ H2].
    destruct (IH n2 s1 s2 H1 H2 Heq) as [-> ->]. done.
Qed.

End StationDict.

Arguments station_row : clear implicits.
Arguments mkStation {P}.

(** [station_dict] raises [IOError] exactly when some (network,
    station) pair occurs in two rows.  Otherwise it returns a dict that
    holds, under every key, the spherical coordinates of the last row
    whose id [network.station] is that key, and no other key: of two
    stations with different codes but the same id (a dot may be part of
    a code) only the later one is kept. *)
Theorem station_dict_keeps_last_row_of_an_id {P} (geo2sph : P → P)
    (dataframe : list (station_row P)) :
  let pairs := (λ r, (row_network r, row_station r)) <$> dataframe in
  (¬ NoDup pairs ↔
   station_dict geo2sph dataframe
   = inl (IOError "Multiple coordinates supplied for single station(s)"))
  ∧ (NoDup pairs →
     ∃ d, station_dict geo2sph dataframe = inr d
          ∧ ∀ k, d !! k
                 = (geo2sph ∘ row_coords)
                   <$> last (filter (λ r, station_id r = k) dataframe)).
Proof.
  cbv zeta. unfold station_dict.
  destruct (decide (NoDup ((λ r, (row_network r, row_station r)) <$> dataframe)))
    as [Hnd|Hnd].
  - split; [split; [done|discriminate]|]. intros _.
    eexists. split; [reflexivity|]. apply dict_lookup.
  - split; [done|]. done.
Qed.

(** When no network code contains a dot, [station_dict] returns, for a
    table without repeated (network, station) pairs, a dict with exactly
    one entry per row, and every row finds its own coordinates,
    converted by [geo2sph], under its id. *)
Theorem station_dict_has_one_entry_per_station {P} (geo2sph : P → P)
    (dataframe : list (station_row P)) :
  Forall (λ r, has_dot (row_network r) = false) dataframe →
  NoDup ((λ r, (row_network r, row_station r)) <$> dataframe) →
  ∃ d, station_dict geo2sph dataframe = inr d
       ∧ size d = length dataframe
       ∧ ∀ r, r ∈ dataframe →
              d !! station_id r = Some (geo2sph (row_coords r)).
Proof.
  intros Hdots Hnd.
  assert (∀ r r', r ∈ dataframe → r' ∈ dataframe →
            station_id r = station_id r' →
            (row_network r, row_station r) = (row_network r', row_station r'))
    as Hinj.
  { intros r r' Hr Hr' Heq. rewrite Forall_forall in Hdots.
    destruct (station_id_inj_aux _ _ _ _ (Hdots r Hr) (Hdots r' Hr') Heq)
      as [-> ->]. done. }
  assert (NoDup (station_id <$> dataframe)) as Hids.
  { clear Hdots. induction dataframe as [|r dataframe IH]; [constructor|].
    csimpl in Hnd. apply NoDup_cons in Hnd as [Hnew Hnd]. csimpl.
    apply NoDup_cons. split.
    - intros Hin. apply list_elem_of_fmap in Hin as (r' & Heq & Hr').
      apply Hnew. apply list_elem_of_fmap. exists r'. split; [|done].
      apply Hinj; [apply list_elem_of_here|by apply list_elem_of_further|done].
    - apply IH; [done|]. intros r1 r2 Hr1 Hr2.
      apply Hinj; by apply list_elem_of_further. }
  unfold station_dict. rewrite decide_True by done.
  eexists. split; [reflexivity|]. split; [by apply dict_size|].
  intros r Hr. rewrite dict_lookup.
  assert (filter (λ r', station_id r' = station_id r) dataframe = [r]) as ->;
    [|done].
  clear Hdots Hinj Hnd.
  induction dataframe as [|r0 dataframe IH]; [by apply not_elem_of_nil in Hr|].
  csimpl in Hids. apply NoDup_cons in Hids as [Hnew Hids].
  apply elem_of_cons in Hr as [->|Hr].
  - rewrite filter_cons_True by done. f_equal.
    apply filter_no_match, Forall_forall.
    intros r' Hr' Heq. apply Hnew. apply list_elem_of_fmap. by exists r'.
  - rewrite filter_cons_False; [by apply IH|].
    intros Heq. apply Hnew. apply list_elem_of_fmap. by exists r.
Qed.

(** Three stations of two networks; two of them share the station
    code. *)
Definition example_stations : list (station_row (Z * Z * Z)) :=
  [mkStation "CI" "PAS" (34, -118, 0)%Z; mkStation "CI" "USC" (34, -118, 1)%Z;
   mkStation "AZ" "PAS" (33, -116, 2)%Z].

Lemma station_dict_has_one_entry_per_station_witness :
  Forall (λ r, has_dot (row_network r) = false) example_stations
  ∧ NoDup ((λ r, (row_network r, row_station r)) <$> example_stations)
  ∧ ∃ d, station_dict id example_stations = inr d
         ∧ size d = 3
         ∧ d !! "AZ.PAS" = Some (33, -116, 2)%Z.
Proof.
  assert (Forall (λ r, has_dot (row_network r) = false) example_stations)
    as Hdots by (repeat constructor).
  assert (NoDup ((λ r, (row_network r, row_station r)) <$> example_stations))
    as Hnd by (apply (bool_decide_unpack _); vm_compute; exact I).
  split; [exact Hdots|]. split; [exact Hnd|].
  destruct (station_dict_has_one_entry_per_station id example_stations
              Hdots Hnd) as (d & Hd & Hsize & Hlookup).
  exists d. split; [exact Hd|]. split; [exact Hsize|].
  apply (Hlookup (mkStation "AZ" "PAS" (33, -116, 2)%Z)).
  do 2 apply list_elem_of_further. apply list_elem_of_here.
Defined.

End Stations.
